(** * Verification of the AISDI homework programs

    Two independent C++17 programs are modelled and verified here:

    - [binary-tree/binary-tree.cpp]: an unbalanced binary search tree whose
      nodes carry parent back-pointers ([Module BinaryTree]);
    - [stable-selection-sort/stable-selection-sort.cpp]: a card deck stored
      in a singly linked list with a sentinel node, with a shuffle and a
      stable selection sort ([Module StableSelectionSort]).

    Both programs manipulate raw pointers.  They are embedded as programs of
    a state-and-error monad over an explicit store (a finite map from
    addresses to nodes), one Rocq definition per C++ function, with the same
    names and the same control flow.  Loops and recursion over pointers take
    fuel; the public operations supply the number of allocated nodes as fuel
    and the theorems show that this is always enough on a well-formed
    structure. *)

From Stdlib Require Import ZArith Lia.
From stdpp Require Import gmap list sorting strings.

Local Open Scope Z_scope.

(** ** Addresses, machine integers, and the program monad *)

Abbreviation loc := positive (only parsing).

(** [std::size_t] is a 64-bit unsigned integer; [++] and [--] wrap. *)
Definition size_t_modulus : Z := 2 ^ 64.
Definition size_t_wrap (z : Z) : Z := z mod size_t_modulus.

(** What a run can die of.  The first three are undefined behaviour or an
    aborted run in C++.  The others are artefacts of the model: a random
    number outside the range of its distribution, a generator modelled by
    too short a list, and a loop that ran out of fuel. *)
Inductive error : Type :=
  | NullDereference
  | DanglingPointer
  | AssertionViolated
  | ImpossibleDraw
  | GeneratorExhausted
  | OutOfFuel.

Inductive result (A : Type) : Type :=
  | Ok (a : A)
  | Err (e : error).
Arguments Ok {A} a.
Arguments Err {A} e.

Definition prog (S A : Type) : Type := S → result (A * S).

Definition ret {S A} (a : A) : prog S A := λ s, Ok (a, s).

Definition bind {S A B} (m : prog S A) (k : A → prog S B) : prog S B :=
  λ s, match m s with
       | Ok (a, s') => k a s'
       | Err e => Err e
       end.

Definition fail {S A} (e : error) : prog S A := λ _, Err e.

Definition gets {S A} (f : S → A) : prog S A := λ s, Ok (f s, s).

Definition modify {S} (f : S → S) : prog S unit := λ s, Ok (tt, f s).

Notation "x <- m ;; k" := (bind m (λ x, k))
  (at level 20, m at level 99, k at level 200, only parsing).
Notation "m ;; k" := (bind m (λ _, k))
  (at level 100, k at level 200, only parsing, right associativity).

(** * The binary search tree of [binary-tree.cpp] *)

Module BinaryTree.

Section Tree.

(** [template<typename T>]: the stored type and its [operator<]. *)
Context {T : Type} (less : T → T → bool).

(** [tree_node<T>*]; [None] is [nullptr]. *)
Abbreviation node_ptr := (option loc) (only parsing).

Record tree_node : Type := mk_tree_node {
  value : T;
  parent : node_ptr;
  left : node_ptr;
  right : node_ptr;
}.

(** A [tree<T>] object together with the heap its nodes live in. *)
Record tree : Type := mk_tree {
  store : gmap loc tree_node;
  root : node_ptr;
  tree_size : Z;
}.

Definition with_parent (p : node_ptr) (n : tree_node) : tree_node :=
  mk_tree_node (value n) p (left n) (right n).
Definition with_left (p : node_ptr) (n : tree_node) : tree_node :=
  mk_tree_node (value n) (parent n) p (right n).
Definition with_right (p : node_ptr) (n : tree_node) : tree_node :=
  mk_tree_node (value n) (parent n) (left n) p.

Definition with_store (h : gmap loc tree_node) (t : tree) : tree :=
  mk_tree h (root t) (tree_size t).
Definition with_root (p : node_ptr) (t : tree) : tree :=
  mk_tree (store t) p (tree_size t).
Definition with_tree_size (z : Z) (t : tree) : tree :=
  mk_tree (store t) (root t) z.

(** ** Memory accesses *)

(** [*p], for reading. *)
Definition deref (p : node_ptr) : prog tree tree_node :=
  λ t, match p with
       | None => Err NullDereference
       | Some a =>
           match store t !! a with
           | Some n => Ok (n, t)
           | None => Err DanglingPointer
           end
       end.

(** [*p = n]. *)
Definition assign (p : node_ptr) (n : tree_node) : prog tree unit :=
  _ <- deref p ;;
  modify (λ t, match p with
               | Some a => with_store (<[a:=n]> (store t)) t
               | None => t
               end).

(** [p->field = x] is [update p (with_field x)]. *)
Definition update (p : node_ptr) (f : tree_node → tree_node) : prog tree unit :=
  n <- deref p ;;
  assign p (f n).

(** [new node(v)]: the constructor nulls the three pointers. *)
Definition new_node (v : T) : prog tree node_ptr :=
  λ t, let a := fresh (dom (store t)) in
       Ok (Some a, with_store (<[a:=mk_tree_node v None None None]> (store t)) t).

(** [delete p]. *)
Definition delete_node (p : node_ptr) : prog tree unit :=
  match p with
  | None => ret tt
  | Some a => _ <- deref p ;; modify (λ t, with_store (delete a (store t)) t)
  end.

(** ** [tree_node] member functions *)

Definition attach_on_left (this new_left : node_ptr) : prog tree unit :=
  update this (with_left new_left) ;;
  if new_left is Some _ then update new_left (with_parent this) else ret tt.

Definition attach_on_right (this new_right : node_ptr) : prog tree unit :=
  update this (with_right new_right) ;;
  if new_right is Some _ then update new_right (with_parent this) else ret tt.

Definition replace_child (this old_child new_child : node_ptr) : prog tree unit :=
  n <- deref this ;;
  if decide (left n = old_child) then
    attach_on_left this new_child ;;
    update old_child (with_parent None)
  else if decide (right n = old_child) then
    attach_on_right this new_child ;;
    update old_child (with_parent None)
  else ret tt.

(** ** [tree] member functions *)

(** [tree()] *)
Definition empty_tree : tree := mk_tree ∅ None 0.

Definition size : prog tree Z := gets tree_size.

Definition empty : prog tree bool :=
  n <- size ;; ret (bool_decide (n = 0)).

(** Fuel for the pointer-chasing loops of the public operations: no path
    in a well-formed tree is longer than the number of allocated nodes. *)
Definition enough_fuel : prog tree nat := gets (λ t, S (base.size (store t))).

Fixpoint try_insert (fuel : nat) (subtree new_node : node_ptr) : prog tree bool :=
  match fuel with
  | O => fail OutOfFuel
  | S fuel =>
      nn <- deref new_node ;;
      sn <- deref subtree ;;
      if less (value nn) (value sn) then
        if left sn is None then
          attach_on_left subtree new_node ;; ret true
        else try_insert fuel (left sn) new_node
      else if less (value sn) (value nn) then
        if right sn is None then
          attach_on_right subtree new_node ;; ret true
        else try_insert fuel (right sn) new_node
      else ret false
  end.

Definition emplace (v : T) : prog tree bool :=
  new_node <- new_node v ;;
  is_empty <- empty ;;
  inserted <-
    (if is_empty then
       modify (with_root new_node) ;; ret true
     else
       r <- gets root ;;
       fuel <- enough_fuel ;;
       try_insert fuel r new_node) ;;
  if negb inserted then
    delete_node new_node ;; ret false
  else
    modify (λ t, with_tree_size (size_t_wrap (tree_size t + 1)) t) ;;
    ret true.

Definition insert (v : T) : prog tree bool := emplace v.

Fixpoint find_at (fuel : nat) (subtree : node_ptr) (v : T) : prog tree node_ptr :=
  match fuel with
  | O => fail OutOfFuel
  | S fuel =>
      if subtree is None then ret None
      else
        sn <- deref subtree ;;
        if less v (value sn) then find_at fuel (left sn) v
        else if less (value sn) v then find_at fuel (right sn) v
        else ret subtree
  end.

Definition contains (v : T) : prog tree bool :=
  r <- gets root ;;
  fuel <- enough_fuel ;;
  found <- find_at fuel r v ;;
  ret (bool_decide (found ≠ None)).

Definition extract_leaf (leaf_to_erase : node_ptr) : prog tree unit :=
  n <- deref leaf_to_erase ;;
  if parent n is Some _ then replace_child (parent n) leaf_to_erase None
  else modify (with_root None).

Definition extract_single_node (node_to_erase : node_ptr) : prog tree unit :=
  n <- deref node_to_erase ;;
  let child := if left n is Some _ then left n else right n in
  if parent n is Some _ then replace_child (parent n) node_to_erase child
  else
    modify (with_root child) ;;
    update child (with_parent None).

(** The [while] loop of [extract_min_node]. *)
Fixpoint leftmost (fuel : nat) (subtree : node_ptr) : prog tree node_ptr :=
  match fuel with
  | O => fail OutOfFuel
  | S fuel =>
      sn <- deref subtree ;;
      if left sn is Some _ then leftmost fuel (left sn) else ret subtree
  end.

Definition extract_min_node (subtree : node_ptr) : prog tree node_ptr :=
  fuel <- enough_fuel ;;
  subtree <- leftmost fuel subtree ;;
  sn <- deref subtree ;;
  (if right sn is Some _ then extract_single_node subtree
   else extract_leaf subtree) ;;
  ret subtree.

Definition extract_double_node (node_to_erase : node_ptr) : prog tree unit :=
  n <- deref node_to_erase ;;
  min_node <- extract_min_node (right n) ;;
  n <- deref node_to_erase ;;
  (if parent n is Some _ then replace_child (parent n) node_to_erase min_node
   else
     modify (with_root min_node) ;;
     update min_node (with_parent None)) ;;
  n <- deref node_to_erase ;;
  attach_on_left min_node (left n) ;;
  n <- deref node_to_erase ;;
  attach_on_right min_node (right n).

Definition extract_node (node : node_ptr) : prog tree unit :=
  n <- deref node ;;
  match left n, right n with
  | None, None => extract_leaf node
  | Some _, Some _ => extract_double_node node
  | _, _ => extract_single_node node
  end.

Definition erase (v : T) : prog tree unit :=
  r <- gets root ;;
  fuel <- enough_fuel ;;
  node_to_erase <- find_at fuel r v ;;
  if node_to_erase is Some _ then
    extract_node node_to_erase ;;
    delete_node node_to_erase ;;
    modify (λ t, with_tree_size (size_t_wrap (tree_size t - 1)) t)
  else ret tt.

(** ** Abstract view of the heap

    A [shape] is the tree of nodes reachable from the root, each node
    tagged with its address.  [rep h par t] says that the store [h] lays
    out [t] below a node whose address is [par]: every node holds its value
    and the addresses of its parent and children. *)

Inductive shape : Type :=
  | Leaf
  | Node (l : shape) (a : loc) (v : T) (r : shape).

Definition ptr (t : shape) : node_ptr :=
  match t with
  | Leaf => None
  | Node _ a _ _ => Some a
  end.

(** In-order traversals: addresses, values. *)
Fixpoint addrs (t : shape) : list loc :=
  match t with
  | Leaf => []
  | Node l a _ r => addrs l ++ a :: addrs r
  end.

Fixpoint values (t : shape) : list T :=
  match t with
  | Leaf => []
  | Node l _ v r => values l ++ v :: values r
  end.

Fixpoint height (t : shape) : nat :=
  match t with
  | Leaf => O
  | Node l _ _ r => S (height l `max` height r)
  end.

Fixpoint rep (h : gmap loc tree_node) (par : node_ptr) (t : shape) : Prop :=
  match t with
  | Leaf => True
  | Node l a v r =>
      h !! a = Some (mk_tree_node v par (ptr l) (ptr r))
      ∧ rep h (Some a) l ∧ rep h (Some a) r
  end.

(** The ordering invariant of the specification: at every node, the values
    of the left subtree are strictly smaller and those of the right subtree
    strictly larger. *)
Fixpoint bst (t : shape) : Prop :=
  match t with
  | Leaf => True
  | Node l _ v r =>
      Forall (λ x, less x v = true) (values l)
      ∧ Forall (λ x, less v x = true) (values r)
      ∧ bst l ∧ bst r
  end.

(** [x] orders strictly before [y]. *)
Definition precedes (x y : T) : Prop := less x y = true.

(** The tree object [t] holds the nodes of [s] and nothing is shared. *)
Definition tree_rep (t : tree) (s : shape) : Prop :=
  rep (store t) None s ∧ root t = ptr s ∧ NoDup (addrs s).

(** The counter is the number of nodes (and that number fits [size_t]). *)
Definition size_ok (t : tree) (s : shape) : Prop :=
  tree_size t = Z.of_nat (length (addrs s))
  ∧ Z.of_nat (length (addrs s)) < size_t_modulus.

(** What the counter holds in any case: the number of nodes modulo the
    range of [size_t]. *)
Definition counted (t : tree) (s : shape) : Prop :=
  tree_size t = size_t_wrap (Z.of_nat (length (addrs s))).

(** One-hole contexts, innermost frame first: the position of a subtree
    inside a tree. *)
Inductive ctx : Type :=
  | Top
  | InLeft (C : ctx) (a : loc) (v : T) (r : shape)
  | InRight (C : ctx) (l : shape) (a : loc) (v : T).

Fixpoint plug (C : ctx) (t : shape) : shape :=
  match C with
  | Top => t
  | InLeft C a v r => plug C (Node t a v r)
  | InRight C l a v => plug C (Node l a v t)
  end.

(** Address of the node whose child the hole is. *)
Definition hole_parent (C : ctx) : node_ptr :=
  match C with
  | Top => None
  | InLeft _ a _ _ | InRight _ _ a _ => Some a
  end.

(** Root of [plug C t] when [t] sits at address [hp]. *)
Fixpoint root_of (C : ctx) (hp : node_ptr) : node_ptr :=
  match C with
  | Top => hp
  | InLeft C a _ _ | InRight C _ a _ => root_of C (Some a)
  end.

Fixpoint ctx_addrs (C : ctx) : list loc :=
  match C with
  | Top => []
  | InLeft C a _ r => a :: addrs r ++ ctx_addrs C
  | InRight C l a _ => a :: addrs l ++ ctx_addrs C
  end.

(** Values before and after the hole, in order. *)
Fixpoint ctx_before (C : ctx) : list T :=
  match C with
  | Top => []
  | InLeft C _ _ _ => ctx_before C
  | InRight C l _ v => ctx_before C ++ values l ++ [v]
  end.

Fixpoint ctx_after (C : ctx) : list T :=
  match C with
  | Top => []
  | InLeft C _ v r => v :: values r ++ ctx_after C
  | InRight C _ _ _ => ctx_after C
  end.

Fixpoint rep_ctx (h : gmap loc tree_node) (C : ctx) (hp : node_ptr) : Prop :=
  match C with
  | Top => True
  | InLeft C a v r =>
      h !! a = Some (mk_tree_node v (hole_parent C) hp (ptr r))
      ∧ rep h (Some a) r ∧ rep_ctx h C (Some a)
  | InRight C l a v =>
      h !! a = Some (mk_tree_node v (hole_parent C) (ptr l) hp)
      ∧ rep h (Some a) l ∧ rep_ctx h C (Some a)
  end.

(** The leftmost node of a shape (the in-order successor of the node
    whose right subtree the shape is), and the shape without it: a leftmost
    node has no left child, so its right subtree takes its place. *)
Fixpoint min_node (t : shape) : option (loc * T) :=
  match t with
  | Leaf => None
  | Node Leaf a v _ => Some (a, v)
  | Node l _ _ _ => min_node l
  end.

Fixpoint without_min (t : shape) : shape :=
  match t with
  | Leaf => Leaf
  | Node Leaf _ _ r => r
  | Node l a v r => Node (without_min l) a v r
  end.

(** What [extract_node] makes of the subtree rooted at the extracted node:
    nothing for a leaf, the child for a node with one child, and for a node
    with two children the successor on top of the left subtree and of what
    remains of the right one. *)
Definition remove_root (t : shape) : shape :=
  match t with
  | Leaf => Leaf
  | Node Leaf _ _ r => r
  | Node l _ _ Leaf => l
  | Node l _ _ r =>
      match min_node r with
      | Some (m, mv) => Node l m mv (without_min r)
      | None => l
      end
  end.

(** What [try_insert] makes of a shape when the new node is at [n]. *)
Fixpoint graft (n : loc) (x : T) (t : shape) : shape :=
  match t with
  | Leaf => Node Leaf n x Leaf
  | Node l a v r =>
      if less x v then Node (graft n x l) a v r
      else if less v x then Node l a v (graft n x r)
      else t
  end.

(** ** Auxiliary notions for the proofs *)

(** The step that the three extraction functions share: tell the parent
    (or the root reference, when there is none) which node comes in place
    of the extracted one. *)
Definition splice (par node new : node_ptr) : prog tree unit :=
  if par is Some _ then replace_child par node new
  else (modify (with_root new) ;; update new (with_parent None)).

(** A node with at most one child, extracted by the function that
    [extract_node] and [extract_min_node] pick for it. *)
Definition extract_few (l r : shape) (node : node_ptr) : prog tree unit :=
  match ptr l, ptr r with
  | None, None => extract_leaf node
  | _, _ => extract_single_node node
  end.

(** Position of the leftmost node of [Node l a v r] sitting in [C], with
    its right subtree. *)
Fixpoint min_ctx (C : ctx) (l : shape) (a : loc) (v : T) (r : shape) :
    ctx * loc * T * shape :=
  match l with
  | Leaf => (C, a, v, r)
  | Node ll la lv lr => min_ctx (InLeft C a v r) ll la lv lr
  end.

(** Where the descent of [find_at] for [x] stops. *)
Fixpoint locate (x : T) (C : ctx) (s : shape) : option (ctx * shape) :=
  match s with
  | Leaf => None
  | Node l a v r =>
      if less x v then locate x (InLeft C a v r) l
      else if less v x then locate x (InRight C l a v) r
      else Some (C, s)
  end.

Definition found (o : option (ctx * shape)) : node_ptr :=
  match o with
  | Some (_, s) => ptr s
  | None => None
  end.

(** [comp C C0] is [C] inside [C0]. *)
Fixpoint comp (C C0 : ctx) : ctx :=
  match C with
  | Top => C0
  | InLeft C a v r => InLeft (comp C C0) a v r
  | InRight C l a v => InRight (comp C C0) l a v
  end.

(** [operator<] is a strict total order. *)
Record strict_total_order : Prop := {
  order_irrefl : ∀ x, less x x = false;
  order_trans : ∀ x y z, less x y = true → less y z = true → less x z = true;
  order_total : ∀ x y, less x y = false → less y x = false → x = y;
}.

(** Clients of the tree: a sequence of calls to the public operations, as
    [main] issues them. *)
Inductive operation : Type :=
  | Insert (v : T)
  | Erase (v : T).

Definition apply_operation (o : operation) : prog tree unit :=
  match o with
  | Insert v => _ <- insert v ;; ret tt
  | Erase v => erase v
  end.

Fixpoint apply_operations (os : list operation) : prog tree unit :=
  match os with
  | [] => ret tt
  | o :: os => apply_operation o ;; apply_operations os
  end.

End Tree.

Arguments Leaf {T}.
Arguments Top {T}.

(** ** The end of a tree, and the test program

    The parts of [binary-tree.cpp] around the public operations: the
    destructor and the two loops of [main]. *)

Section Lifetime.

Context {T : Type} (less : T → T → bool).

Local Abbreviation tree := (tree (T:=T)).

(** [remove_subtree]: the children first, then the node itself. *)
Fixpoint remove_subtree (fuel : nat) (node : option loc) : prog tree unit :=
  match fuel with
  | O => fail OutOfFuel
  | S fuel =>
      n <- deref node ;;
      (if left n is Some _ then remove_subtree fuel (left n) else ret tt) ;;
      n <- deref node ;;
      (if right n is Some _ then remove_subtree fuel (right n) else ret tt) ;;
      delete_node node
  end.

(** [~tree()] *)
Definition destroy : prog tree unit :=
  is_empty <- empty ;;
  if negb is_empty then
    r <- gets root ;;
    fuel <- enough_fuel ;;
    remove_subtree fuel r
  else ret tt.

(** [for(int e : test_vector) test_tree.insert(e);] *)
Fixpoint insert_each (test_vector : list T) : prog tree unit :=
  match test_vector with
  | [] => ret tt
  | e :: test_vector => _ <- insert less e ;; insert_each test_vector
  end.

(** [for(int e : test_vector) test_tree.erase(e);] *)
Fixpoint erase_each (test_vector : list T) : prog tree unit :=
  match test_vector with
  | [] => ret tt
  | e :: test_vector => erase less e ;; erase_each test_vector
  end.

End Lifetime.

(** [assert(b)] *)
Definition assert {T} (b : bool) : prog (tree (T:=T)) unit :=
  if b then ret tt else fail AssertionViolated.

(** [main], from the declaration of [test_tree] to the end of its scope.
    [test_vector] is what [generate_test_vector] returned and [reshuffled]
    what the second call of [shuffle_test_vector] made of it; the values
    are [int]s, compared with [<]. *)
Definition main (test_vector reshuffled : list Z) : result (unit * tree (T:=Z)) :=
  (insert_each Z.ltb test_vector ;;
   n <- size ;;
   assert (bool_decide (Z.of_nat (length test_vector) = n)) ;;
   erase_each Z.ltb reshuffled ;;
   is_empty <- empty ;;
   assert (bool_decide (is_empty = true)) ;;
   destroy) empty_tree.

(** ** A tree of integers

    The tree that eight insertions build, and its layout: the addresses
    are given out in the order of the insertions. *)
Definition example_values : list Z := [5; 3; 8; 1; 4; 6; 9; 7].

Definition example_tree : tree :=
  match apply_operations Z.ltb (Insert <$> example_values) empty_tree with
  | Ok (_, t) => t
  | Err _ => empty_tree
  end.

Definition example_left : shape :=
  Node (Node Leaf 4%positive 1 Leaf) 2%positive 3 (Node Leaf 5%positive 4 Leaf).

Definition example_right : shape :=
  Node (Node Leaf 6%positive 6 (Node Leaf 8%positive 7 Leaf)) 3%positive 8
       (Node Leaf 7%positive 9 Leaf).

Definition example_shape : shape := Node example_left 1%positive 5 example_right.

(** The position of the node with value 6 in this tree, and the one child
    of that node. *)
Definition example_position : ctx :=
  InLeft (InRight Top example_left 1%positive 5) 3%positive 8
         (Node Leaf 7%positive 9 Leaf).

Definition example_child : shape := Node Leaf 8%positive 7 Leaf.

(** Calls of the public operations, and two orders of the numbers below 6
    as [main] may draw them. *)
Definition example_operations : list (operation (T:=Z)) :=
  [Insert 5; Insert 3; Insert 8; Erase 5; Insert 3; Erase 7; Insert 4].

Definition example_test_vector : list Z := [4; 0; 3; 5; 1; 2].
Definition example_reshuffled : list Z := [2; 5; 0; 1; 4; 3].

End BinaryTree.

(** * The card deck of [stable-selection-sort.cpp] *)

Module StableSelectionSort.

(** [unsigned char] arithmetic wraps at 256. *)
Definition uchar_wrap (z : Z) : Z := z mod 256.

(** [std::ptrdiff_t]: the 64-bit two's complement reading of a [size_t]. *)
Definition to_ptrdiff_t (z : Z) : Z :=
  if z <? 2 ^ 63 then z else z - size_t_modulus.

(** [enum class CardRank : unsigned char]: the enumerators are the
    character codes from ['2'] on.  Every [unsigned char] is a value of the
    type, which the loop of [generateStandardDeck] relies on. *)
Abbreviation CardRank := Z (only parsing).

Definition TWO : CardRank := 50.
Definition THREE : CardRank := 51.
Definition FOUR : CardRank := 52.
Definition FIVE : CardRank := 53.
Definition SIX : CardRank := 54.
Definition SEVEN : CardRank := 55.
Definition EIGHT : CardRank := 56.
Definition NINE : CardRank := 57.
Definition TEN : CardRank := 58.
Definition JACK : CardRank := 59.
Definition QUEEN : CardRank := 60.
Definition KING : CardRank := 61.
Definition ACE : CardRank := 62.

(** [enum CardSuite : unsigned char], character codes again. *)
Abbreviation CardSuite := Z (only parsing).

Definition SPADE : CardSuite := 83.
Definition HEART : CardSuite := 72.
Definition DIAMOND : CardSuite := 68.
Definition CLUB : CardSuite := 67.

Record Card : Type := mk_Card {
  suite : CardSuite;
  rank : CardRank;
}.

#[global] Instance Card_eq_dec : EqDecision Card.
Proof. solve_decision. Defined.

(** [Card{}] *)
Definition default_Card : Card := mk_Card 0 0.

(** [Card::operator==] and [Card::operator<] look at the rank only. *)
Definition Card_eqb (c other : Card) : bool := rank c =? rank other.
Definition Card_ltb (c other : Card) : bool := rank c <? rank other.

(** [Node*]: null, the address of the member [beforeHeadNode], or the
    address of a node made by [new]. *)
Inductive node_ptr : Type :=
  | nullptr
  | before_head
  | heap_node (a : loc).

#[global] Instance node_ptr_eq_dec : EqDecision node_ptr.
Proof. solve_decision. Defined.

Record Node : Type := mk_Node {
  card : Card;
  next : node_ptr;
}.

(** A [Deck] object and the heap its nodes live in. *)
Record Deck : Type := mk_Deck {
  beforeHeadNode : Node;
  heap : gmap loc Node;
  deckSize : Z;
}.

Definition with_card (c : Card) (n : Node) : Node := mk_Node c (next n).
Definition with_next (p : node_ptr) (n : Node) : Node := mk_Node (card n) p.

Definition with_deckSize (z : Z) (d : Deck) : Deck :=
  mk_Deck (beforeHeadNode d) (heap d) z.

(** ** Memory accesses *)

Definition load (p : node_ptr) (d : Deck) : option Node :=
  match p with
  | nullptr => None
  | before_head => Some (beforeHeadNode d)
  | heap_node a => heap d !! a
  end.

Definition store_node (p : node_ptr) (n : Node) (d : Deck) : Deck :=
  match p with
  | nullptr => d
  | before_head => mk_Deck n (heap d) (deckSize d)
  | heap_node a => mk_Deck (beforeHeadNode d) (<[a:=n]> (heap d)) (deckSize d)
  end.

(** [*p], for reading. *)
Definition deref (p : node_ptr) : prog Deck Node :=
  λ d, match p with
       | nullptr => Err NullDereference
       | _ => match load p d with
              | Some n => Ok (n, d)
              | None => Err DanglingPointer
              end
       end.

(** [p->field = x] is [update p (with_field x)]. *)
Definition update (p : node_ptr) (f : Node → Node) : prog Deck unit :=
  n <- deref p ;;
  modify (store_node p (f n)).

(** [new Node{card}]; [next] defaults to [nullptr]. *)
Definition new_Node (c : Card) : prog Deck node_ptr :=
  λ d, let a := fresh (dom (heap d)) in
       Ok (heap_node a,
           mk_Deck (beforeHeadNode d) (<[a:=mk_Node c nullptr]> (heap d)) (deckSize d)).

(** [delete p]; only nodes made by [new] can be deleted. *)
Definition delete_Node (p : node_ptr) : prog Deck unit :=
  match p with
  | nullptr => ret tt
  | before_head => fail DanglingPointer
  | heap_node a =>
      _ <- deref p ;;
      modify (λ d, mk_Deck (beforeHeadNode d) (delete a (heap d)) (deckSize d))
  end.

(** [assert(b)] *)
Definition assert (b : bool) : prog Deck unit :=
  if b then ret tt else fail AssertionViolated.

Definition is_null (p : node_ptr) : bool :=
  match p with
  | nullptr => true
  | _ => false
  end.

(** ** [Deck] member functions *)

(** [Deck()] *)
Definition empty_Deck : Deck := mk_Deck (mk_Node default_Card nullptr) ∅ 0.

Definition size : prog Deck Z := gets deckSize.

Definition empty : prog Deck bool :=
  n <- size ;; ret (bool_decide (n = 0)).

(** Iterators are node pointers. *)
Definition beforeBegin : node_ptr := before_head.
Definition end_ : node_ptr := nullptr.

(** [std::next(it)], and the value of [it] after [++it]. *)
Definition iter_next (it : node_ptr) : prog Deck node_ptr :=
  n <- deref it ;; ret (next n).

Definition begin : prog Deck node_ptr := iter_next beforeBegin.

(** [*it] *)
Definition iter_get (it : node_ptr) : prog Deck Card :=
  n <- deref it ;; ret (card n).

(** [std::next(it, n)] for [n >= 0]. *)
Fixpoint advance (n : nat) (it : node_ptr) : prog Deck node_ptr :=
  match n with
  | O => ret it
  | S n => it <- iter_next it ;; advance n it
  end.

Definition attachAfter (node nodeToAttach : node_ptr) : prog Deck unit :=
  assert (negb (is_null node)) ;;
  n <- deref node ;;
  update nodeToAttach (with_next (next n)) ;;
  update node (with_next nodeToAttach).

Definition extractAfter (node : node_ptr) : prog Deck node_ptr :=
  assert (negb (is_null node)) ;;
  n <- deref node ;;
  assert (negb (is_null (next n))) ;;
  let nodeToExtract := next n in
  e <- deref nodeToExtract ;;
  update node (with_next (next e)) ;;
  ret nodeToExtract.

Definition insertAfter (it : node_ptr) (c : Card) : prog Deck unit :=
  nodeToAttach <- new_Node c ;;
  attachAfter it nodeToAttach ;;
  modify (λ d, with_deckSize (size_t_wrap (deckSize d + 1)) d).

Definition eraseAfter (it : node_ptr) : prog Deck unit :=
  extracted <- extractAfter it ;;
  delete_Node extracted ;;
  modify (λ d, with_deckSize (size_t_wrap (deckSize d - 1)) d).

Definition pushFront (c : Card) : prog Deck unit := insertAfter beforeBegin c.

Definition popFront : prog Deck unit := eraseAfter beforeBegin.

(** Fuel for the loops of the public operations: no chain of a well-formed
    deck is longer than the number of allocated nodes. *)
Definition enough_fuel : prog Deck nat := gets (λ d, S (base.size (heap d))).

(** *** [shuffle]

    The generator is the sequence of numbers that the successive calls
    [distr(generator, param)] will return.  A
    [std::uniform_int_distribution] with parameters [a] and [b] only
    returns numbers between [a] and [b]. *)
Definition distr (drawn a b : Z) : prog Deck Z :=
  if (a <=? drawn) && (drawn <=? b) then ret drawn else fail ImpossibleDraw.

(** [std::iter_swap(a, b)] *)
Definition iter_swap (a b : node_ptr) : prog Deck unit :=
  tmp <- iter_get a ;;
  other <- iter_get b ;;
  update a (with_card other) ;;
  update b (with_card tmp).

(** The [for] loop of [shuffle]; each turn takes one number from the
    generator.  The result is what is left of the generator. *)
Fixpoint shuffle_loop (generator : list Z) (it : node_ptr) (minOffset : Z) :
    prog Deck (list Z) :=
  if is_null it then ret generator
  else
    match generator with
    | [] => fail GeneratorExhausted
    | drawn :: generator =>
        n <- size ;;
        offset <- distr drawn minOffset (to_ptrdiff_t (size_t_wrap (n - 1))) ;;
        first <- begin ;;
        other <- advance (Z.to_nat offset) first ;;
        iter_swap it other ;;
        it <- iter_next it ;;
        shuffle_loop generator it (minOffset + 1)
    end.

Definition shuffle (generator : list Z) : prog Deck (list Z) :=
  it <- begin ;;
  shuffle_loop generator it 0.

(** *** [stableSelectionSort] *)

(** The [while] loop of [findBeforeMin]. *)
Fixpoint findBeforeMin_loop (fuel : nat) (beforeStart beforeMin : node_ptr) :
    prog Deck node_ptr :=
  match fuel with
  | O => fail OutOfFuel
  | S fuel =>
      beforeStart <- iter_next beforeStart ;;
      if is_null beforeStart then ret beforeMin
      else
        candidate <- iter_next beforeStart ;;
        if is_null candidate then ret beforeMin
        else
          c <- iter_get candidate ;;
          least <- iter_next beforeMin ;;
          m <- iter_get least ;;
          findBeforeMin_loop fuel beforeStart
            (if Card_ltb c m then beforeStart else beforeMin)
  end.

Definition findBeforeMin (beforeStart : node_ptr) : prog Deck node_ptr :=
  fuel <- enough_fuel ;;
  beforeMin <- findBeforeMin_loop fuel beforeStart beforeStart ;;
  assert (negb (is_null beforeMin)) ;;
  least <- iter_next beforeMin ;;
  assert (negb (is_null least)) ;;
  ret beforeMin.

(** The [while] loop of [stableSelectionSort]. *)
Fixpoint stableSelectionSort_loop (fuel : nat) (inserter : node_ptr) :
    prog Deck unit :=
  match fuel with
  | O => fail OutOfFuel
  | S fuel =>
      unsorted <- iter_next inserter ;;
      if is_null unsorted then ret tt
      else
        beforeMin <- findBeforeMin inserter ;;
        extracted <- extractAfter beforeMin ;;
        attachAfter inserter extracted ;;
        inserter <- iter_next inserter ;;
        stableSelectionSort_loop fuel inserter
  end.

Definition stableSelectionSort : prog Deck unit :=
  fuel <- enough_fuel ;;
  stableSelectionSort_loop fuel beforeBegin.

(** *** [generateStandardDeck] *)

(** The inner range-[for] over the four suits. *)
Fixpoint pushFront_suites (suites : list CardSuite) (r : CardRank) : prog Deck unit :=
  match suites with
  | [] => ret tt
  | s :: suites => pushFront (mk_Card s r) ;; pushFront_suites suites r
  end.

(** The outer loop; the rank is decremented as an [unsigned char]. *)
Fixpoint generateStandardDeck_loop (fuel : nat) (r : CardRank) : prog Deck unit :=
  match fuel with
  | O => fail OutOfFuel
  | S fuel =>
      if TWO <=? r then
        pushFront_suites [SPADE; HEART; CLUB; DIAMOND] r ;;
        generateStandardDeck_loop fuel (uchar_wrap (r - 1))
      else ret tt
  end.

(** An [unsigned char] counting down to below ['2'] takes fewer than 256
    steps. *)
Definition generateStandardDeck : result (unit * Deck) :=
  generateStandardDeck_loop 256 ACE empty_Deck.

(** The order in which [generateStandardDeck] makes the cards: the ranks
    from the ace down, and the four suits for each rank. *)
Definition suites_in_order : list CardSuite := [SPADE; HEART; CLUB; DIAMOND].

Definition ranks_descending : list CardRank :=
  [ACE; KING; QUEEN; JACK; TEN; NINE; EIGHT; SEVEN; SIX; FIVE; FOUR; THREE; TWO].

Definition generation_order : list Card :=
  r ← ranks_descending; s ← suites_in_order; [mk_Card s r].

(** [pushFront] for each card of a list in turn. *)
Fixpoint pushFront_all (cs : list Card) : prog Deck unit :=
  match cs with
  | [] => ret tt
  | c :: cs => pushFront c ;; pushFront_all cs
  end.

(** The cards from [begin()] to [end()], as
    [std::vector(deck.begin(), deck.end())] collects them. *)
Fixpoint collect (fuel : nat) (it : node_ptr) : prog Deck (list Card) :=
  match fuel with
  | O => fail OutOfFuel
  | S fuel =>
      if is_null it then ret []
      else
        c <- iter_get it ;;
        it <- iter_next it ;;
        cs <- collect fuel it ;;
        ret (c :: cs)
  end.

Definition cards : prog Deck (list Card) :=
  fuel <- enough_fuel ;;
  it <- begin ;;
  collect fuel it.

(** ** Abstract view of the chain

    [chain d p ns q]: following [next] from [p] visits the nodes [ns] (each
    with its address and its card) and arrives at [q]. *)
Fixpoint chain (d : Deck) (p : node_ptr) (ns : list (node_ptr * Card))
    (q : node_ptr) : Prop :=
  match ns with
  | [] => p = q
  | (a, c) :: ns =>
      p = a ∧ a ≠ nullptr
      ∧ ∃ nx, load a d = Some (mk_Node c nx) ∧ chain d nx ns q
  end.

(** Address at which a chain over [ns] starts when it ends at [q]. *)
Definition head_ptr (ns : list (node_ptr * Card)) (q : node_ptr) : node_ptr :=
  match ns with
  | [] => q
  | (a, _) :: _ => a
  end.

(** The deck [d] holds the nodes [ns] after its sentinel, in this order,
    and no node occurs twice. *)
Definition deck_rep (d : Deck) (ns : list (node_ptr * Card)) : Prop :=
  chain d before_head ((before_head, card (beforeHeadNode d)) :: ns) nullptr
  ∧ NoDup (before_head :: ns.*1).

(** The counter is the number of nodes (and that number fits [size_t] and
    [ptrdiff_t]). *)
Definition size_ok (d : Deck) (ns : list (node_ptr * Card)) : Prop :=
  deckSize d = Z.of_nat (length ns) ∧ Z.of_nat (length ns) < 2 ^ 63.

(** Address of the last node of a chain that starts with [p]. *)
Definition last_ptr (p : node_ptr) (ns : list (node_ptr * Card)) : node_ptr :=
  default p (last (ns.*1)).

(** Ordering of cards: [operator<], and its negation the other way round. *)
Definition Card_lt (c1 c2 : Card) : Prop := rank c1 < rank c2.
Definition Card_le (c1 c2 : Card) : Prop := rank c1 ≤ rank c2.

(** [selects u v]: [v] lists the nodes of [u] in the order in which
    selection takes them, each step taking the earliest node with the
    least card of what is left: the nodes before it are strictly greater,
    the nodes after it not smaller. *)
Inductive selects : list (node_ptr * Card) → list (node_ptr * Card) → Prop :=
  | selects_nil : selects [] []
  | selects_step u1 m u2 v :
      Forall (λ x, Card_lt m.2 x.2) u1 →
      Forall (λ y, Card_le m.2 y.2) u2 →
      selects (u1 ++ u2) v →
      selects (u1 ++ m :: u2) (m :: v).

(** ** Choice sequences of the shuffle

    [fisher_yates i choices l]: for the positions from [i] on, exchange the
    element at the position with the element at the chosen position. *)
Definition swap {A} (i j : nat) (l : list A) : list A :=
  match l !! i, l !! j with
  | Some x, Some y => <[j:=x]> (<[i:=y]> l)
  | _, _ => l
  end.

Fixpoint fisher_yates {A} (i : nat) (choices : list nat) (l : list A) : list A :=
  match choices with
  | [] => l
  | c :: choices => fisher_yates (S i) choices (swap i c l)
  end.

(** One choice for each of the positions [i], ..., [n - 1], the choice for
    position [k] being one of [k], ..., [n - 1]. *)
Fixpoint valid_choices (i n : nat) (choices : list nat) : Prop :=
  match choices with
  | [] => i = n
  | c :: choices => (i ≤ c < n)%nat ∧ valid_choices (S i) n choices
  end.

(** ** The end of a deck, and the test program

    The parts of [stable-selection-sort.cpp] around the claims: the
    destructor, and the checks and the loop of [genericTest]. *)

#[global] Instance Card_le_dec : RelDecision Card_le.
Proof. intros c1 c2. unfold Card_le. apply _. Defined.

(** The [while] loop of [~Deck()]. *)
Fixpoint destroy_loop (fuel : nat) : prog Deck unit :=
  match fuel with
  | O => fail OutOfFuel
  | S fuel =>
      is_empty <- empty ;;
      if negb is_empty then popFront ;; destroy_loop fuel else ret tt
  end.

(** [~Deck()] *)
Definition destroy : prog Deck unit :=
  fuel <- enough_fuel ;;
  destroy_loop fuel.

(** [std::is_sorted_until(first, last)] with [last] the end of the deck,
    [next] being the successor of [first]: the first position whose card is
    less than the card before it. *)
Fixpoint is_sorted_until (fuel : nat) (first next : node_ptr) : prog Deck node_ptr :=
  match fuel with
  | O => fail OutOfFuel
  | S fuel =>
      if is_null next then ret next
      else
        c <- iter_get next ;;
        before <- iter_get first ;;
        if Card_ltb c before then ret next
        else
          after <- iter_next next ;;
          is_sorted_until fuel next after
  end.

(** [std::is_sorted(deck.begin(), deck.end())] *)
Definition is_sorted : prog Deck bool :=
  first <- begin ;;
  if is_null first then ret true
  else
    fuel <- enough_fuel ;;
    next <- iter_next first ;;
    stop <- is_sorted_until fuel first next ;;
    ret (is_null stop).

(** [std::find(first, last, value)] in a vector of cards.  A position of
    the vector is what the vector holds from there on, [[]] for its end;
    the elements are compared with [Card::operator==]. *)
Fixpoint find (first : list Card) (value : Card) : list Card :=
  match first with
  | [] => []
  | c :: rest => if Card_eqb c value then first else find rest value
  end.

(** The inner [for] loop of [isStandardDeckStablySorted], [i] turns of it.
    The result is the deck iterator after the loop, or [None] when the
    function returns false from inside it. *)
Fixpoint find_group (i : nat) (jt : list Card) (it : node_ptr) :
    prog Deck (option node_ptr) :=
  match i with
  | O => ret (Some it)
  | S i =>
      c <- iter_get it ;;
      let jt := find jt c in
      if jt is [] then ret None
      else
        it <- iter_next it ;;
        find_group i jt it
  end.

(** The outer [for] loop. *)
Fixpoint isStandardDeckStablySorted_loop (fuel : nat) (it : node_ptr)
    (shuffledCollection : list Card) : prog Deck bool :=
  match fuel with
  | O => fail OutOfFuel
  | S fuel =>
      if is_null it then ret true
      else
        after <- find_group 4 shuffledCollection it ;;
        match after with
        | None => ret false
        | Some it => isStandardDeckStablySorted_loop fuel it shuffledCollection
        end
  end.

Definition isStandardDeckStablySorted (shuffledCollection : list Card) :
    prog Deck bool :=
  fuel <- enough_fuel ;;
  it <- begin ;;
  isStandardDeckStablySorted_loop fuel it shuffledCollection.

(** What [genericTest] prints about a test. *)
Inductive complaint : Type :=
  | NotSorted (testId : Z)
  | NotStablySorted (testId : Z).

(** The [for] loop of [genericTest], [tests] turns of it from [testId] on.
    The generator is threaded through the calls of [shuffle]; the result
    is what was printed. *)
Fixpoint genericTest_loop (tests : nat) (testId : Z) (generator : list Z) :
    prog Deck (list complaint) :=
  match tests with
  | O => ret []
  | S tests =>
      generator <- shuffle generator ;;
      shuffledCollection <- cards ;;
      stableSelectionSort ;;
      sorted <- is_sorted ;;
      stable <- isStandardDeckStablySorted shuffledCollection ;;
      printed <- genericTest_loop tests (testId + 1) generator ;;
      ret ((if sorted then [] else [NotSorted testId])
           ++ (if stable then [] else [NotStablySorted testId])
           ++ printed)
  end.

(** [genericTest(testCount)] for a [testCount] below the greatest
    [size_t] (at that value [testId <= testCount] never fails). *)
Definition genericTest (testCount : nat) (generator : list Z) :
    result (list complaint * Deck) :=
  match generateStandardDeck with
  | Ok (_, deck) =>
      (n <- size ;;
       assert (bool_decide (n = 52)) ;;
       genericTest_loop testCount 1 generator) deck
  | Err e => Err e
  end.

(** ** Printing

    What the stream operators write, as a string. *)

(** The character with the given code, as [stream << c] writes an
    [unsigned char]. *)
Definition char (code : Z) : string :=
  String (Ascii.ascii_of_N (Z.to_N code)) "".

(** [operator<<(std::ostream&, const CardRank&)] *)
Definition print_CardRank (r : CardRank) : string :=
  if decide (r = TEN) then "10"
  else if decide (r = JACK) then "J"
  else if decide (r = QUEEN) then "Q"
  else if decide (r = KING) then "K"
  else if decide (r = ACE) then "A"
  else char r.

(** [operator<<(std::ostream&, const CardSuite&)] *)
Definition print_CardSuite (s : CardSuite) : string := char s.

(** [operator<<(std::ostream&, const Card&)] *)
Definition print_Card (c : Card) : string :=
  "(" +:+ print_CardRank (rank c) +:+ "|" +:+ print_CardSuite (suite c) +:+ ")".



(** ** A deck of five cards

    The deck that five calls of [pushFront] build, its nodes from front to
    back, and one draw for each position. *)
Definition example_cards : list Card :=
  [mk_Card SPADE SEVEN; mk_Card HEART TWO; mk_Card CLUB SEVEN;
   mk_Card DIAMOND TWO; mk_Card HEART ACE].

Definition example_deck : Deck :=
  match pushFront_all example_cards empty_Deck with
  | Ok (_, d) => d
  | Err _ => empty_Deck
  end.

Definition example_nodes : list (node_ptr * Card) :=
  [(heap_node 5, mk_Card HEART ACE); (heap_node 4, mk_Card DIAMOND TWO);
   (heap_node 3, mk_Card CLUB SEVEN); (heap_node 2, mk_Card HEART TWO);
   (heap_node 1, mk_Card SPADE SEVEN)].


(** A sorted deck of four cards, and decks whose cards all have one rank:
    a full group of four, and two cards only. *)
Definition example_sorted_deck : Deck :=
  match pushFront_all [mk_Card HEART ACE; mk_Card SPADE SEVEN;
                       mk_Card CLUB SEVEN; mk_Card HEART TWO] empty_Deck with
  | Ok (_, d) => d
  | Err _ => empty_Deck
  end.

Definition example_sorted_nodes : list (node_ptr * Card) :=
  [(heap_node 4, mk_Card HEART TWO); (heap_node 3, mk_Card CLUB SEVEN);
   (heap_node 2, mk_Card SPADE SEVEN); (heap_node 1, mk_Card HEART ACE)].

Definition example_sevens : Deck :=
  match pushFront_all [mk_Card SPADE SEVEN; mk_Card HEART SEVEN;
                       mk_Card CLUB SEVEN; mk_Card DIAMOND SEVEN] empty_Deck with
  | Ok (_, d) => d
  | Err _ => empty_Deck
  end.

Definition example_sevens_nodes : list (node_ptr * Card) :=
  [(heap_node 4, mk_Card DIAMOND SEVEN); (heap_node 3, mk_Card CLUB SEVEN);
   (heap_node 2, mk_Card HEART SEVEN); (heap_node 1, mk_Card SPADE SEVEN)].

Definition example_pair : Deck :=
  match pushFront_all [mk_Card SPADE SEVEN; mk_Card HEART SEVEN] empty_Deck with
  | Ok (_, d) => d
  | Err _ => empty_Deck
  end.

Definition example_pair_nodes : list (node_ptr * Card) :=
  [(heap_node 2, mk_Card HEART SEVEN); (heap_node 1, mk_Card SPADE SEVEN)].

(** Draws for two shuffles of a deck of 52 cards. *)
Definition example_draws : list (list nat) := [replicate 52 51; seq 0 52]%nat.

End StableSelectionSort.

(** * Tools for the proofs *)

Lemma bind_Ok {S A B} (m : prog S A) (k : A → prog S B) s a s' :
  m s = Ok (a, s') → bind m k s = k a s'.
Proof. unfold bind. by intros ->. Qed.

Lemma bind_Err {S A B} (m : prog S A) (k : A → prog S B) s e :
  m s = Err e → bind m k s = Err e.
Proof. unfold bind. by intros ->. Qed.

Ltac split_NoDup :=
  repeat match goal with
    | H : NoDup (_ ++ _) |- _ => apply NoDup_app in H as (? & ? & ?)
    | H : NoDup (_ :: _) |- _ => apply NoDup_cons in H as (? & ?)
    end.

Ltac nodup :=
  rewrite ?NoDup_app, ?NoDup_cons; split_and?;
  (done || apply NoDup_nil_2 || set_solver).

(** Properties of concrete data, by evaluation. *)
Ltac evaluate :=
  vm_compute; repeat first [split | discriminate | eexists]; try compute_done.

Ltac tree_simpl :=
  cbn [BinaryTree.store BinaryTree.root BinaryTree.tree_size
       BinaryTree.with_store BinaryTree.with_root BinaryTree.with_tree_size
       BinaryTree.value BinaryTree.parent BinaryTree.left BinaryTree.right
       BinaryTree.with_parent BinaryTree.with_left BinaryTree.with_right
       BinaryTree.ptr] in *.

(** * Correctness of the binary search tree *)

Module BinaryTreeCorrect.
Import BinaryTree.

Section Correctness.

Context {T : Type} (less : T → T → bool).

Implicit Types (t : tree (T:=T)) (h : gmap positive (tree_node (T:=T))).
Implicit Types (s l r : shape (T:=T)) (C : ctx (T:=T)).
Implicit Types (a b c p m : positive) (n : tree_node (T:=T)).

Local Abbreviation locate := (BinaryTree.locate less).

(** ** Running the memory accesses *)

Lemma deref_run t a n :
  store t !! a = Some n → deref (Some a) t = Ok (n, t).
Proof. unfold deref. by intros ->. Qed.

Lemma update_run t a n f :
  store t !! a = Some n →
  update (Some a) f t = Ok (tt, with_store (<[a:=f n]> (store t)) t).
Proof.
  intros H. unfold update, assign.
  rewrite (bind_Ok _ _ _ _ _ (deref_run _ _ _ H)).
  rewrite (bind_Ok _ _ _ _ _ (deref_run _ _ _ H)). done.
Qed.

Lemma delete_run t a n :
  store t !! a = Some n →
  delete_node (Some a) t = Ok (tt, with_store (delete a (store t)) t).
Proof.
  intros H. unfold delete_node.
  by rewrite (bind_Ok _ _ _ _ _ (deref_run _ _ _ H)).
Qed.

Lemma attach_on_left_None t a n :
  store t !! a = Some n →
  attach_on_left (Some a) None t
  = Ok (tt, with_store (<[a:=with_left None n]> (store t)) t).
Proof.
  intros H. unfold attach_on_left.
  by rewrite (bind_Ok _ _ _ _ _ (update_run _ _ _ _ H)).
Qed.

Lemma attach_on_left_Some t a n c nc :
  store t !! a = Some n → store t !! c = Some nc → a ≠ c →
  attach_on_left (Some a) (Some c) t
  = Ok (tt, with_store (<[c:=with_parent (Some a) nc]>
                          (<[a:=with_left (Some c) n]> (store t))) t).
Proof.
  intros H Hc Hne. unfold attach_on_left.
  rewrite (bind_Ok _ _ _ _ _ (update_run _ _ _ _ H)).
  erewrite update_run; [done|]. simpl. by rewrite lookup_insert_ne.
Qed.

Lemma attach_on_right_None t a n :
  store t !! a = Some n →
  attach_on_right (Some a) None t
  = Ok (tt, with_store (<[a:=with_right None n]> (store t)) t).
Proof.
  intros H. unfold attach_on_right.
  by rewrite (bind_Ok _ _ _ _ _ (update_run _ _ _ _ H)).
Qed.

Lemma attach_on_right_Some t a n c nc :
  store t !! a = Some n → store t !! c = Some nc → a ≠ c →
  attach_on_right (Some a) (Some c) t
  = Ok (tt, with_store (<[c:=with_parent (Some a) nc]>
                          (<[a:=with_right (Some c) n]> (store t))) t).
Proof.
  intros H Hc Hne. unfold attach_on_right.
  rewrite (bind_Ok _ _ _ _ _ (update_run _ _ _ _ H)).
  erewrite update_run; [done|]. simpl. by rewrite lookup_insert_ne.
Qed.

(** ** Shapes and their layout *)

Lemma ptr_addrs s a : ptr s = Some a → a ∈ addrs s.
Proof. destruct s; simpl; [done|]. intros [= ->]. set_solver. Qed.

Lemma rep_agree h h' par s :
  (∀ a, a ∈ addrs s → h' !! a = h !! a) → rep h par s → rep h' par s.
Proof.
  revert par. induction s as [|l IHl a v r IHr]; simpl; [done|].
  intros par Hag (Ha & Hl & Hr). split_and!.
  - rewrite Hag; [done|set_solver].
  - apply IHl; [|done]. intros; apply Hag; set_solver.
  - apply IHr; [|done]. intros; apply Hag; set_solver.
Qed.

Lemma rep_ctx_agree h h' C hp :
  (∀ a, a ∈ ctx_addrs C → h' !! a = h !! a) → rep_ctx h C hp → rep_ctx h' C hp.
Proof.
  revert hp. induction C as [|C IH a v r|C IH l a v]; simpl; [done|..];
    intros hp Hag (Ha & Hs & HC); split_and!.
  - rewrite Hag; [done|set_solver].
  - eapply rep_agree; [|done]. intros; apply Hag; set_solver.
  - apply IH; [|done]. intros; apply Hag; set_solver.
  - rewrite Hag; [done|set_solver].
  - eapply rep_agree; [|done]. intros; apply Hag; set_solver.
  - apply IH; [|done]. intros; apply Hag; set_solver.
Qed.

Lemma rep_plug h C s :
  rep h None (plug C s) ↔ rep_ctx h C (ptr s) ∧ rep h (hole_parent C) s.
Proof.
  revert s. induction C as [|C IH a v r|C IH l a v]; intros s; simpl.
  - tauto.
  - rewrite IH. simpl. tauto.
  - rewrite IH. simpl. tauto.
Qed.

Lemma ptr_plug C s : ptr (plug C s) = root_of C (ptr s).
Proof. revert s. induction C; intros s; simpl; [done|..]; by rewrite IHC. Qed.

Lemma addrs_plug C s : addrs (plug C s) ≡ₚ addrs s ++ ctx_addrs C.
Proof.
  revert s. induction C as [|C IH a v r|C IH l a v]; intros s; simpl.
  - by rewrite app_nil_r.
  - rewrite IH. simpl. by rewrite <-app_assoc.
  - rewrite IH. simpl. rewrite <-app_assoc. simpl.
    rewrite <-!Permutation_middle. f_equiv. rewrite !app_assoc. f_equiv.
    apply Permutation_app_comm.
Qed.

Lemma values_plug C s : values (plug C s) = ctx_before C ++ values s ++ ctx_after C.
Proof.
  revert s. induction C as [|C IH a v r|C IH l a v]; intros s; simpl.
  - by rewrite app_nil_r.
  - rewrite IH. simpl. by rewrite <-!app_assoc.
  - rewrite IH. simpl. by rewrite <-!app_assoc.
Qed.

(** ** Replacing a child below its parent *)

Lemma ptr_neq s a : a ∉ addrs s → ptr s ≠ Some a.
Proof. intros Hn Hp. by apply Hn, ptr_addrs. Qed.

Lemma replace_child_ctx t C p a na new :
  hole_parent C = Some p →
  rep_ctx (store t) C (Some a) →
  NoDup (a :: ctx_addrs C) →
  store t !! a = Some na →
  (∀ c, new = Some c → c ≠ a ∧ c ∉ ctx_addrs C ∧ is_Some (store t !! c)) →
  ∃ t', replace_child (Some p) (Some a) new t = Ok (tt, t')
        ∧ root t' = root t ∧ tree_size t' = tree_size t
        ∧ rep_ctx (store t') C new
        ∧ store t' !! a = Some (with_parent None na)
        ∧ (∀ c nc, new = Some c → store t !! c = Some nc →
             store t' !! c = Some (with_parent (Some p) nc))
        ∧ (∀ b, b ≠ a → b ≠ p → new ≠ Some b → store t' !! b = store t !! b).
Proof.
  intros Hp HC Hnd Ha Hnew.
  apply NoDup_cons in Hnd as [Hna Hnd].
  destruct C as [|C' p' pv r|C' l p' pv]; simpl in Hp; [done|..];
    injection Hp as ->; simpl in HC, Hna, Hnd; destruct HC as (HP & Hs & HC);
    apply NoDup_cons in Hnd as [Hnp Hnd]; apply NoDup_app in Hnd as (Hnd1 & Hdisj & Hnd2);
    assert (a ≠ p) by set_solver.
  - (* the hole is the left child *)
    unfold replace_child. rewrite (bind_Ok _ _ _ _ _ (deref_run _ _ _ HP)). simpl.
    rewrite decide_True by done.
    destruct new as [c|].
    + destruct (Hnew c eq_refl) as (Hca & Hcn & [nc Hc]).
      assert (p ≠ c) by set_solver.
      rewrite (bind_Ok _ _ _ _ _ (attach_on_left_Some _ _ _ _ _ HP Hc ltac:(done))).
      erewrite update_run; [|simpl; by rewrite !lookup_insert_ne].
      eexists; split; [done|]. simpl. split_and!; try done.
      * by rewrite lookup_insert_ne, lookup_insert_ne, lookup_insert_eq by done.
      * eapply rep_agree; [|done]. intros b Hb.
        rewrite !lookup_insert_ne; [done|set_solver..].
      * eapply rep_ctx_agree; [|done]. intros b Hb.
        rewrite !lookup_insert_ne; [done|set_solver..].
      * by rewrite lookup_insert_eq.
      * intros c' nc' [= <-] Hc'. rewrite lookup_insert_ne, lookup_insert_eq by done.
        congruence.
      * intros b ? ? ?. rewrite !lookup_insert_ne; [done|congruence..].
    + rewrite (bind_Ok _ _ _ _ _ (attach_on_left_None _ _ _ HP)).
      erewrite update_run; [|simpl; by rewrite !lookup_insert_ne].
      eexists; split; [done|]. simpl. split_and!; try done.
      * by rewrite lookup_insert_ne, lookup_insert_eq by done.
      * eapply rep_agree; [|done]. intros b Hb.
        rewrite !lookup_insert_ne; [done|set_solver..].
      * eapply rep_ctx_agree; [|done]. intros b Hb.
        rewrite !lookup_insert_ne; [done|set_solver..].
      * by rewrite lookup_insert_eq.
      * intros b ? ? ?. rewrite !lookup_insert_ne; [done|congruence..].
  - (* the hole is the right child *)
    unfold replace_child. rewrite (bind_Ok _ _ _ _ _ (deref_run _ _ _ HP)). simpl.
    rewrite decide_False by (apply ptr_neq; set_solver).
    rewrite decide_True by done.
    destruct new as [c|].
    + destruct (Hnew c eq_refl) as (Hca & Hcn & [nc Hc]).
      assert (p ≠ c) by set_solver.
      rewrite (bind_Ok _ _ _ _ _ (attach_on_right_Some _ _ _ _ _ HP Hc ltac:(done))).
      erewrite update_run; [|simpl; by rewrite !lookup_insert_ne].
      eexists; split; [done|]. simpl. split_and!; try done.
      * by rewrite lookup_insert_ne, lookup_insert_ne, lookup_insert_eq by done.
      * eapply rep_agree; [|done]. intros b Hb.
        rewrite !lookup_insert_ne; [done|set_solver..].
      * eapply rep_ctx_agree; [|done]. intros b Hb.
        rewrite !lookup_insert_ne; [done|set_solver..].
      * by rewrite lookup_insert_eq.
      * intros c' nc' [= <-] Hc'. rewrite lookup_insert_ne, lookup_insert_eq by done.
        congruence.
      * intros b ? ? ?. rewrite !lookup_insert_ne; [done|congruence..].
    + rewrite (bind_Ok _ _ _ _ _ (attach_on_right_None _ _ _ HP)).
      erewrite update_run; [|simpl; by rewrite !lookup_insert_ne].
      eexists; split; [done|]. simpl. split_and!; try done.
      * by rewrite lookup_insert_ne, lookup_insert_eq by done.
      * eapply rep_agree; [|done]. intros b Hb.
        rewrite !lookup_insert_ne; [done|set_solver..].
      * eapply rep_ctx_agree; [|done]. intros b Hb.
        rewrite !lookup_insert_ne; [done|set_solver..].
      * by rewrite lookup_insert_eq.
      * intros b ? ? ?. rewrite !lookup_insert_ne; [done|congruence..].
Qed.

(** ** Taking a node out of its position

    The three extraction functions share one step: tell the parent (or the
    root reference, when there is none) which node comes in place of the
    extracted one. *)

Lemma extract_single_node_unfold node :
  extract_single_node (T:=T) node
  = (n <- deref node ;;
     splice (parent n) node (if left n is Some _ then left n else right n)).
Proof. reflexivity. Qed.

Lemma root_of_nonTop C hp hp' :
  is_Some (hole_parent C) → root_of C hp = root_of C hp'.
Proof. destruct C; simpl; [by intros [??]|done..]. Qed.

Lemma with_parent_id n par : parent n = par → with_parent par n = n.
Proof. destruct n; simpl; by intros ->. Qed.

Lemma extract_leaf_ctx t C a na :
  rep_ctx (store t) C (Some a) →
  root t = root_of C (Some a) →
  NoDup (a :: ctx_addrs C) →
  store t !! a = Some na →
  parent na = hole_parent C →
  ∃ t', extract_leaf (Some a) t = Ok (tt, t')
        ∧ tree_size t' = tree_size t
        ∧ rep_ctx (store t') C None
        ∧ root t' = root_of C None
        ∧ store t' !! a = Some (with_parent None na)
        ∧ (∀ b, b ≠ a → hole_parent C ≠ Some b → store t' !! b = store t !! b).
Proof.
  intros HC Hroot Hnd Ha Hpar. unfold extract_leaf.
  rewrite (bind_Ok _ _ _ _ _ (deref_run _ _ _ Ha)). rewrite Hpar.
  destruct (hole_parent C) as [p|] eqn:Hp.
  - destruct (replace_child_ctx t C p a na None Hp HC Hnd Ha) as
      (t' & Hrun & Hr & Hsz & HC' & Ha' & _ & Hfr); [done|].
    exists t'. split_and!; try done.
    + rewrite Hr, Hroot. apply root_of_nonTop. by rewrite Hp.
    + intros b ? ?. apply Hfr; congruence.
  - destruct C; try done. eexists; split; [done|]. simpl.
    split_and!; try done. by rewrite with_parent_id.
Qed.

Lemma splice_ctx t C a na c nc :
  rep_ctx (store t) C (Some a) →
  root t = root_of C (Some a) →
  NoDup (a :: ctx_addrs C) →
  store t !! a = Some na →
  parent na = hole_parent C →
  store t !! c = Some nc → c ≠ a → c ∉ ctx_addrs C →
  ∃ t', splice (parent na) (Some a) (Some c) t = Ok (tt, t')
        ∧ tree_size t' = tree_size t
        ∧ rep_ctx (store t') C (Some c)
        ∧ root t' = root_of C (Some c)
        ∧ store t' !! a = Some (with_parent None na)
        ∧ store t' !! c = Some (with_parent (hole_parent C) nc)
        ∧ (∀ b, b ≠ a → b ≠ c → hole_parent C ≠ Some b →
             store t' !! b = store t !! b).
Proof.
  intros HC Hroot Hnd Ha Hpar Hc Hca Hcn. unfold splice. rewrite Hpar.
  destruct (hole_parent C) as [p|] eqn:Hp.
  - destruct (replace_child_ctx t C p a na (Some c) Hp HC Hnd Ha) as
      (t' & Hrun & Hr & Hsz & HC' & Ha' & Hc' & Hfr).
    { intros ? [= <-]. by rewrite Hc. }
    exists t'. split_and!; try done.
    + rewrite Hr, Hroot. apply root_of_nonTop. by rewrite Hp.
    + by apply Hc'.
    + intros b ? ? ?. apply Hfr; congruence.
  - destruct C; try done.
    erewrite bind_Ok; [|done]. erewrite update_run; [|done].
    eexists; split; [done|]. simpl. split_and!; try done.
    + rewrite lookup_insert_ne by done. by rewrite with_parent_id.
    + by rewrite lookup_insert_eq.
    + intros b ? ? ?. by rewrite lookup_insert_ne.
Qed.

(** ** Shapes under a changed parent pointer *)

Lemma rep_reparent h h' par par' s :
  rep h par s → NoDup (addrs s) →
  (∀ c nc, ptr s = Some c → h !! c = Some nc →
     h' !! c = Some (with_parent par' nc)) →
  (∀ b, b ∈ addrs s → ptr s ≠ Some b → h' !! b = h !! b) →
  rep h' par' s.
Proof.
  destruct s as [|l a v r]; simpl; [done|].
  intros (Ha & Hl & Hr) Hnd Hroot Hrest.
  apply NoDup_app in Hnd as (Hndl & Hdisj & Hnd).
  apply NoDup_cons in Hnd as (Har & Hndr).
  split_and!.
  - by rewrite (Hroot a _ eq_refl Ha).
  - eapply rep_agree; [|done]. intros b Hb. apply Hrest; [set_solver|].
    intros [= ->]. by apply (Hdisj b); [|left].
  - eapply rep_agree; [|done]. intros b Hb. apply Hrest; [set_solver|].
    by intros [= ->].
Qed.

Lemma tree_rep_plug t C s :
  tree_rep t (plug C s) ↔
    rep_ctx (store t) C (ptr s) ∧ rep (store t) (hole_parent C) s
    ∧ root t = root_of C (ptr s) ∧ NoDup (addrs s ++ ctx_addrs C).
Proof.
  unfold tree_rep. rewrite rep_plug, ptr_plug, addrs_plug. tauto.
Qed.

Lemma hole_parent_addrs C p : hole_parent C = Some p → p ∈ ctx_addrs C.
Proof. destruct C; simpl; [done|..]; intros [= ->]; set_solver. Qed.

Lemma extract_few_spec t C l a v r :
  l = Leaf ∨ r = Leaf →
  tree_rep t (plug C (Node l a v r)) →
  ∃ t', extract_few l r (Some a) t = Ok (tt, t')
        ∧ tree_rep t' (plug C (remove_root (Node l a v r)))
        ∧ tree_size t' = tree_size t
        ∧ store t' !! a = Some (mk_tree_node v None (ptr l) (ptr r))
        ∧ (∀ b, b ∉ addrs (plug C (Node l a v r)) → store t' !! b = store t !! b).
Proof.
  intros Hfew (HC & (Ha & Hl & Hr) & Hroot & Hnd)%tree_rep_plug.
  simpl in HC, Hroot, Hnd.
  assert (NoDup (a :: ctx_addrs C)) as HndC by (split_NoDup; nodup).
  assert (∀ b, hole_parent C = Some b → b ∈ ctx_addrs C) as HpC
    by (intros; by apply hole_parent_addrs).
  destruct l as [|ll c lv lr], r as [|rl c' rv rr]; [| | |by destruct Hfew].
  - (* a leaf *)
    destruct (extract_leaf_ctx t C a _ HC Hroot HndC Ha eq_refl)
      as (t' & Hrun & Hsz & HC' & Hroot' & Ha' & Hfr).
    exists t'. split_and!; try done.
    + apply tree_rep_plug. simpl. split_and!; try done. split_NoDup; nodup.
    + intros b Hb. rewrite addrs_plug in Hb. simpl in Hb.
      apply Hfr; [set_solver|]. intros ?%HpC. set_solver.
  - (* only a right child *)
    unfold extract_few. cbn [ptr] in *. rewrite extract_single_node_unfold.
    rewrite (bind_Ok _ _ _ _ _ (deref_run _ _ _ Ha)). cbn [left right parent]. destruct Hr as (Hc & Hrl & Hrr). simpl in Hnd.
    destruct (splice_ctx t C a _ c' _ HC Hroot HndC Ha eq_refl Hc)
      as (t' & Hrun & Hsz & HC' & Hroot' & Ha' & Hc' & Hfr);
      [split_NoDup; set_solver..|].
    exists t'. split_and!; try done.
    + apply tree_rep_plug. simpl. split_and!; try done.
      * eapply rep_agree; [|done]. intros b Hb. split_NoDup.
        apply Hfr; [set_solver..|]. intros ?%HpC. set_solver.
      * eapply rep_agree; [|done]. intros b Hb. split_NoDup.
        apply Hfr; [set_solver..|]. intros ?%HpC. set_solver.
      * split_NoDup; nodup.
    + intros b Hb. rewrite addrs_plug in Hb. simpl in Hb.
      apply Hfr; [set_solver..|]. intros ?%HpC. set_solver.
  - (* only a left child *)
    unfold extract_few. cbn [ptr] in *. rewrite extract_single_node_unfold.
    rewrite (bind_Ok _ _ _ _ _ (deref_run _ _ _ Ha)). cbn [left right parent]. destruct Hl as (Hc & Hll & Hlr). simpl in Hnd.
    destruct (splice_ctx t C a _ c _ HC Hroot HndC Ha eq_refl Hc)
      as (t' & Hrun & Hsz & HC' & Hroot' & Ha' & Hc' & Hfr);
      [split_NoDup; set_solver..|].
    exists t'. split_and!; try done.
    + apply tree_rep_plug. simpl. split_and!; try done.
      * eapply rep_agree; [|done]. intros b Hb. split_NoDup.
        apply Hfr; [set_solver..|]. intros ?%HpC. set_solver.
      * eapply rep_agree; [|done]. intros b Hb. split_NoDup.
        apply Hfr; [set_solver..|]. intros ?%HpC. set_solver.
      * split_NoDup; nodup.
    + intros b Hb. rewrite addrs_plug in Hb. simpl in Hb.
      apply Hfr; [set_solver..|]. intros ?%HpC. set_solver.
Qed.

(** ** The leftmost node *)

Lemma min_ctx_plug C l a v r Cm m mv mr :
  min_ctx C l a v r = (Cm, m, mv, mr) →
  plug C (Node l a v r) = plug Cm (Node Leaf m mv mr).
Proof.
  revert C a v r. induction l as [|ll IH la lv lr _]; intros C a v r; simpl.
  - by intros [= -> -> -> ->].
  - intros H. by rewrite <-(IH _ _ _ _ H).
Qed.

Lemma min_ctx_min_node C l a v r Cm m mv mr :
  min_ctx C l a v r = (Cm, m, mv, mr) →
  min_node (Node l a v r) = Some (m, mv)
  ∧ plug Cm mr = plug C (without_min (Node l a v r)).
Proof.
  revert C a v r. induction l as [|ll IH la lv lr _]; intros C a v r.
  - by intros [= -> -> -> ->].
  - intros H. apply IH in H as [H1 H2]. done.
Qed.

Lemma min_node_inorder s m mv :
  min_node s = Some (m, mv) →
  addrs s = m :: addrs (without_min s) ∧ values s = mv :: values (without_min s).
Proof.
  induction s as [|l IH a v r _]; [done|].
  destruct l as [|ll la lv lr].
  - by intros [= -> ->].
  - intros H. destruct (IH H) as [Ha Hv].
    change (addrs (Node (Node ll la lv lr) a v r))
      with (addrs (Node ll la lv lr) ++ a :: addrs r).
    change (values (Node (Node ll la lv lr) a v r))
      with (values (Node ll la lv lr) ++ v :: values r).
    by rewrite Ha, Hv.
Qed.

Lemma min_node_is_Some l a v r : is_Some (min_node (Node l a v r)).
Proof.
  revert a v r. induction l as [|ll IH la lv lr _]; intros a v r; [by eexists|].
  apply (IH la lv lr).
Qed.

Lemma height_addrs s : (height s ≤ length (addrs s))%nat.
Proof.
  induction s as [|l IHl a v r IHr]; simpl; [done|].
  rewrite length_app. simpl. lia.
Qed.

Lemma rep_allocated h par s a : rep h par s → a ∈ addrs s → is_Some (h !! a).
Proof.
  revert par. induction s as [|l IHl c v r IHr]; simpl; intros par; [set_solver|].
  intros (Hc & Hl & Hr) [?|[->|?]%elem_of_cons]%elem_of_app; eauto.
Qed.

Lemma addrs_size h par s :
  rep h par s → NoDup (addrs s) → (length (addrs s) ≤ base.size h)%nat.
Proof.
  intros Hrep Hnd. rewrite <-(size_list_to_set (C:=gset positive)) by done.
  rewrite <-size_dom. apply subseteq_size. intros a Ha%elem_of_list_to_set.
  apply elem_of_dom. by eapply rep_allocated.
Qed.

Lemma leftmost_run t par l a v r fuel m mv :
  rep (store t) par (Node l a v r) →
  (height l < fuel)%nat →
  min_node (Node l a v r) = Some (m, mv) →
  leftmost fuel (Some a) t = Ok (Some m, t).
Proof.
  revert par a v r fuel. induction l as [|ll IH la lv lr _];
    intros par a v r [|fuel] (Ha & Hl & Hr) Hfuel Hmin; simpl in Hfuel; try lia.
  - injection Hmin as -> ->.
    simpl. by rewrite (bind_Ok _ _ _ _ _ (deref_run _ _ _ Ha)).
  - cbn [leftmost]. rewrite (bind_Ok _ _ _ _ _ (deref_run _ _ _ Ha)).
    cbn [left ptr]. eapply IH; [done|lia|done].
Qed.

Lemma enough_fuel_run {B} t (k : nat → prog tree B) :
  bind enough_fuel k t = k (S (base.size (store t))) t.
Proof. reflexivity. Qed.

Lemma extract_min_node_spec t C l a v r m mv :
  tree_rep t (plug C (Node l a v r)) →
  min_node (Node l a v r) = Some (m, mv) →
  ∃ t' nm, extract_min_node (Some a) t = Ok (Some m, t')
        ∧ (extract_leaf (Some m) t = Ok (tt, t')
           ∨ extract_single_node (Some m) t = Ok (tt, t'))
        ∧ tree_rep t' (plug C (without_min (Node l a v r)))
        ∧ tree_size t' = tree_size t
        ∧ store t' !! m = Some nm ∧ value nm = mv
        ∧ (∀ b, b ∉ addrs (plug C (Node l a v r)) → store t' !! b = store t !! b).
Proof.
  intros Hrep Hsplit.
  destruct (min_ctx C l a v r) as [[[Cm m'] mv'] mr] eqn:Hmin.
  destruct (min_ctx_min_node _ _ _ _ _ _ _ _ _ Hmin) as (Hsplit' & Hplug').
  rewrite Hsplit in Hsplit'. injection Hsplit' as <- <-.
  pose proof (min_ctx_plug _ _ _ _ _ _ _ _ _ Hmin) as Hplug.
  pose proof Hrep as (HC & Hs & Hroot & Hnd)%tree_rep_plug.
  unfold extract_min_node. rewrite enough_fuel_run.
  erewrite bind_Ok; cycle 1.
  { eapply leftmost_run; [done| |done]. apply NoDup_app in Hnd as (Hnd & _ & _).
    pose proof (addrs_size _ _ _ Hs Hnd) as Hle. simpl in Hle.
    rewrite length_app in Hle. pose proof (height_addrs l). lia. }
  rewrite Hplug in Hrep |- *.
  pose proof Hrep as (HCm & (Hm & _ & Hmr) & _)%tree_rep_plug.
  rewrite (bind_Ok _ _ _ _ _ (deref_run _ _ _ Hm)). cbn [right].
  destruct (extract_few_spec t Cm Leaf m mv mr (or_introl eq_refl) Hrep)
    as (t' & Hrun & Hrep' & Hsz & Hm' & Hfr).
  assert ((if ptr mr is Some _ then extract_single_node (Some m)
           else extract_leaf (Some m)) = extract_few Leaf mr (Some m)) as ->
    by (by destruct mr).
  rewrite (bind_Ok _ _ _ _ _ Hrun).
  exists t'. eexists. split_and!; try done.
  - destruct mr; [by left|by right].
  - assert (remove_root (Node Leaf m mv mr) = mr) as Hrm by (by destruct mr).
    by rewrite Hrm, Hplug' in Hrep'.
Qed.

Lemma rep_root_lookup h par s c :
  rep h par s → ptr s = Some c →
  ∃ nc, h !! c = Some nc ∧ parent nc = par.
Proof. destruct s; simpl; [done|]. intros (H & _) [= ->]. eauto. Qed.

(** Attaching a whole subtree. *)
Lemma attach_on_left_shape t m nm par s :
  store t !! m = Some nm → rep (store t) par s →
  m ∉ addrs s → NoDup (addrs s) →
  ∃ t', attach_on_left (Some m) (ptr s) t = Ok (tt, t')
        ∧ root t' = root t ∧ tree_size t' = tree_size t
        ∧ store t' !! m = Some (with_left (ptr s) nm)
        ∧ rep (store t') (Some m) s
        ∧ (∀ b, b ≠ m → ptr s ≠ Some b → store t' !! b = store t !! b).
Proof.
  intros Hm Hs Hms Hnd. destruct s as [|l c v r]; cbn [ptr].
  - rewrite (attach_on_left_None _ _ _ Hm). eexists; split; [done|].
    cbn [store root tree_size with_store]. split_and!; try done.
    + apply lookup_insert_eq.
    + intros b ? _. by rewrite lookup_insert_ne.
  - pose proof Hs as (Hc & _). assert (m ≠ c) by set_solver.
    rewrite (attach_on_left_Some _ _ _ _ _ Hm Hc ltac:(done)).
    eexists; split; [done|].
    cbn [store root tree_size with_store ptr]. split_and!; try done.
    + rewrite lookup_insert_ne by done. apply lookup_insert_eq.
    + eapply rep_reparent; [done..| |].
      * intros c' nc' [= <-] Hc'. rewrite lookup_insert_eq. congruence.
      * intros b Hb Hbc. cbn [ptr] in Hbc.
        rewrite !lookup_insert_ne; [done|set_solver|congruence].
    + intros b ? ?. rewrite !lookup_insert_ne; [done|congruence..].
Qed.

Lemma attach_on_right_shape t m nm par s :
  store t !! m = Some nm → rep (store t) par s →
  m ∉ addrs s → NoDup (addrs s) →
  ∃ t', attach_on_right (Some m) (ptr s) t = Ok (tt, t')
        ∧ root t' = root t ∧ tree_size t' = tree_size t
        ∧ store t' !! m = Some (with_right (ptr s) nm)
        ∧ rep (store t') (Some m) s
        ∧ (∀ b, b ≠ m → ptr s ≠ Some b → store t' !! b = store t !! b).
Proof.
  intros Hm Hs Hms Hnd. destruct s as [|l c v r]; cbn [ptr].
  - rewrite (attach_on_right_None _ _ _ Hm). eexists; split; [done|].
    cbn [store root tree_size with_store]. split_and!; try done.
    + apply lookup_insert_eq.
    + intros b ? _. by rewrite lookup_insert_ne.
  - pose proof Hs as (Hc & _). assert (m ≠ c) by set_solver.
    rewrite (attach_on_right_Some _ _ _ _ _ Hm Hc ltac:(done)).
    eexists; split; [done|].
    cbn [store root tree_size with_store ptr]. split_and!; try done.
    + rewrite lookup_insert_ne by done. apply lookup_insert_eq.
    + eapply rep_reparent; [done..| |].
      * intros c' nc' [= <-] Hc'. rewrite lookup_insert_eq. congruence.
      * intros b Hb Hbc. cbn [ptr] in Hbc.
        rewrite !lookup_insert_ne; [done|set_solver|congruence].
    + intros b ? ?. rewrite !lookup_insert_ne; [done|congruence..].
Qed.

Lemma extract_double_node_unfold node :
  extract_double_node (T:=T) node
  = (n <- deref node ;;
     min_node <- extract_min_node (right n) ;;
     n <- deref node ;;
     splice (parent n) node min_node ;;
     n <- deref node ;;
     attach_on_left min_node (left n) ;;
     n <- deref node ;;
     attach_on_right min_node (right n)).
Proof. reflexivity. Qed.

Lemma extract_double_node_spec t C l a v rl ra rv rr m mv :
  let r' := without_min (Node rl ra rv rr) in
  tree_rep t (plug C (Node l a v (Node rl ra rv rr))) →
  min_node (Node rl ra rv rr) = Some (m, mv) →
  ∃ t', extract_double_node (Some a) t = Ok (tt, t')
        ∧ tree_rep t' (plug C (Node l m mv r'))
        ∧ tree_size t' = tree_size t
        ∧ is_Some (store t' !! a)
        ∧ (∀ b, b ∉ addrs (plug C (Node l a v (Node rl ra rv rr))) →
             store t' !! b = store t !! b).
Proof.
  intros r' Hrep Hsplit.
  pose proof Hrep as (HC & (Ha & Hl & Hr) & Hroot & Hnd)%tree_rep_plug.
  destruct (min_node_inorder _ _ _ Hsplit) as [Haddrs _]. fold r' in Haddrs.
  destruct (extract_min_node_spec t (InRight C l a v) rl ra rv rr m mv Hrep Hsplit)
    as (t1 & nm & Hrun1 & _ & Hrep1 & Hsz1 & Hm1 & Hnm & Hfr1).
  fold r' in Hrep1. clearbody r'.
  assert (∀ b, b ∈ addrs (plug C (Node l a v (Node rl ra rv rr))) ↔
               b ∈ addrs l ∨ b = a ∨ b = m ∨ b ∈ addrs r' ∨ b ∈ ctx_addrs C) as Hin.
  { intros b. rewrite addrs_plug.
    change (addrs (Node l a v (Node rl ra rv rr)))
      with (addrs l ++ a :: addrs (Node rl ra rv rr)).
    rewrite Haddrs. set_solver. }
  change (addrs (Node l a v (Node rl ra rv rr)))
    with (addrs l ++ a :: addrs (Node rl ra rv rr)) in Hnd.
  rewrite Haddrs in Hnd.
  assert (∀ b, hole_parent C = Some b → b ∈ ctx_addrs C) as HpC
    by (intros; by apply hole_parent_addrs).
  assert (NoDup (a :: ctx_addrs C)) as HndC by (split_NoDup; nodup).
  rewrite extract_double_node_unfold.
  rewrite (bind_Ok _ _ _ _ _ (deref_run _ _ _ Ha)). cbn [right ptr].
  (* the successor leaves the right subtree *)
  rewrite (bind_Ok _ _ _ _ _ Hrun1). cbn [plug] in Hrep1, Hfr1.
  pose proof Hrep1 as (HC1 & (Ha1 & Hl1 & Hr1) & Hroot1 & _)%tree_rep_plug.
  rewrite (bind_Ok _ _ _ _ _ (deref_run _ _ _ Ha1)). cbn [parent].
  (* it takes the place of the erased node *)
  destruct (splice_ctx t1 C a _ m nm HC1 Hroot1 HndC Ha1 eq_refl Hm1)
    as (t2 & Hrun2 & Hsz2 & HC2 & Hroot2 & Ha2 & Hm2 & Hfr2);
    [split_NoDup; set_solver..|].
  rewrite (bind_Ok _ _ _ _ _ Hrun2).
  rewrite (bind_Ok _ _ _ _ _ (deref_run _ _ _ Ha2)). cbn [left with_parent].
  (* adopts the left subtree *)
  assert (∀ b, b ∈ addrs l ∨ b ∈ addrs r' → store t2 !! b = store t1 !! b) as Hfr2'.
  { intros b Hb. split_NoDup.
    apply Hfr2; [set_solver..|]. intros ?%HpC. set_solver. }
  destruct (attach_on_left_shape t2 m _ (Some a) l Hm2)
    as (t3 & Hrun3 & Hroot3 & Hsz3 & Hm3 & Hl3 & Hfr3);
    [by eapply rep_agree; [|done]; auto|split_NoDup; set_solver..|].
  rewrite (bind_Ok _ _ _ _ _ Hrun3).
  assert (store t3 !! a = store t2 !! a) as Ha3.
  { split_NoDup. apply Hfr3; [set_solver|]. apply ptr_neq. set_solver. }
  rewrite Ha2 in Ha3.
  rewrite (bind_Ok _ _ _ _ _ (deref_run _ _ _ Ha3)). cbn [right with_parent].
  (* and what remains of the right subtree *)
  destruct (attach_on_right_shape t3 m _ (Some a) r' Hm3)
    as (t4 & -> & Hroot4 & Hsz4 & Hm4 & Hr4 & Hfr4);
    [|split_NoDup; set_solver..|].
  { eapply rep_agree; [|done]. intros b Hb. rewrite <-Hfr2' by auto.
    split_NoDup. apply Hfr3; [set_solver|]. apply ptr_neq. set_solver. }
  exists t4. split; [done|]. split_and!.
  - apply tree_rep_plug. cbn [rep ptr addrs]. split_and!.
    + eapply rep_ctx_agree; [|done]. intros b Hb. split_NoDup.
      rewrite Hfr4, Hfr3; [done|try apply ptr_neq; set_solver..].
    + rewrite Hm4. destruct nm. by simplify_eq/=.
    + eapply rep_agree; [|done]. intros b Hb. split_NoDup.
      apply Hfr4; [set_solver|]. apply ptr_neq. set_solver.
    + done.
    + congruence.
    + split_NoDup. nodup.
  - congruence.
  - rewrite Hfr4, Ha3; [done|split_NoDup; try apply ptr_neq; set_solver..].
  - intros b Hb. rewrite <-Hfr1 by done. rewrite Hin in Hb.
    rewrite Hfr4, Hfr3, Hfr2; [done|..].
    + naive_solver.
    + naive_solver.
    + intros ?%HpC. naive_solver.
    + naive_solver.
    + apply ptr_neq. naive_solver.
    + naive_solver.
    + apply ptr_neq. naive_solver.
Qed.

Lemma extract_node_spec t C l a v r :
  tree_rep t (plug C (Node l a v r)) →
  ∃ t', extract_node (Some a) t = Ok (tt, t')
        ∧ tree_rep t' (plug C (remove_root (Node l a v r)))
        ∧ tree_size t' = tree_size t
        ∧ is_Some (store t' !! a)
        ∧ (∀ b, b ∉ addrs (plug C (Node l a v r)) → store t' !! b = store t !! b).
Proof.
  intros Hrep.
  pose proof Hrep as (_ & (Ha & _) & _)%tree_rep_plug.
  unfold extract_node. rewrite (bind_Ok _ _ _ _ _ (deref_run _ _ _ Ha)).
  cbn [left right].
  destruct l as [|ll lc lv lr], r as [|rl ra rv rr]; cbn [ptr].
  - destruct (extract_few_spec t C Leaf a v Leaf) as (t' & ? & ? & ? & Ha' & ?);
      [by left|done|]. exists t'. by split_and!.
  - destruct (extract_few_spec t C Leaf a v (Node rl ra rv rr))
      as (t' & ? & ? & ? & Ha' & ?); [by left|done|].
    exists t'. by split_and!.
  - destruct (extract_few_spec t C (Node ll lc lv lr) a v Leaf)
      as (t' & ? & ? & ? & Ha' & ?); [by right|done|].
    exists t'. by split_and!.
  - destruct (min_node_is_Some rl ra rv rr) as [[m mv] Hmin].
    unfold remove_root. rewrite Hmin. by eapply extract_double_node_spec.
Qed.

Lemma remove_root_inorder l a v r :
  addrs (remove_root (Node l a v r)) = addrs l ++ addrs r
  ∧ values (remove_root (Node l a v r)) = values l ++ values r.
Proof.
  destruct l as [|ll lc lv lr], r as [|rl ra rv rr]; cbn [remove_root];
    try (by rewrite ?app_nil_r).
  destruct (min_node_is_Some rl ra rv rr) as [[m mv] Hmin]. rewrite Hmin.
  destruct (min_node_inorder _ _ _ Hmin) as [-> ->]. done.
Qed.

(** ** Searching *)

Lemma find_at_run t par s C x fuel :
  rep (store t) par s → (height s < fuel)%nat →
  find_at less fuel (ptr s) x t = Ok (found (locate x C s), t).
Proof.
  revert par C fuel. induction s as [|l IHl a v r IHr]; intros par C [|fuel] Hs Hfuel;
    cbn [height] in Hfuel; try lia; [done|].
  destruct Hs as (Ha & Hl & Hr). cbn [find_at ptr locate].
  rewrite (bind_Ok _ _ _ _ _ (deref_run _ _ _ Ha)). cbn [value left right].
  destruct (less x v); [|destruct (less v x)].
  - eapply IHl; [done|lia].
  - eapply IHr; [done|lia].
  - done.
Qed.

Lemma locate_Some x C s C' s' :
  locate x C s = Some (C', s') →
  plug C s = plug C' s'
  ∧ ∃ l a v r, s' = Node l a v r ∧ less x v = false ∧ less v x = false.
Proof.
  revert C. induction s as [|l IHl a v r IHr]; intros C; cbn [locate]; [done|].
  destruct (less x v) eqn:E1; [|destruct (less v x) eqn:E2].
  - intros [<- ?]%IHl. done.
  - intros [<- ?]%IHr. done.
  - intros [= <- <-]. split; [done|]. by exists l, a, v, r.
Qed.

Lemma locate_ctx_irrel x C1 C2 s :
  found (locate x C1 s) = found (locate x C2 s)
  ∧ (locate x C1 s = None ↔ locate x C2 s = None).
Proof.
  revert C1 C2. induction s as [|l IHl a v r IHr]; intros C1 C2; cbn [locate]; [done|].
  destruct (less x v); [|destruct (less v x)]; [apply IHl|apply IHr|done].
Qed.

Lemma tree_fuel t s : tree_rep t s → (height s < S (base.size (store t)))%nat.
Proof.
  intros (Hs & _ & Hnd). pose proof (addrs_size _ _ _ Hs Hnd).
  pose proof (height_addrs s). lia.
Qed.

Lemma contains_run t s x :
  tree_rep t s →
  contains less x t = Ok (bool_decide (locate x Top s ≠ None), t).
Proof.
  intros Hrep. unfold contains. erewrite bind_Ok; [|done].
  rewrite enough_fuel_run. pose proof (tree_fuel _ _ Hrep).
  destruct Hrep as (Hs & -> & Hnd).
  erewrite bind_Ok; [|by eapply (find_at_run _ _ _ Top)].
  unfold ret. do 2 f_equal. apply bool_decide_ext.
  destruct (locate x Top s) as [[C' s']|] eqn:E; [|done].
  apply locate_Some in E as (_ & l & a & v & r & -> & _). done.
Qed.

(** ** [erase] *)

Lemma with_store_id t : with_store (store t) t = t.
Proof. by destruct t. Qed.

Lemma erase_run t s x :
  tree_rep t s →
  match locate x Top s with
  | None => erase less x t = Ok (tt, t)
  | Some (C, s') =>
      ∃ t' a, ptr s' = Some a
        ∧ erase less x t = Ok (tt, t')
        ∧ tree_rep t' (plug C (remove_root s'))
        ∧ tree_size t' = size_t_wrap (tree_size t - 1)
        ∧ dom (store t') = dom (store t) ∖ {[a]}
  end.
Proof.
  intros Hrep. unfold erase. erewrite bind_Ok; [|done].
  rewrite enough_fuel_run. pose proof (tree_fuel _ _ Hrep).
  pose proof Hrep as (Hs & Hroot & Hnd). rewrite Hroot.
  erewrite bind_Ok; [|by eapply (find_at_run _ _ _ Top)].
  destruct (locate x Top s) as [[C s']|] eqn:E; [|done].
  apply locate_Some in E as (Hplug & l & a & v & r & -> & _).
  cbn [plug] in Hplug. subst s. cbn [found ptr].
  destruct (extract_node_spec t C l a v r Hrep)
    as (t1 & Hrun1 & Hrep1 & Hsz1 & [na Ha1] & Hfr1).
  rewrite (bind_Ok _ _ _ _ _ Hrun1).
  rewrite (bind_Ok _ _ _ _ _ (delete_run _ _ _ Ha1)).
  eexists _, a. split; [done|]. split; [done|]. tree_simpl.
  assert (a ∉ addrs (plug C (remove_root (Node l a v r)))) as Hnotin.
  { rewrite addrs_plug. destruct (remove_root_inorder l a v r) as [-> _].
    rewrite addrs_plug in Hnd. cbn [addrs] in Hnd. split_NoDup. set_solver. }
  split_and!.
  - destruct Hrep1 as (Hs1 & Hroot1 & Hnd1). split_and!; try done.
    eapply rep_agree; [|done]. intros b Hb. tree_simpl.
    rewrite lookup_delete_ne; [done|]. by intros <-.
  - by rewrite Hsz1.
  - rewrite dom_delete_L. f_equal. apply set_eq. intros b.
    rewrite !elem_of_dom.
    destruct (decide (b ∈ addrs (plug C (Node l a v r)))) as [Hb|Hb].
    + split; intros _; [by eapply rep_allocated|].
      destruct (decide (b = a)) as [->|Hba]; [by eexists|].
      destruct Hrep1 as (Hs1 & _). eapply rep_allocated; [done|].
      revert Hb. rewrite !addrs_plug.
      destruct (remove_root_inorder l a v r) as [-> _]. cbn [addrs]. set_solver.
    + by rewrite Hfr1.
Qed.

(** ** [try_insert] and [emplace] *)

Lemma graft_ptr k x s : s ≠ Leaf → ptr (graft less k x s) = ptr s.
Proof.
  destruct s as [|l a v r]; [done|]. intros _. cbn [graft].
  by destruct (less x v), (less v x).
Qed.

Lemma graft_addrs k x s C :
  locate x C s = None → addrs (graft less k x s) ≡ₚ k :: addrs s.
Proof.
  revert C. induction s as [|l IHl a v r IHr]; intros C; cbn [graft locate]; [by cbn|].
  destruct (less x v); [|destruct (less v x)]; intros E; [| |done]; cbn [addrs].
  - by rewrite (IHl _ E).
  - rewrite (IHr _ E). rewrite <-!Permutation_middle. apply Permutation_swap.
Qed.

Lemma try_insert_run t par C s a k x fuel :
  ptr s = Some a →
  rep (store t) par s → NoDup (k :: addrs s) →
  store t !! k = Some (mk_tree_node x None None None) →
  (height s ≤ fuel)%nat →
  if locate x C s is None then
    ∃ t', try_insert less fuel (Some a) (Some k) t = Ok (true, t')
          ∧ root t' = root t ∧ tree_size t' = tree_size t
          ∧ rep (store t') par (graft less k x s)
          ∧ (∀ b, b ∉ k :: addrs s → store t' !! b = store t !! b)
  else try_insert less fuel (Some a) (Some k) t = Ok (false, t).
Proof.
  revert par C a fuel. induction s as [|l IHl c v r IHr]; [done|].
  intros par C a [|fuel] [= <-] (Ha & Hl & Hr) Hnd Hk Hfuel;
    cbn [height] in Hfuel; [lia|].
  cbn [try_insert locate graft addrs] in *.
  rewrite (bind_Ok _ _ _ _ _ (deref_run _ _ _ Hk)).
  rewrite (bind_Ok _ _ _ _ _ (deref_run _ _ _ Ha)). tree_simpl.
  assert (c ≠ k) by (split_NoDup; set_solver).
  destruct (less x v) eqn:E1; [|destruct (less v x) eqn:E2]; [| |done].
  - (* to the left *)
    destruct l as [|ll la lv lr]; tree_simpl.
    + rewrite (bind_Ok _ _ _ _ _ (attach_on_left_Some _ _ _ _ _ Ha Hk ltac:(done))).
      eexists. split; [done|]. tree_simpl. cbn [graft rep]. tree_simpl.
      split_and!; try done.
      * by rewrite lookup_insert_ne, lookup_insert_eq.
      * by rewrite lookup_insert_eq.
      * eapply rep_agree; [|done]. intros b Hb. split_NoDup.
        rewrite !lookup_insert_ne; [done|set_solver..].
      * intros b Hb. rewrite !lookup_insert_ne; [done|set_solver..].
    + specialize (IHl (Some c) (InLeft C c v r) la fuel eq_refl Hl).
      destruct (locate x (InLeft C c v r) (Node ll la lv lr)) as [[??]|] eqn:EL.
      * apply IHl; [split_NoDup; nodup|done|lia].
      * destruct IHl as (t' & Hrun & Hroot & Hsz & Hrep & Hfr);
          [split_NoDup; nodup|done|lia|].
        exists t'. split_and!; try done.
        cbn [rep]. rewrite graft_ptr by done. split_and!; try done.
        -- rewrite Hfr; [done|]. split_NoDup. set_solver.
        -- eapply rep_agree; [|done]. intros b Hb. apply Hfr.
           split_NoDup. set_solver.
        -- intros b Hb. apply Hfr. set_solver.
  - (* to the right *)
    destruct r as [|rl ra rv rr]; tree_simpl.
    + rewrite (bind_Ok _ _ _ _ _ (attach_on_right_Some _ _ _ _ _ Ha Hk ltac:(done))).
      eexists. split; [done|]. tree_simpl. cbn [graft rep]. tree_simpl.
      split_and!; try done.
      * by rewrite lookup_insert_ne, lookup_insert_eq.
      * eapply rep_agree; [|done]. intros b Hb. split_NoDup.
        rewrite !lookup_insert_ne; [done|set_solver..].
      * by rewrite lookup_insert_eq.
      * intros b Hb. rewrite !lookup_insert_ne; [done|set_solver..].
    + specialize (IHr (Some c) (InRight C l c v) ra fuel eq_refl Hr).
      destruct (locate x (InRight C l c v) (Node rl ra rv rr)) as [[??]|] eqn:EL.
      * apply IHr; [split_NoDup; nodup|done|lia].
      * destruct IHr as (t' & Hrun & Hroot & Hsz & Hrep & Hfr);
          [split_NoDup; nodup|done|lia|].
        exists t'. split_and!; try done.
        cbn [rep]. rewrite graft_ptr by done. split_and!; try done.
        -- rewrite Hfr; [done|]. split_NoDup. set_solver.
        -- eapply rep_agree; [|done]. intros b Hb. apply Hfr.
           split_NoDup. set_solver.
        -- intros b Hb. apply Hfr. set_solver.
Qed.

Lemma empty_run t : empty t = Ok (bool_decide (tree_size t = 0), t).
Proof. reflexivity. Qed.

Lemma fresh_not_allocated t : store t !! fresh (dom (store t)) = None.
Proof. apply not_elem_of_dom, is_fresh. Qed.

Lemma fresh_not_in t par s :
  rep (store t) par s → fresh (dom (store t)) ∉ addrs s.
Proof.
  intros Hs Hin. destruct (rep_allocated _ _ _ _ Hs Hin) as [n Hn].
  by rewrite fresh_not_allocated in Hn.
Qed.

Lemma emplace_run t s x :
  tree_rep t s →
  let k := fresh (dom (store t)) in
  let h := <[k:=mk_tree_node x None None None]> (store t) in
  if decide (tree_size t = 0) then
    emplace less x t = Ok (true, mk_tree h (Some k) (size_t_wrap (tree_size t + 1)))
  else if s is Leaf then True
  else if locate x Top s is None then
    ∃ t', emplace less x t = Ok (true, t')
          ∧ tree_rep t' (graft less k x s)
          ∧ tree_size t' = size_t_wrap (tree_size t + 1)
          ∧ (∀ b, b ∉ k :: addrs s → store t' !! b = store t !! b)
  else emplace less x t = Ok (false, t).
Proof.
  intros Hrep k h. unfold emplace.
  erewrite bind_Ok; [|reflexivity]. fold k. fold h.
  rewrite (bind_Ok _ _ _ _ _ (empty_run _)). tree_simpl.
  destruct (decide (tree_size t = 0)) as [Hz|Hnz].
  { rewrite bool_decide_eq_true_2 by done. reflexivity. }
  rewrite bool_decide_eq_false_2 by done.
  destruct s as [|l a v r] eqn:Es; [done|]. rewrite <-Es in *.
  pose proof Hrep as (Hs & Hroot & Hnd).
  pose proof (fresh_not_in _ _ _ Hs) as Hk. fold k in Hk.
  pose proof (fresh_not_allocated t) as Hk'. fold k in Hk'.
  pose proof (tree_fuel _ _ Hrep) as Hfuel.
  set (t0 := with_store h t).
  assert (rep (store t0) None s) as Hs0.
  { eapply rep_agree; [|done]. intros b Hb. subst t0 h. tree_simpl.
    rewrite lookup_insert_ne; [done|]. by intros <-. }
  assert (ptr s = Some a) as Hptr by (by subst s).
  pose proof (try_insert_run t0 None Top s a k x (S (base.size (store t0)))
    Hptr Hs0) as Hrun.
  destruct (locate x Top s) as [[??]|] eqn:EL.
  - erewrite bind_Ok; cycle 1.
    { erewrite bind_Ok; [|reflexivity]. rewrite enough_fuel_run.
      subst t0. tree_simpl. rewrite Hroot, Hptr. apply Hrun.
      - nodup.
      - subst h. apply lookup_insert_eq.
      - subst h. rewrite map_size_insert_None by done. lia. }
    cbn [negb]. erewrite bind_Ok; cycle 1.
    { eapply delete_run. subst h. tree_simpl. apply lookup_insert_eq. }
    unfold ret. do 2 f_equal. tree_simpl. subst h.
    rewrite delete_insert_id by done. by destruct t.
  - destruct Hrun as (t' & Hrun & Hroot' & Hsz' & Hrep' & Hfr).
    { nodup. }
    { subst t0 h. apply lookup_insert_eq. }
    { subst t0 h. tree_simpl. rewrite map_size_insert_None by done. lia. }
    erewrite bind_Ok; cycle 1.
    { erewrite bind_Ok; [|reflexivity]. rewrite enough_fuel_run.
      subst t0. tree_simpl. rewrite Hroot, Hptr. apply Hrun. }
    cbn [negb]. erewrite bind_Ok; [|reflexivity].
    eexists. split; [reflexivity|]. tree_simpl. split_and!.
    + unfold tree_rep. tree_simpl. split_and!; try done.
      * rewrite graft_ptr by (by subst s). by rewrite Hroot'.
      * rewrite graft_addrs by done. nodup.
    + by rewrite Hsz'.
    + intros b Hb. rewrite Hfr by done. subst t0 h. tree_simpl.
      rewrite lookup_insert_ne; [done|set_solver].
Qed.

(** ** The ordering invariant

    From here on [less] is a strict total order. *)

Context (less_order : strict_total_order less).

Local Abbreviation precedes := (BinaryTree.precedes less).

Lemma less_irrefl x : less x x = false.
Proof. apply less_order. Qed.

Lemma less_trans x y z : less x y = true → less y z = true → less x z = true.
Proof. apply less_order. Qed.

Lemma less_total x y : less x y = false → less y x = false → x = y.
Proof. apply less_order. Qed.

Lemma bst_sorted s : bst less s ↔ StronglySorted precedes (values s).
Proof.
  induction s as [|l IHl a v r IHr]; cbn [bst values].
  - split; [constructor|done].
  - rewrite StronglySorted_app, StronglySorted_cons, IHl, IHr, !Forall_forall.
    split.
    + intros (Hl & Hr & ? & ?). split_and!; try done.
      intros x1 x2 H1 [->|H2]%elem_of_cons; [by apply Hl|].
      eapply less_trans; [by apply Hl|by apply Hr].
    + intros (Hlr & ? & Hr & ?). split_and!; try done.
      intros x Hx. apply Hlr; [done|left].
Qed.

Lemma sorted_NoDup (xs : list T) : StronglySorted precedes xs → NoDup xs.
Proof.
  induction 1 as [|x xs _ IH Hx]; constructor; [|done].
  intros Hin. rewrite Forall_forall in Hx. specialize (Hx x Hin).
  unfold precedes in Hx. by rewrite less_irrefl in Hx.
Qed.

Lemma sorted_without_middle (xs ys : list T) v :
  StronglySorted precedes (xs ++ v :: ys) →
  StronglySorted precedes (xs ++ ys) ∧ v ∉ xs ++ ys.
Proof.
  rewrite !StronglySorted_app, StronglySorted_cons, Forall_forall.
  intros (Hxy & Hxs & Hv & Hys). split_and!; try done.
  - intros x1 x2 H1 H2. apply Hxy; [done|by right].
  - intros [Hin|Hin]%elem_of_app.
    + specialize (Hxy v v Hin ltac:(left)). unfold precedes in Hxy.
      by rewrite less_irrefl in Hxy.
    + specialize (Hv v Hin). unfold precedes in Hv. by rewrite less_irrefl in Hv.
Qed.

Lemma erase_values C l a v r :
  values (plug C (Node l a v r))
  = (ctx_before C ++ values l) ++ v :: (values r ++ ctx_after C)
  ∧ values (plug C (remove_root (Node l a v r)))
  = (ctx_before C ++ values l) ++ (values r ++ ctx_after C).
Proof.
  rewrite !values_plug. destruct (remove_root_inorder l a v r) as [_ ->].
  cbn [values]. by rewrite <-!app_assoc.
Qed.

Lemma bst_remove_root C l a v r :
  bst less (plug C (Node l a v r)) →
  bst less (plug C (remove_root (Node l a v r)))
  ∧ v ∉ values (plug C (remove_root (Node l a v r))).
Proof.
  rewrite !bst_sorted. destruct (erase_values C l a v r) as [-> ->].
  apply sorted_without_middle.
Qed.

Lemma locate_Some_elem x C s C' s' :
  locate x C s = Some (C', s') → x ∈ values s.
Proof.
  revert C. induction s as [|l IHl a v r IHr]; intros C; cbn [locate values]; [done|].
  destruct (less x v) eqn:E1; [|destruct (less v x) eqn:E2].
  - intros ?%IHl. set_solver.
  - intros ?%IHr. set_solver.
  - intros _. rewrite (less_total x v) by done. set_solver.
Qed.

Lemma locate_None_elem x C s :
  bst less s → locate x C s = None → x ∉ values s.
Proof.
  revert C. induction s as [|l IHl a v r IHr]; intros C; cbn [locate values bst];
    [set_solver|].
  rewrite !Forall_forall. intros (Hl & Hr & Hbl & Hbr).
  destruct (less x v) eqn:E1; [|destruct (less v x) eqn:E2]; [| |done].
  - intros ?%IHl; [|done]. intros [?|[->|Hin]%elem_of_cons]%elem_of_app; [done|..].
    + by rewrite less_irrefl in E1.
    + specialize (Hr x Hin). simpl in Hr.
      pose proof (less_trans _ _ _ E1 Hr) as Hxx. by rewrite less_irrefl in Hxx.
  - intros ?%IHr; [|done]. intros [Hin|[->|?]%elem_of_cons]%elem_of_app; [| |done].
    + specialize (Hl x Hin). simpl in Hl.
      pose proof (less_trans _ _ _ Hl E2) as Hxx. by rewrite less_irrefl in Hxx.
    + by rewrite less_irrefl in E2.
Qed.

Lemma locate_None_iff x C s :
  bst less s → locate x C s = None ↔ x ∉ values s.
Proof.
  intros Hbst. split; [by apply locate_None_elem|].
  intros Hx. destruct (locate x C s) as [[C' s']|] eqn:E; [|done].
  by apply locate_Some_elem in E.
Qed.

Lemma graft_values_elem k x s y :
  y ∈ values (graft less k x s) → y = x ∨ y ∈ values s.
Proof.
  induction s as [|l IHl a v r IHr]; cbn [graft values]; [set_solver|].
  destruct (less x v); [|destruct (less v x)]; cbn [values]; set_solver.
Qed.

Lemma bst_graft k x s : bst less s → bst less (graft less k x s).
Proof.
  induction s as [|l IHl a v r IHr]; cbn [graft bst].
  - intros _. cbn. by repeat split.
  - intros (Hl & Hr & Hbl & Hbr).
    destruct (less x v) eqn:E1; [|destruct (less v x) eqn:E2]; cbn [bst];
      split_and!; auto.
    + rewrite Forall_forall in Hl |- *.
      intros y [->|?]%graft_values_elem; auto.
    + rewrite Forall_forall in Hr |- *.
      intros y [->|?]%graft_values_elem; auto.
Qed.

Lemma bst_plug_inv C s : bst less (plug C s) → bst less s.
Proof.
  rewrite !bst_sorted, values_plug.
  intros H%StronglySorted_app_1_r. by apply StronglySorted_app_1_l in H.
Qed.

Lemma comp_Top C : comp C Top = C.
Proof. induction C; simpl; by rewrite ?IHC. Qed.

Lemma locate_plug x C0 C s :
  bst less (plug C s) → x ∈ values s →
  locate x C0 (plug C s) = locate x (comp C C0) s.
Proof.
  revert s. induction C as [|C IH p pv pr|C IH pl p pv]; intros s Hbst Hx; [done|..];
    cbn [plug comp] in *.
  - rewrite IH by (done || cbn [values]; set_solver). cbn [locate].
    apply bst_plug_inv in Hbst as (Hl & _). rewrite Forall_forall in Hl.
    by rewrite (Hl x Hx).
  - rewrite IH by (done || cbn [values]; set_solver). cbn [locate].
    apply bst_plug_inv in Hbst as (_ & Hr & _). rewrite Forall_forall in Hr.
    specialize (Hr x Hx). simpl in Hr. rewrite Hr.
    destruct (less x pv) eqn:E; [|done].
    pose proof (less_trans _ _ _ E Hr) as Hxx. by rewrite less_irrefl in Hxx.
Qed.

Lemma locate_node C l a v r :
  bst less (plug C (Node l a v r)) →
  locate v Top (plug C (Node l a v r)) = Some (C, Node l a v r).
Proof.
  intros Hbst. rewrite locate_plug by (done || cbn [values]; set_solver).
  rewrite comp_Top. cbn [locate]. by rewrite less_irrefl.
Qed.

Lemma contains_spec t s v :
  tree_rep t s → bst less s →
  contains less v t = Ok (true, t) ∧ v ∈ values s
  ∨ contains less v t = Ok (false, t) ∧ v ∉ values s.
Proof.
  intros Hrep Hbst. rewrite (contains_run _ _ _ Hrep).
  destruct (locate v Top s) as [[C s']|] eqn:E.
  - left. split; [done|]. by eapply locate_Some_elem.
  - right. split; [done|]. by eapply locate_None_elem.
Qed.

Lemma size_t_wrap_small z : 0 ≤ z < size_t_modulus → size_t_wrap z = z.
Proof. intros. unfold size_t_wrap. by apply Z.mod_small. Qed.

Lemma erase_shape t s v :
  tree_rep t s → bst less s →
  match locate v Top s with
  | None => v ∉ values s ∧ erase less v t = Ok (tt, t)
  | Some (C, s') =>
      v ∈ values s ∧
      ∃ t' a, ptr s' = Some a
        ∧ erase less v t = Ok (tt, t')
        ∧ tree_rep t' (plug C (remove_root s'))
        ∧ bst less (plug C (remove_root s'))
        ∧ v ∉ values (plug C (remove_root s'))
        ∧ S (length (addrs (plug C (remove_root s')))) = length (addrs s)
        ∧ tree_size t' = size_t_wrap (tree_size t - 1)
        ∧ dom (store t') = dom (store t) ∖ {[a]}
  end.
Proof.
  intros Hrep Hbst. pose proof (erase_run t s v Hrep) as Hrun.
  destruct (locate v Top s) as [[C s']|] eqn:E.
  - split; [by eapply locate_Some_elem|].
    destruct Hrun as (t' & a & Hptr & Hrun & Hrep' & Hsz & Hdom).
    exists t', a. split_and!; try done.
    all: apply locate_Some in E as (Hplug & l & a' & v' & r & -> & E1 & E2).
    all: cbn [plug] in Hplug; subst s.
    all: assert (v = v') as <- by (by apply less_total).
    + by apply bst_remove_root.
    + by apply bst_remove_root.
    + rewrite !addrs_plug, !length_app.
      destruct (remove_root_inorder l a' v r) as [-> _].
      cbn [addrs]. rewrite !length_app. cbn [length]. lia.
  - split; [by eapply locate_None_elem|done].
Qed.

(** C1: after [erase(v)], [contains(v)] is false and [v] is not among the
    stored values.  If [v] was stored, [contains(v)] was true before the
    call and [size()] is less by exactly one afterwards; if [v] was not
    stored, the call changes nothing.  The invariants of the tree are
    kept. *)
Theorem erase_spec t s v :
  tree_rep t s → bst less s → size_ok t s →
  ∃ t' s',
    erase less v t = Ok (tt, t')
    ∧ tree_rep t' s' ∧ bst less s' ∧ size_ok t' s'
    ∧ v ∉ values s'
    ∧ contains less v t' = Ok (false, t')
    ∧ (v ∈ values s →
         contains less v t = Ok (true, t)
         ∧ size t = Ok (Z.of_nat (length (values s)), t)
         ∧ size t' = Ok (Z.of_nat (length (values s)) - 1, t')
         ∧ S (length (values s')) = length (values s))
    ∧ (v ∉ values s →
         contains less v t = Ok (false, t) ∧ t' = t).
Proof.
  intros Hrep Hbst [Hsz Hfit].
  pose proof (erase_shape t s v Hrep Hbst) as Hrun.
  assert (∀ s0 : shape (T:=T), length (addrs s0) = length (values s0)) as Hlenav.
  { intros s0. induction s0 as [|l IHl a x r IHr]; [done|].
    cbn [addrs values]. rewrite !length_app. cbn [length]. lia. }
  rewrite (contains_run _ _ _ Hrep).
  destruct (locate v Top s) as [[C s0]|] eqn:E.
  - destruct Hrun as (Hin & t' & a & Hptr & Hrun & Hrep' & Hbst' & Hnotin & Hlen & Hsz' & _).
    exists t', (plug C (remove_root s0)).
    assert (tree_size t' = tree_size t - 1) as Hdec.
    { rewrite Hsz'. apply size_t_wrap_small. lia. }
    split_and!; try done.
    + split; lia.
    + rewrite (contains_run _ _ _ Hrep').
      by rewrite (proj2 (locate_None_iff v Top _ Hbst') Hnotin).
    + intros _. split_and!.
      * done.
      * unfold size, gets. by rewrite Hsz, Hlenav.
      * unfold size, gets. by rewrite Hdec, Hsz, Hlenav.
      * by rewrite <-!Hlenav.
  - destruct Hrun as (Hnotin & Hrun). exists t, s.
    split_and!; try done. by rewrite (contains_run _ _ _ Hrep), E.
Qed.

(** C4: inserting a value that is already in the tree returns [false] and
    leaves the tree object and its nodes exactly as they were. *)
Theorem insert_duplicate t s v :
  tree_rep t s → bst less s → size_ok t s →
  v ∈ values s →
  contains less v t = Ok (true, t) ∧ insert less v t = Ok (false, t).
Proof.
  intros Hrep Hbst [Hsz Hfit] Hin.
  destruct (locate v Top s) as [[C s0]|] eqn:E; cycle 1.
  { by apply locate_None_elem in E. }
  split; [by rewrite (contains_run _ _ _ Hrep), E|].
  pose proof (emplace_run t s v Hrep) as Hrun. cbv zeta in Hrun.
  destruct s as [|l a x r]; [done|].
  rewrite decide_False in Hrun.
  - by rewrite E in Hrun.
  - rewrite Hsz. cbn [addrs]. rewrite length_app. cbn [length]. lia.
Qed.

(** ** Sequences of operations *)

Lemma size_ok_counted t s : size_ok t s → counted t s.
Proof.
  intros [Hsz Hfit]. unfold counted. rewrite size_t_wrap_small; [done|lia].
Qed.

Lemma insert_keeps_invariant t s v :
  tree_rep t s → bst less s → counted t s →
  ∃ (ok : bool) t' s', insert less v t = Ok (ok, t')
             ∧ tree_rep t' s' ∧ bst less s' ∧ counted t' s'.
Proof.
  intros Hrep Hbst Hcnt. pose proof (emplace_run t s v Hrep) as Hrun.
  cbv zeta in Hrun. unfold insert.
  destruct (decide (tree_size t = 0)) as [Hz|Hnz].
  - rewrite Hrun.
    eexists true, _, (Node Leaf (fresh (dom (store t))) v Leaf).
    split; [done|]. split_and!.
    + unfold tree_rep. cbn [rep addrs]. tree_simpl.
      split_and!; try done; [apply lookup_insert_eq|cbn; nodup].
    + cbn. by repeat split.
    + unfold counted. tree_simpl. by rewrite Hz.
  - destruct s as [|l a x r] eqn:Es; [done|]. rewrite <-Es in *.
    destruct (locate v Top s) as [[C s0]|] eqn:E.
    + exists false, t, s. done.
    + destruct Hrun as (t' & Hrun & Hrep' & Hsz & _).
      exists true, t', (graft less (fresh (dom (store t))) v s).
      split_and!; try done; [by apply bst_graft|].
      unfold counted in *. rewrite Hsz, Hcnt, (graft_addrs _ _ _ _ E).
      cbn [length]. unfold size_t_wrap. rewrite Z.add_mod_idemp_l by done.
      f_equal. lia.
Qed.

Lemma erase_keeps_invariant t s v :
  tree_rep t s → bst less s → counted t s →
  ∃ t' s', erase less v t = Ok (tt, t')
           ∧ tree_rep t' s' ∧ bst less s' ∧ counted t' s'.
Proof.
  intros Hrep Hbst Hcnt. pose proof (erase_shape t s v Hrep Hbst) as Hrun.
  destruct (locate v Top s) as [[C s0]|] eqn:E.
  - destruct Hrun as (_ & t' & a & _ & Hrun & Hrep' & Hbst' & _ & Hlen & Hsz & _).
    exists t', (plug C (remove_root s0)). split_and!; try done.
    unfold counted in *. rewrite Hsz, Hcnt, <-Hlen.
    unfold size_t_wrap. rewrite Zminus_mod_idemp_l. f_equal. lia.
  - destruct Hrun as [_ Hrun]. by exists t, s.
Qed.

Lemma apply_operations_invariant os t s :
  tree_rep t s → bst less s → counted t s →
  ∃ t' s', apply_operations less os t = Ok (tt, t')
           ∧ tree_rep t' s' ∧ bst less s' ∧ counted t' s'.
Proof.
  revert t s. induction os as [|o os IH]; intros t s Hrep Hbst Hcnt.
  - by exists t, s.
  - cbn [apply_operations]. destruct o as [v|v]; cbn [apply_operation].
    + destruct (insert_keeps_invariant t s v) as (ok & t1 & s1 & Hrun & ? & ? & ?);
        [done..|].
      destruct (IH t1 s1) as (t' & s' & Hrun' & ?); [done..|].
      exists t', s'. split; [|done].
      erewrite bind_Ok; [done|]. by erewrite bind_Ok.
    + destruct (erase_keeps_invariant t s v) as (t1 & s1 & Hrun & ? & ? & ?);
        [done..|].
      destruct (IH t1 s1) as (t' & s' & Hrun' & ?); [done..|].
      exists t', s'. split; [|done]. by erewrite bind_Ok.
Qed.

(** C2: whatever inserts and erases are applied to an empty tree, they all
    return, and the tree they leave satisfies the ordering invariant: at
    every node the left subtree holds smaller and the right subtree larger
    values; the in-order sequence of values is strictly ascending and has
    no duplicates. *)
Theorem operations_preserve_ordering os :
  ∃ t s, apply_operations less os empty_tree = Ok (tt, t)
         ∧ tree_rep t s
         ∧ bst less s
         ∧ StronglySorted precedes (values s)
         ∧ NoDup (values s).
Proof.
  destruct (apply_operations_invariant os empty_tree Leaf)
    as (t & s & Hrun & Hrep & Hbst & _).
  - split_and!; [done..|constructor].
  - done.
  - done.
  - exists t, s. split_and!; try done.
    + by apply bst_sorted.
    + by apply sorted_NoDup, bst_sorted.
Qed.

(** C3: erasing a value whose node [a] has two children.  The leftmost
    node [m] of the right subtree is taken out of the tree by
    [extract_leaf] or [extract_single_node]; then [m] itself stands where
    [a] stood, with the left subtree of [a] and the rest of its right
    subtree below it.  No node is allocated, [a] is freed, and the root
    reference is [m] when [a] was the root. *)
Theorem erase_two_children t C l a v r m mv :
  tree_rep t (plug C (Node l a v r)) →
  bst less (plug C (Node l a v r)) →
  l ≠ Leaf → min_node r = Some (m, mv) →
  ∃ t1 t' nm,
    store t !! m = Some nm ∧ value nm = mv
    ∧ extract_min_node (ptr r) t = Ok (Some m, t1)
    ∧ (extract_leaf (Some m) t = Ok (tt, t1)
       ∨ extract_single_node (Some m) t = Ok (tt, t1))
    ∧ tree_rep t1 (plug C (Node l a v (without_min r)))
    ∧ erase less v t = Ok (tt, t')
    ∧ tree_rep t' (plug C (Node l m mv (without_min r)))
    ∧ root t' = root_of C (Some m)
    ∧ dom (store t') = dom (store t) ∖ {[a]}.
Proof.
  intros Hrep Hbst Hl Hmin.
  destruct r as [|rl ra rv rr]; [done|].
  destruct l as [|ll la lv lr]; [done|].
  destruct (extract_min_node_spec t (InRight C _ a v) rl ra rv rr m mv Hrep Hmin)
    as (t1 & nm1 & Hrun1 & Hproc & Hrep1 & _ & _).
  pose proof (erase_run t _ v Hrep) as Hrun.
  rewrite (locate_node _ _ _ _ _ Hbst) in Hrun.
  destruct Hrun as (t' & a' & [= <-] & Hrun & Hrep' & _ & Hdom).
  unfold remove_root in Hrep'. rewrite Hmin in Hrep'.
  (* the successor was a node of the right subtree *)
  pose proof Hrep as (_ & (_ & _ & Hr) & _)%tree_rep_plug.
  assert (∃ nm, store t !! m = Some nm ∧ value nm = mv) as (nm & Hnm & Hval).
  { clear -Hr Hmin. revert Hr Hmin. generalize (Some a).
    revert ra rv rr. clear. induction rl as [|xl IH xa xv xr _];
      intros c cv cr par (Hc & Hxl & _) Hmin.
    - injection Hmin as -> ->. by eexists.
    - by eapply (IH xa xv xr (Some c)). }
  exists t1, t', nm. split_and!; try done.
  destruct Hrep' as (_ & -> & _). by rewrite ptr_plug.
Qed.

(** ** More about the public operations *)

Lemma length_addrs_values s : length (addrs s) = length (values s).
Proof.
  induction s as [|l IHl a v r IHr]; [done|].
  cbn [addrs values]. rewrite !length_app. cbn [length]. lia.
Qed.

Lemma rep_unique h h' par s a :
  rep h par s → rep h' par s → a ∈ addrs s → h' !! a = h !! a.
Proof.
  revert par. induction s as [|l IHl b v r IHr]; intros par H H' Ha.
  { by apply elem_of_nil in Ha. }
  cbn [rep addrs] in *. destruct H as (E & Hl & Hr), H' as (E' & Hl' & Hr').
  apply elem_of_app in Ha as [Ha|Ha]; [by eapply IHl|].
  apply elem_of_cons in Ha as [->|Ha]; [by rewrite E, E'|by eapply IHr].
Qed.

Lemma graft_values k x s C :
  locate x C s = None → values (graft less k x s) ≡ₚ x :: values s.
Proof.
  revert C. induction s as [|l IHl a v r IHr]; intros C E; [done|].
  cbn [BinaryTree.locate graft] in *.
  destruct (less x v); [|destruct (less v x); [|done]]; cbn [values].
  - rewrite (IHl _ E). done.
  - rewrite (IHr _ E). by rewrite <-!Permutation_middle, Permutation_swap.
Qed.

Lemma locate_graft k x s C :
  locate x C s = None →
  ∃ C', locate x C (graft less k x s) = Some (C', Node Leaf k x Leaf)
        ∧ plug C' Leaf = plug C s.
Proof.
  revert C. induction s as [|l IHl a v r IHr]; intros C E.
  - exists C. cbn [BinaryTree.locate graft]. by rewrite less_irrefl.
  - cbn [BinaryTree.locate graft] in *.
    destruct (less x v) eqn:E1; [|destruct (less v x) eqn:E2; [|done]].
    + cbn [BinaryTree.locate]. rewrite E1. by apply IHl.
    + cbn [BinaryTree.locate]. rewrite E1, E2. by apply IHr.
Qed.

(** [insert] in full, for a tree whose counter is right. *)
Lemma insert_run t s v :
  tree_rep t s → bst less s → size_ok t s →
  let k := fresh (dom (store t)) in
  if locate v Top s is None then
    ∃ t', insert less v t = Ok (true, t')
          ∧ tree_rep t' (graft less k v s)
          ∧ bst less (graft less k v s)
          ∧ tree_size t' = size_t_wrap (tree_size t + 1)
          ∧ (∀ b, b ∉ k :: addrs s → store t' !! b = store t !! b)
  else insert less v t = Ok (false, t).
Proof.
  intros Hrep Hbst [Hsz Hfit] k. pose proof (emplace_run t s v Hrep) as Hrun.
  cbv zeta in Hrun. fold k in Hrun. unfold insert.
  destruct (decide (tree_size t = 0)) as [Hz|Hnz].
  - destruct s as [|l a x r]; cycle 1.
    { exfalso. rewrite Hz in Hsz. cbn [addrs] in Hsz.
      rewrite length_app in Hsz. cbn [length] in Hsz. lia. }
    cbn [BinaryTree.locate graft]. eexists. split; [exact Hrun|].
    split_and!.
    + unfold tree_rep. cbn [rep addrs]. tree_simpl.
      split_and!; try done; [apply lookup_insert_eq|cbn; nodup].
    + cbn. by repeat split.
    + done.
    + intros b Hb. tree_simpl. rewrite lookup_insert_ne; [done|set_solver].
  - destruct s as [|l a x r] eqn:Es; [done|]. rewrite <-Es in *.
    destruct (locate v Top s) as [[C s0]|] eqn:E; [done|].
    destruct Hrun as (t' & Hrun & Hrep' & Hsz' & Hfr).
    exists t'. split_and!; try done. by apply bst_graft.
Qed.

(** [erase] leaves alone what is not part of the tree. *)
Lemma erase_frame t s x t' :
  tree_rep t s → erase less x t = Ok (tt, t') →
  ∀ b, b ∉ addrs s → store t' !! b = store t !! b.
Proof.
  intros Hrep. unfold erase. erewrite bind_Ok; [|done].
  rewrite enough_fuel_run. pose proof (tree_fuel _ _ Hrep).
  pose proof Hrep as (Hs & Hroot & Hnd). rewrite Hroot.
  erewrite bind_Ok; [|by eapply (find_at_run _ _ _ Top)].
  destruct (locate x Top s) as [[C s']|] eqn:E; cycle 1.
  { cbn [found]. unfold ret. by intros [= <-]. }
  apply locate_Some in E as (Hplug & l & a & v & r & -> & _).
  cbn [plug] in Hplug. subst s. cbn [found ptr].
  destruct (extract_node_spec t C l a v r Hrep)
    as (t1 & Hrun1 & Hrep1 & Hsz1 & [na Ha1] & Hfr1).
  rewrite (bind_Ok _ _ _ _ _ Hrun1).
  rewrite (bind_Ok _ _ _ _ _ (delete_run _ _ _ Ha1)).
  unfold modify. intros [= <-] b Hb. tree_simpl.
  rewrite lookup_delete_ne; [by apply Hfr1|].
  intros <-. apply Hb. rewrite addrs_plug. cbn [addrs]. set_solver.
Qed.

Lemma size_t_wrap_succ_pred z :
  0 ≤ z < size_t_modulus → size_t_wrap (size_t_wrap (z + 1) - 1) = z.
Proof.
  intros Hz. unfold size_t_wrap. rewrite Zminus_mod_idemp_l.
  replace (z + 1 - 1) with z by lia. by apply Z.mod_small.
Qed.

Lemma insert_dom t s v t' :
  let k := fresh (dom (store t)) in
  tree_rep t s → locate v Top s = None →
  tree_rep t' (graft less k v s) →
  (∀ b, b ∉ k :: addrs s → store t' !! b = store t !! b) →
  dom (store t') = {[k]} ∪ dom (store t).
Proof.
  intros k Hrep E Hrep' Hfr. apply set_eq. intros b.
  rewrite elem_of_union, elem_of_singleton, !elem_of_dom.
  destruct (decide (b ∈ k :: addrs s)) as [Hb|Hb].
  - split.
    + intros _. apply elem_of_cons in Hb as [->|Hb]; [by left|right].
      destruct Hrep as (Hs & _). by eapply rep_allocated.
    + intros _. destruct Hrep' as (Hs' & _). eapply rep_allocated; [done|].
      by rewrite (graft_addrs _ _ _ _ E).
  - rewrite Hfr by done. split; [by right|]. intros [->|?]; [|done].
    exfalso. apply Hb. by left.
Qed.

(** X1: [contains(v)] answers whether [v] is one of the stored values, and
    leaves the tree as it is. *)
Theorem contains_iff t s v :
  tree_rep t s → bst less s →
  ∃ present : bool,
    contains less v t = Ok (present, t) ∧ (present = true ↔ v ∈ values s).
Proof.
  intros Hrep Hbst.
  destruct (contains_spec t s v Hrep Hbst) as [[Hrun Hin]|[Hrun Hin]].
  - by exists true.
  - exists false. split; [done|]. split; [done|]. intros ?. by exfalso.
Qed.

(** X2: [insert(v)] of a value that is not in the tree returns true and
    allocates one node; the tree then holds [v] and the values it held
    before, in order, and [size()] is one more. *)
Theorem insert_new t s v :
  tree_rep t s → bst less s → size_ok t s →
  Z.of_nat (length (values s)) + 1 < size_t_modulus →
  v ∉ values s →
  ∃ t' s',
    insert less v t = Ok (true, t')
    ∧ tree_rep t' s' ∧ bst less s' ∧ size_ok t' s'
    ∧ values s' ≡ₚ v :: values s
    ∧ StronglySorted precedes (values s')
    ∧ size t' = Ok (tree_size t + 1, t')
    ∧ contains less v t' = Ok (true, t')
    ∧ dom (store t') = {[fresh (dom (store t))]} ∪ dom (store t).
Proof.
  intros Hrep Hbst Hsz Hfit Hv.
  pose proof (insert_run t s v Hrep Hbst Hsz) as Hrun. cbv zeta in Hrun.
  assert (locate v Top s = None) as E by (by apply locate_None_iff).
  rewrite E in Hrun. destruct Hrun as (t' & Hrun & Hrep' & Hbst' & Hsz' & Hfr).
  set (k := fresh (dom (store t))) in *.
  pose proof (graft_values k v s Top E) as Hperm.
  destruct Hsz as [Hsz _]. rewrite length_addrs_values in Hsz.
  assert (tree_size t' = tree_size t + 1) as Hsz''.
  { rewrite Hsz'. apply size_t_wrap_small. lia. }
  assert (size_ok t' (graft less k v s)) as Hok.
  { unfold size_ok. rewrite length_addrs_values, Hperm, Hsz''. cbn [length].
    split; lia. }
  exists t', (graft less k v s). split_and!; try done.
  - by apply bst_sorted.
  - unfold size, gets. by rewrite Hsz''.
  - destruct (contains_spec t' _ v Hrep' Hbst') as [[? _]|[_ Hn]]; [done|].
    exfalso. apply Hn. rewrite Hperm. by left.
  - by eapply insert_dom.
Qed.

(** X3: [erase(v)] of a stored value takes [v] out of the in-order
    sequence of the values and keeps all the others, in their order. *)
Theorem erase_keeps_others t s v :
  tree_rep t s → bst less s → v ∈ values s →
  ∃ t' s' before after,
    erase less v t = Ok (tt, t')
    ∧ tree_rep t' s' ∧ bst less s'
    ∧ values s = before ++ v :: after
    ∧ values s' = before ++ after.
Proof.
  intros Hrep Hbst Hv. pose proof (erase_shape t s v Hrep Hbst) as Hrun.
  destruct (locate v Top s) as [[C s0]|] eqn:E; [|by destruct Hrun].
  destruct Hrun as (_ & t' & a & _ & Hrun & Hrep' & Hbst' & _).
  apply locate_Some in E as (Hplug & l & a' & v' & r & -> & E1 & E2).
  cbn [plug] in Hplug. subst s.
  assert (v = v') as <- by (by apply less_total).
  destruct (erase_values C l a' v r) as [Hvals Hvals'].
  by exists t', (plug C (remove_root (Node l a' v r))),
    (ctx_before C ++ values l), (values r ++ ctx_after C).
Qed.

(** X4: [erase] of a leaf just unlinks it, and [erase] of a node with one
    child puts that child in its place; at the root, [root] becomes the
    child (or null).  The node of the erased value is the only one freed. *)
Theorem erase_few_children t C l a v r :
  tree_rep t (plug C (Node l a v r)) →
  bst less (plug C (Node l a v r)) →
  l = Leaf ∨ r = Leaf →
  let child := if l is Leaf then r else l in
  ∃ t',
    erase less v t = Ok (tt, t')
    ∧ tree_rep t' (plug C child)
    ∧ root t' = root_of C (ptr child)
    ∧ dom (store t') = dom (store t) ∖ {[a]}.
Proof.
  intros Hrep Hbst Hfew child.
  pose proof (erase_shape t _ v Hrep Hbst) as Hrun.
  rewrite (locate_node _ _ _ _ _ Hbst) in Hrun.
  destruct Hrun as (_ & t' & a' & [= <-] & Hrun & Hrep' & _ & _ & _ & _ & Hdom).
  assert (remove_root (Node l a v r) = child) as Hchild.
  { subst child. destruct Hfew as [->| ->]; [done|]. by destruct l. }
  rewrite Hchild in Hrep'. exists t'. split_and!; try done.
  destruct Hrep' as (_ & -> & _). by rewrite ptr_plug.
Qed.

(** X5: [insert(v)] of a new value followed by [erase(v)] gives back the
    very tree object: the same nodes at the same addresses, the same root,
    the same counter, and the node made for [v] freed again. *)
Theorem insert_erase_round_trip t s v :
  tree_rep t s → bst less s → size_ok t s → v ∉ values s →
  ∃ t1, insert less v t = Ok (true, t1) ∧ erase less v t1 = Ok (tt, t).
Proof.
  intros Hrep Hbst Hsz Hv.
  pose proof (insert_run t s v Hrep Hbst Hsz) as Hrun. cbv zeta in Hrun.
  assert (locate v Top s = None) as E by (by apply locate_None_iff).
  rewrite E in Hrun. destruct Hrun as (t1 & Hrun & Hrep1 & Hbst1 & Hsz1 & Hfr1).
  set (k := fresh (dom (store t))) in *.
  exists t1. split; [done|].
  pose proof (erase_shape t1 _ v Hrep1 Hbst1) as Hrun2.
  destruct (locate_graft k v s Top E) as (C' & E' & Hplug).
  rewrite E' in Hrun2. cbn [remove_root plug] in Hrun2, Hplug.
  rewrite Hplug in Hrun2.
  destruct Hrun2 as (_ & t2 & a & [= <-] & Hrun2 & Hrep2 & _ & _ & _ & Hsz2 & Hdom2).
  rewrite Hrun2. do 2 f_equal.
  pose proof (erase_frame _ _ _ _ Hrep1 Hrun2) as Hfr2.
  destruct Hrep as (Hs & Hroot & Hnd), Hrep2 as (Hs2 & Hroot2 & _).
  destruct Hsz as [Hsz Hfit].
  assert (store t2 = store t) as Hstore.
  { apply map_eq. intros b.
    destruct (decide (b ∈ addrs s)) as [Hb|Hb]; [by eapply rep_unique|].
    destruct (decide (b = k)) as [->|Hbk].
    - assert (store t !! k = None) as -> by apply fresh_not_allocated.
      apply not_elem_of_dom.
      rewrite Hdom2. set_solver.
    - rewrite Hfr2, Hfr1; [done|set_solver|].
      rewrite (graft_addrs _ _ _ _ E). set_solver. }
  assert (tree_size t2 = tree_size t) as Hsize.
  { rewrite Hsz2, Hsz1. apply size_t_wrap_succ_pred. lia. }
  destruct t, t2. tree_simpl. subst. by rewrite Hsize.
Qed.

Lemma apply_operations_size os t s :
  tree_rep t s → bst less s → size_ok t s →
  Z.of_nat (length (addrs s) + length os) < size_t_modulus →
  ∃ t' s', apply_operations less os t = Ok (tt, t')
           ∧ tree_rep t' s' ∧ bst less s' ∧ size_ok t' s'.
Proof.
  revert t s. induction os as [|o os IH]; intros t s Hrep Hbst Hsz Hfit.
  { by exists t, s. }
  cbn [apply_operations length] in *. destruct o as [v|v]; cbn [apply_operation].
  - pose proof (insert_run t s v Hrep Hbst Hsz) as Hrun. cbv zeta in Hrun.
    destruct (locate v Top s) as [[C s0]|] eqn:E.
    + destruct (IH t s) as (t' & s' & Hrun' & ?); [done..|lia|].
      exists t', s'. split; [|done].
      erewrite bind_Ok; [done|]. by erewrite bind_Ok.
    + destruct Hrun as (t1 & Hrun & Hrep1 & Hbst1 & Hsz1 & _).
      set (k := fresh (dom (store t))) in *.
      pose proof (graft_addrs k v s Top E) as Hperm.
      destruct Hsz as [Hsz _].
      assert (size_ok t1 (graft less k v s)) as Hok.
      { unfold size_ok. rewrite Hperm, Hsz1, Hsz. cbn [length].
        rewrite size_t_wrap_small by lia. split; lia. }
      destruct (IH t1 (graft less k v s)) as (t' & s' & Hrun' & ?); [done..| |].
      { rewrite Hperm. cbn [length]. lia. }
      exists t', s'. split; [|done].
      erewrite bind_Ok; [done|]. by erewrite bind_Ok.
  - pose proof (erase_shape t s v Hrep Hbst) as Hrun.
    destruct (locate v Top s) as [[C s0]|] eqn:E.
    + destruct Hrun as (_ & t1 & a & _ & Hrun & Hrep1 & Hbst1 & _ & Hlen & Hsz1 & _).
      destruct Hsz as [Hsz _].
      assert (size_ok t1 (plug C (remove_root s0))) as Hok.
      { unfold size_ok. rewrite Hsz1, Hsz, <-Hlen.
        rewrite size_t_wrap_small by lia. split; lia. }
      destruct (IH t1 (plug C (remove_root s0))) as (t' & s' & Hrun' & ?);
        [done..|lia|].
      exists t', s'. split; [|done]. by erewrite bind_Ok.
    + destruct Hrun as [_ Hrun].
      destruct (IH t s) as (t' & s' & Hrun' & ?); [done..|lia|].
      exists t', s'. split; [|done]. by erewrite bind_Ok.
Qed.

(** X6: after any sequence of [insert] and [erase] calls on a new tree
    (fewer than 2^64 calls), [size()] is the number of stored values and
    [empty()] tells whether there is none. *)
Theorem size_counts_values os :
  Z.of_nat (length os) < size_t_modulus →
  ∃ t s,
    apply_operations less os empty_tree = Ok (tt, t)
    ∧ tree_rep t s
    ∧ size t = Ok (Z.of_nat (length (values s)), t)
    ∧ empty t = Ok (if values s is [] then true else false, t).
Proof.
  intros Hfit.
  destruct (apply_operations_size os empty_tree Leaf)
    as (t & s & Hrun & Hrep & _ & [Hsz Hfit']).
  { unfold tree_rep. cbn. split_and!; try done. apply NoDup_nil_2. }
  { done. }
  { unfold size_ok. cbn. split; [done|]. by compute. }
  { done. }
  rewrite length_addrs_values in Hsz. exists t, s. split_and!; try done.
  - unfold size, gets. by rewrite Hsz.
  - rewrite empty_run, Hsz. do 2 f_equal.
    destruct (values s); [done|]. apply bool_decide_eq_false_2.
    cbn [length]. lia.
Qed.

(** ** The destructor *)

Lemma remove_subtree_run fuel t par s a :
  rep (store t) par s → ptr s = Some a → NoDup (addrs s) →
  (height s ≤ fuel)%nat →
  ∃ t', remove_subtree fuel (Some a) t = Ok (tt, t')
        ∧ root t' = root t ∧ tree_size t' = tree_size t
        ∧ ∀ b, store t' !! b = if decide (b ∈ addrs s) then None else store t !! b.
Proof.
  clear less_order. revert t par s a.
  induction fuel as [|fuel IH]; intros t par s a Hs Hptr Hnd Hfuel;
    destruct s as [|l a' v r]; try done.
  { cbn [height] in Hfuel. lia. }
  cbn [ptr] in Hptr. injection Hptr as ->.
  cbn [rep addrs height] in *. destruct Hs as (Ha & Hl & Hr).
  apply NoDup_app in Hnd as (Hndl & Hal & Hnd).
  apply NoDup_cons in Hnd as (Har & Hndr).
  assert (∀ t0 s0, rep (store t0) (Some a) s0 → NoDup (addrs s0) →
    (height s0 ≤ fuel)%nat →
    ∃ t1, (if ptr s0 is Some _ then remove_subtree fuel (ptr s0) else ret tt) t0
          = Ok (tt, t1)
          ∧ root t1 = root t0 ∧ tree_size t1 = tree_size t0
          ∧ ∀ b, store t1 !! b
                 = if decide (b ∈ addrs s0) then None else store t0 !! b)
    as Hchild.
  { intros t0 s0 Hs0 Hnd0 Hh. destruct s0 as [|l0 a0 v0 r0] eqn:Es.
    - by exists t0.
    - rewrite <-Es in *. assert (ptr s0 = Some a0) as Hp0 by (by subst s0).
      rewrite Hp0. by eapply IH. }
  cbn [remove_subtree].
  rewrite (bind_Ok _ _ _ _ _ (deref_run _ _ _ Ha)). tree_simpl.
  destruct (Hchild t l Hl Hndl) as (t1 & Hrun1 & Hroot1 & Hsz1 & Hst1); [lia|].
  rewrite (bind_Ok _ _ _ _ _ Hrun1).
  assert (store t1 !! a = Some (mk_tree_node v par (ptr l) (ptr r))) as Ha1.
  { rewrite Hst1, decide_False; [done|]. intros ?. by eapply Hal; [|left]. }
  rewrite (bind_Ok _ _ _ _ _ (deref_run _ _ _ Ha1)). tree_simpl.
  assert (rep (store t1) (Some a) r) as Hr1.
  { eapply rep_agree; [|done]. intros b Hb. rewrite Hst1, decide_False; [done|].
    intros ?. by eapply Hal; [|right]. }
  destruct (Hchild t1 r Hr1 Hndr) as (t2 & Hrun2 & Hroot2 & Hsz2 & Hst2); [lia|].
  rewrite (bind_Ok _ _ _ _ _ Hrun2).
  assert (store t2 !! a = Some (mk_tree_node v par (ptr l) (ptr r))) as Ha2.
  { by rewrite Hst2, decide_False. }
  rewrite (delete_run _ _ _ Ha2). eexists. split; [done|]. tree_simpl.
  split_and!; [congruence..|]. intros b.
  destruct (decide (b = a)) as [->|Hba].
  - rewrite lookup_delete_eq, decide_True; [done|set_solver].
  - rewrite lookup_delete_ne, Hst2, Hst1 by done.
    repeat case_decide; try done; set_solver.
Qed.

(** X7: the destructor frees every node of the tree, each one once, and
    nothing else. *)
Theorem destroy_frees_all t s :
  tree_rep t s → size_ok t s →
  ∃ t',
    destroy t = Ok (tt, t')
    ∧ ∀ b, store t' !! b = if decide (b ∈ addrs s) then None else store t !! b.
Proof.
  clear less_order.
  intros Hrep [Hsz Hfit]. unfold destroy. rewrite (bind_Ok _ _ _ _ _ (empty_run _)).
  destruct s as [|l a v r] eqn:Es.
  - rewrite bool_decide_eq_true_2 by done. exists t. split; [done|].
    intros b. by rewrite decide_False by apply not_elem_of_nil.
  - rewrite <-Es in *. rewrite bool_decide_eq_false_2; cycle 1.
    { rewrite Hsz, Es. cbn [addrs]. rewrite length_app. cbn [length]. lia. }
    cbn [negb]. erewrite bind_Ok; [|done]. rewrite enough_fuel_run.
    pose proof (tree_fuel _ _ Hrep) as Hfuel.
    destruct Hrep as (Hs & Hroot & Hnd). rewrite Hroot.
    assert (ptr s = Some a) as Hptr by (by subst s). rewrite Hptr.
    destruct (remove_subtree_run (S (base.size (store t))) t None s a)
      as (t' & Hrun & _ & _ & Hst); [done..|lia|].
    by exists t'.
Qed.

(** ** The loops of [main] *)

Lemma insert_each_run vs t s :
  tree_rep t s → bst less s → size_ok t s →
  dom (store t) = list_to_set (addrs s) →
  NoDup vs → (∀ v, v ∈ vs → v ∉ values s) →
  Z.of_nat (length (addrs s) + length vs) < size_t_modulus →
  ∃ t' s', insert_each less vs t = Ok (tt, t')
    ∧ tree_rep t' s' ∧ bst less s' ∧ size_ok t' s'
    ∧ dom (store t') = list_to_set (addrs s')
    ∧ values s' ≡ₚ vs ++ values s.
Proof.
  revert t s. induction vs as [|v vs IH]; intros t s Hrep Hbst Hsz Hdom Hnd Hnew Hfit.
  { by exists t, s. }
  apply NoDup_cons in Hnd as [Hv Hnd]. cbn [insert_each length] in *.
  pose proof (insert_run t s v Hrep Hbst Hsz) as Hrun. cbv zeta in Hrun.
  assert (locate v Top s = None) as E.
  { apply locate_None_iff; [done|]. apply Hnew. by left. }
  rewrite E in Hrun. destruct Hrun as (t1 & Hrun & Hrep1 & Hbst1 & Hsz1 & Hfr1).
  set (k := fresh (dom (store t))) in *.
  pose proof (graft_addrs k v s Top E) as Hperm.
  pose proof (graft_values k v s Top E) as Hvals.
  assert (size_ok t1 (graft less k v s)) as Hok.
  { destruct Hsz as [Hsz _]. unfold size_ok. rewrite Hperm, Hsz1, Hsz.
    cbn [length]. rewrite size_t_wrap_small by lia. split; lia. }
  destruct (IH t1 (graft less k v s))
    as (t' & s' & Hrun' & Hrep' & Hbst' & Hsz' & Hdom' & Hvals'); try done.
  - rewrite (insert_dom t s v t1) by done. fold k. rewrite Hdom.
    apply set_eq. intros b. rewrite elem_of_list_to_set, Hperm. set_solver.
  - intros x Hx. rewrite Hvals. intros [->|Hin]%elem_of_cons; [done|].
    eapply Hnew; [|done]. by right.
  - rewrite Hperm. cbn [length]. lia.
  - exists t', s'. split_and!; try done.
    + by rewrite (bind_Ok _ _ _ _ _ Hrun).
    + rewrite Hvals', Hvals. by rewrite <-Permutation_middle.
Qed.

Lemma erase_each_run vs t s rest :
  tree_rep t s → bst less s → size_ok t s →
  dom (store t) = list_to_set (addrs s) →
  values s ≡ₚ vs ++ rest →
  ∃ t' s', erase_each less vs t = Ok (tt, t')
    ∧ tree_rep t' s' ∧ bst less s' ∧ size_ok t' s'
    ∧ dom (store t') = list_to_set (addrs s')
    ∧ values s' ≡ₚ rest.
Proof.
  revert t s. induction vs as [|v vs IH]; intros t s Hrep Hbst Hsz Hdom Hvals.
  { by exists t, s. }
  cbn [erase_each]. pose proof (erase_shape t s v Hrep Hbst) as Hrun.
  destruct (locate v Top s) as [[C s0]|] eqn:E; cycle 1.
  { destruct Hrun as [Hv _]. exfalso. apply Hv. rewrite Hvals. by left. }
  destruct Hrun as (_ & t1 & a & Hptr & Hrun & Hrep1 & Hbst1 & _ & Hlen & Hsz1 & Hdom1).
  apply locate_Some in E as (Hplug & l & a' & v' & r & -> & E1 & E2).
  cbn [plug ptr] in Hplug, Hptr. injection Hptr as ->. subst s.
  assert (v = v') as <- by (by apply less_total).
  destruct (erase_values C l a v r) as [Hv1 Hv2].
  assert (size_ok t1 (plug C (remove_root (Node l a v r)))) as Hok.
  { destruct Hsz as [Hsz ?]. unfold size_ok. rewrite Hsz1, Hsz, <-Hlen.
    rewrite size_t_wrap_small by lia. split; lia. }
  destruct (IH t1 (plug C (remove_root (Node l a v r))))
    as (t' & s' & Hrun' & ?); try done.
  - rewrite Hdom1, Hdom. destruct Hrep as (_ & _ & Hnd).
    rewrite addrs_plug in Hnd. cbn [addrs] in Hnd.
    apply set_eq. intros b.
    rewrite elem_of_difference, !elem_of_list_to_set, !addrs_plug.
    destruct (remove_root_inorder l a v r) as [-> _]. cbn [addrs].
    split_NoDup. set_solver.
  - rewrite Hv2. rewrite Hv1 in Hvals.
    rewrite <-Permutation_middle in Hvals. cbn [app] in Hvals.
    by apply Permutation_cons_inv in Hvals.
  - exists t', s'. split; [|done]. by rewrite (bind_Ok _ _ _ _ _ Hrun).
Qed.

Lemma empty_tree_rep : tree_rep (empty_tree (T:=T)) Leaf.
Proof. unfold tree_rep. cbn. split_and!; try done. apply NoDup_nil_2. Qed.

(** Filling a new tree with distinct values and erasing them all, in any
    order, gives back the empty tree: no node is left allocated. *)
Lemma fill_and_drain vs vs' :
  NoDup vs → vs' ≡ₚ vs → Z.of_nat (length vs) < size_t_modulus →
  ∃ t1, insert_each less vs empty_tree = Ok (tt, t1)
        ∧ tree_size t1 = Z.of_nat (length vs)
        ∧ erase_each less vs' t1 = Ok (tt, empty_tree).
Proof.
  intros Hnd Hperm Hfit.
  destruct (insert_each_run vs empty_tree Leaf)
    as (t1 & s1 & Hrun1 & Hrep1 & Hbst1 & Hsz1 & Hdom1 & Hvals1);
    [apply empty_tree_rep | done | by split | by cbn; set_solver | done
    | by intros v _; apply not_elem_of_nil | by cbn [addrs length] |].
  cbn [values] in Hvals1. rewrite app_nil_r in Hvals1.
  destruct (erase_each_run vs' t1 s1 [])
    as (t2 & s2 & Hrun2 & Hrep2 & _ & Hsz2 & Hdom2 & Hvals2);
    [done.. | by rewrite app_nil_r, Hvals1 |].
  exists t1. split; [done|]. split.
  { destruct Hsz1 as [-> _]. by rewrite length_addrs_values, Hvals1. }
  rewrite Hrun2. do 2 f_equal.
  apply Permutation_nil_r in Hvals2.
  destruct s2 as [|l a v r]; [|cbn [values] in Hvals2; by destruct (values l)].
  destruct Hrep2 as (_ & Hroot & _), Hsz2 as [Hsz2 _]. cbn in *.
  apply dom_empty_inv_L in Hdom2. destruct t2. cbn in *. by subst.
Qed.

End Correctness.

(** ** The theorems at the tree of integers *)

Lemma Z_ltb_order : strict_total_order Z.ltb.
Proof.
  split.
  - intros x. apply Z.ltb_irrefl.
  - intros x y z. rewrite !Z.ltb_lt. lia.
  - intros x y. rewrite !Z.ltb_ge. lia.
Qed.

Lemma example_tree_rep : tree_rep example_tree example_shape.
Proof. evaluate. Qed.

Lemma example_tree_bst : bst Z.ltb example_shape.
Proof. evaluate. Qed.

Lemma example_tree_size_ok : size_ok example_tree example_shape.
Proof. evaluate. Qed.

Lemma erase_spec_witness :
  tree_rep example_tree example_shape
  ∧ bst Z.ltb example_shape
  ∧ size_ok example_tree example_shape
  ∧ ∃ t' s',
      erase Z.ltb 8 example_tree = Ok (tt, t')
      ∧ tree_rep t' s' ∧ bst Z.ltb s' ∧ size_ok t' s'
      ∧ 8 ∉ values s'
      ∧ contains Z.ltb 8 t' = Ok (false, t')
      ∧ (8 ∈ values example_shape →
           contains Z.ltb 8 example_tree = Ok (true, example_tree)
           ∧ size example_tree
             = Ok (Z.of_nat (length (values example_shape)), example_tree)
           ∧ size t' = Ok (Z.of_nat (length (values example_shape)) - 1, t')
           ∧ S (length (values s')) = length (values example_shape))
      ∧ (8 ∉ values example_shape →
           contains Z.ltb 8 example_tree = Ok (false, example_tree)
           ∧ t' = example_tree).
Proof.
  split_and!; [evaluate | evaluate | evaluate |].
  apply (erase_spec Z.ltb Z_ltb_order example_tree example_shape 8); evaluate.
Defined.

Lemma insert_duplicate_witness :
  tree_rep example_tree example_shape
  ∧ bst Z.ltb example_shape
  ∧ size_ok example_tree example_shape
  ∧ 4 ∈ values example_shape
  ∧ contains Z.ltb 4 example_tree = Ok (true, example_tree)
  ∧ insert Z.ltb 4 example_tree = Ok (false, example_tree).
Proof.
  split_and!; [evaluate | evaluate | evaluate | compute_done | |];
    apply (insert_duplicate Z.ltb Z_ltb_order example_tree example_shape 4);
    first [compute_done | evaluate].
Defined.

Lemma operations_preserve_ordering_witness :
  strict_total_order Z.ltb
  ∧ ∃ t s,
      apply_operations Z.ltb
        [Insert 5; Insert 3; Insert 8; Erase 5; Insert 3; Erase 7; Insert 4]
        empty_tree = Ok (tt, t)
      ∧ tree_rep t s
      ∧ bst Z.ltb s
      ∧ StronglySorted (precedes Z.ltb) (values s)
      ∧ NoDup (values s).
Proof.
  split; [exact Z_ltb_order |].
  apply (operations_preserve_ordering Z.ltb Z_ltb_order).
Defined.

Lemma erase_two_children_witness :
  tree_rep example_tree (plug Top (Node example_left 1%positive 5 example_right))
  ∧ bst Z.ltb (plug Top (Node example_left 1%positive 5 example_right))
  ∧ example_left ≠ Leaf
  ∧ min_node example_right = Some (6%positive, 6)
  ∧ ∃ t1 t' nm,
      store example_tree !! 6%positive = Some nm ∧ value nm = 6
      ∧ extract_min_node (ptr example_right) example_tree = Ok (Some 6%positive, t1)
      ∧ (extract_leaf (Some 6%positive) example_tree = Ok (tt, t1)
         ∨ extract_single_node (Some 6%positive) example_tree = Ok (tt, t1))
      ∧ tree_rep t1 (plug Top (Node example_left 1%positive 5 (without_min example_right)))
      ∧ erase Z.ltb 5 example_tree = Ok (tt, t')
      ∧ tree_rep t' (plug Top (Node example_left 6%positive 6 (without_min example_right)))
      ∧ root t' = root_of (@Top Z) (Some 6%positive)
      ∧ dom (store t') = dom (store example_tree) ∖ {[1%positive]}.
Proof.
  split_and!; [evaluate | evaluate | discriminate | reflexivity |].
  apply (erase_two_children Z.ltb Z_ltb_order example_tree Top example_left
           1%positive 5 example_right 6%positive 6);
    first [discriminate | reflexivity | evaluate].
Defined.


(** ** The test program *)

(** X8: both assertions of [main] hold.  When [test_vector] is a
    rearrangement of 0, ..., n - 1 and [reshuffled] a rearrangement of
    [test_vector], the tree holds n values after the first loop and is
    empty after the second, with every node freed. *)
Theorem main_assertions_hold (n : nat) test_vector reshuffled :
  Z.of_nat n ≤ 2 ^ 31 →
  test_vector ≡ₚ Z.of_nat <$> seq 0 n →
  reshuffled ≡ₚ test_vector →
  main test_vector reshuffled = Ok (tt, empty_tree).
Proof.
  intros Hn Hperm Hperm'.
  assert (NoDup test_vector) as Hnd.
  { rewrite Hperm. apply NoDup_fmap; [apply _|apply NoDup_seq]. }
  assert (length test_vector = n) as Hlen.
  { by rewrite Hperm, length_fmap, length_seq. }
  destruct (fill_and_drain Z.ltb Z_ltb_order test_vector reshuffled)
    as (t1 & Hrun1 & Hsz1 & Hrun2); [done..| |].
  { rewrite Hlen. unfold size_t_modulus. lia. }
  unfold main. rewrite (bind_Ok _ _ _ _ _ Hrun1).
  unfold size. erewrite bind_Ok; [|reflexivity]. cbn beta.
  rewrite bool_decide_eq_true_2 by done.
  erewrite bind_Ok; [|reflexivity].
  rewrite (bind_Ok _ _ _ _ _ Hrun2). reflexivity.
Qed.

(** ** More theorems at the tree of integers *)

Lemma contains_iff_witness :
  tree_rep example_tree example_shape
  ∧ bst Z.ltb example_shape
  ∧ ∃ present : bool,
      contains Z.ltb 7 example_tree = Ok (present, example_tree)
      ∧ (present = true ↔ 7 ∈ values example_shape).
Proof.
  split_and!; [evaluate | evaluate |].
  apply (contains_iff Z.ltb Z_ltb_order example_tree example_shape 7); evaluate.
Defined.

Lemma insert_new_witness :
  tree_rep example_tree example_shape
  ∧ bst Z.ltb example_shape
  ∧ size_ok example_tree example_shape
  ∧ Z.of_nat (length (values example_shape)) + 1 < size_t_modulus
  ∧ 2 ∉ values example_shape
  ∧ ∃ t' s',
      insert Z.ltb 2 example_tree = Ok (true, t')
      ∧ tree_rep t' s' ∧ bst Z.ltb s' ∧ size_ok t' s'
      ∧ values s' ≡ₚ 2 :: values example_shape
      ∧ StronglySorted (precedes Z.ltb) (values s')
      ∧ size t' = Ok (tree_size example_tree + 1, t')
      ∧ contains Z.ltb 2 t' = Ok (true, t')
      ∧ dom (store t') = {[fresh (dom (store example_tree))]} ∪ dom (store example_tree).
Proof.
  split_and!; [evaluate | evaluate | evaluate | evaluate | compute_done |].
  apply (insert_new Z.ltb Z_ltb_order example_tree example_shape 2);
    first [compute_done | evaluate].
Defined.

Lemma erase_keeps_others_witness :
  tree_rep example_tree example_shape
  ∧ bst Z.ltb example_shape
  ∧ 8 ∈ values example_shape
  ∧ ∃ t' s' before after,
      erase Z.ltb 8 example_tree = Ok (tt, t')
      ∧ tree_rep t' s' ∧ bst Z.ltb s'
      ∧ values example_shape = before ++ 8 :: after
      ∧ values s' = before ++ after.
Proof.
  split_and!; [evaluate | evaluate | compute_done |].
  apply (erase_keeps_others Z.ltb Z_ltb_order example_tree example_shape 8);
    first [compute_done | evaluate].
Defined.

Lemma erase_few_children_witness :
  tree_rep example_tree (plug example_position (Node Leaf 6%positive 6 example_child))
  ∧ bst Z.ltb (plug example_position (Node Leaf 6%positive 6 example_child))
  ∧ (@Leaf Z = Leaf ∨ example_child = Leaf)
  ∧ ∃ t',
      erase Z.ltb 6 example_tree = Ok (tt, t')
      ∧ tree_rep t' (plug example_position example_child)
      ∧ root t' = root_of example_position (ptr example_child)
      ∧ dom (store t') = dom (store example_tree) ∖ {[6%positive]}.
Proof.
  split_and!; [evaluate | evaluate | by left |].
  apply (erase_few_children Z.ltb Z_ltb_order example_tree example_position
           Leaf 6%positive 6 example_child);
    first [by left | evaluate].
Defined.

Lemma insert_erase_round_trip_witness :
  tree_rep example_tree example_shape
  ∧ bst Z.ltb example_shape
  ∧ size_ok example_tree example_shape
  ∧ 2 ∉ values example_shape
  ∧ ∃ t1, insert Z.ltb 2 example_tree = Ok (true, t1)
          ∧ erase Z.ltb 2 t1 = Ok (tt, example_tree).
Proof.
  split_and!; [evaluate | evaluate | evaluate | compute_done |].
  apply (insert_erase_round_trip Z.ltb Z_ltb_order example_tree example_shape 2);
    first [compute_done | evaluate].
Defined.

Lemma size_counts_values_witness :
  strict_total_order Z.ltb
  ∧ Z.of_nat (length example_operations) < size_t_modulus
  ∧ ∃ t s,
      apply_operations Z.ltb example_operations empty_tree = Ok (tt, t)
      ∧ tree_rep t s
      ∧ size t = Ok (Z.of_nat (length (values s)), t)
      ∧ empty t = Ok (if values s is [] then true else false, t).
Proof.
  split_and!; [exact Z_ltb_order | evaluate |].
  apply (size_counts_values Z.ltb Z_ltb_order example_operations); evaluate.
Defined.

Lemma destroy_frees_all_witness :
  tree_rep example_tree example_shape
  ∧ size_ok example_tree example_shape
  ∧ ∃ t',
      destroy example_tree = Ok (tt, t')
      ∧ ∀ b, store t' !! b
             = if decide (b ∈ addrs example_shape) then None
               else store example_tree !! b.
Proof.
  split_and!; [evaluate | evaluate |].
  apply (destroy_frees_all Z.ltb example_tree example_shape); evaluate.
Defined.

Lemma main_assertions_hold_witness :
  Z.of_nat 6 ≤ 2 ^ 31
  ∧ example_test_vector ≡ₚ Z.of_nat <$> seq 0 6
  ∧ example_reshuffled ≡ₚ example_test_vector
  ∧ main example_test_vector example_reshuffled = Ok (tt, empty_tree).
Proof.
  split_and!; [evaluate | compute_done | compute_done |].
  apply (main_assertions_hold 6 example_test_vector example_reshuffled);
    first [compute_done | evaluate].
Defined.

End BinaryTreeCorrect.

(** * Correctness of the card deck *)

Module StableSelectionSortCorrect.
Import StableSelectionSort.

(** ** Exchanging positions of a list *)

Section Shuffle.

Local Open Scope nat_scope.

Context {A : Type}.
Implicit Types (l σ : list A) (i j k c n : nat) (cs : list nat).

Lemma swap_length i j l : length (swap i j l) = length l.
Proof.
  unfold swap. destruct (l !! i), (l !! j); try done. by rewrite !length_insert.
Qed.


Lemma insert_exchange l j (y z : A) :
  l !! j = Some y → y :: <[j:=z]> l ≡ₚ z :: l.
Proof.
  revert j. induction l as [|w l IH]; intros [|j] Hy; simplify_eq/=.
  - apply Permutation_swap.
  - rewrite (Permutation_swap w y), (IH _ Hy). apply Permutation_swap.
Qed.

Lemma swap_Permutation i j l : swap i j l ≡ₚ l.
Proof.
  unfold swap. destruct (l !! i) as [x|] eqn:Hx, (l !! j) as [y|] eqn:Hy; try done.
  destruct (decide (i = j)) as [->|Hij].
  - rewrite list_insert_insert_eq. rewrite list_insert_id; [done|congruence].
  - revert i j Hx Hy Hij. induction l as [|z l IH]; intros [|i] [|j] Hx Hy Hij;
      simplify_eq/=; try done.
    + by apply insert_exchange.
    + by apply insert_exchange.
    + f_equiv. apply IH; congruence.
Qed.

Lemma fisher_yates_length i cs l : length (fisher_yates i cs l) = length l.
Proof.
  revert i l. induction cs as [|c cs IH]; intros i l; simpl; [done|].
  by rewrite IH, swap_length.
Qed.

Lemma fisher_yates_Permutation i cs l : fisher_yates i cs l ≡ₚ l.
Proof.
  revert i l. induction cs as [|c cs IH]; intros i l; simpl; [done|].
  by rewrite IH, swap_Permutation.
Qed.






End Shuffle.

Implicit Types (d : Deck) (p q a b e : node_ptr) (n : Node) (c : Card).
Implicit Types (ns xs ys : list (node_ptr * Card)).

(** ** Memory *)

Lemma load_store_eq p n d : p ≠ nullptr → load p (store_node p n d) = Some n.
Proof. destruct p; simpl; [done|done|]. intros _. apply lookup_insert_eq. Qed.

Lemma load_store_ne p q n d : p ≠ q → load q (store_node p n d) = load q d.
Proof.
  destruct p, q; simpl; try done. intros Hne.
  apply lookup_insert_ne. congruence.
Qed.

Lemma load_not_null p d n : load p d = Some n → p ≠ nullptr.
Proof. by destruct p. Qed.

Lemma node_deref_run p d n : load p d = Some n → deref p d = Ok (n, d).
Proof. unfold deref. intros H. rewrite H. by destruct p. Qed.

Lemma node_update_run p d n f :
  load p d = Some n → update p f d = Ok (tt, store_node p (f n) d).
Proof. intros H. unfold update. by rewrite (bind_Ok _ _ _ _ _ (node_deref_run _ _ _ H)). Qed.

Lemma iter_next_run p d n : load p d = Some n → iter_next p d = Ok (next n, d).
Proof. intros H. unfold iter_next. by rewrite (bind_Ok _ _ _ _ _ (node_deref_run _ _ _ H)). Qed.

Lemma iter_get_run p d n : load p d = Some n → iter_get p d = Ok (card n, d).
Proof. intros H. unfold iter_get. by rewrite (bind_Ok _ _ _ _ _ (node_deref_run _ _ _ H)). Qed.

Lemma deckSize_store p n d : deckSize (store_node p n d) = deckSize d.
Proof. by destruct p. Qed.

Lemma heap_size_store p n d :
  is_Some (load p d) → base.size (heap (store_node p n d)) = base.size (heap d).
Proof.
  destruct p; simpl; [done..|]. intros [n' Hn']. by eapply map_size_insert_Some.
Qed.

(** ** Chains *)

Lemma chain_head d p ns q : chain d p ns q → p = head_ptr ns q.
Proof. destruct ns as [|[a c] ns]; simpl; [done|]. by intros (-> & _). Qed.

Lemma chain_app d p xs ys q :
  chain d p (xs ++ ys) q ↔ chain d p xs (head_ptr ys q) ∧ chain d (head_ptr ys q) ys q.
Proof.
  revert p. induction xs as [|[a c] xs IH]; intros p; simpl.
  - split.
    + intros H. by rewrite <-(chain_head _ _ _ _ H).
    + by intros [-> H].
  - split.
    + intros (-> & Hn & nx & Hl & Hc). apply IH in Hc as [H1 H2].
      split_and!; try done. by exists nx.
    + intros ((-> & Hn & nx & Hl & Hc) & H2). split_and!; try done.
      exists nx. split; [done|]. apply IH. done.
Qed.

Lemma chain_agree d d' p ns q :
  (∀ a, a ∈ ns.*1 → load a d' = load a d) → chain d p ns q → chain d' p ns q.
Proof.
  revert p. induction ns as [|[a c] ns IH]; intros p Hag; simpl; [done|].
  intros (-> & Hn & nx & Hl & Hc). split_and!; try done.
  exists nx. split.
  - rewrite Hag; [done|]. simpl. left.
  - apply IH; [|done]. intros b Hb. apply Hag. simpl. by right.
Qed.

Lemma chain_store d p ns q p' n :
  p' ∉ ns.*1 → chain d p ns q → chain (store_node p' n d) p ns q.
Proof.
  intros Hp'. apply chain_agree. intros a Ha. apply load_store_ne.
  by intros ->.
Qed.

Lemma chain_allocated d p ns q a : chain d p ns q → a ∈ ns.*1 → is_Some (load a d).
Proof.
  revert p. induction ns as [|[b c] ns IH]; intros p; simpl; [set_solver|].
  intros (-> & Hn & nx & Hl & Hc) [->|Hin]%elem_of_cons; eauto.
Qed.

Lemma chain_det d p ns ns' :
  chain d p ns nullptr → chain d p ns' nullptr → ns = ns'.
Proof.
  revert p ns'. induction ns as [|[a c] ns IH]; intros p [|[a' c'] ns']; simpl; try done.
  - intros E1 (E2 & ? & _). congruence.
  - intros (E1 & ? & _) E2. congruence.
  - intros (-> & Hn & nx & Hl & Hc) (<- & _ & nx' & Hl' & Hc').
    rewrite Hl in Hl'. injection Hl' as <- <-. f_equal. by eapply IH.
Qed.

(** ** Unlinking and relinking a node *)

Lemma is_null_false p : p ≠ nullptr → is_null p = false.
Proof. by destruct p. Qed.

Lemma extractAfter_run d s0 xs b cb e ce ys :
  chain d s0 (xs ++ (b, cb) :: (e, ce) :: ys) nullptr →
  NoDup ((xs ++ (b, cb) :: (e, ce) :: ys).*1) →
  let d' := store_node b (mk_Node cb (head_ptr ys nullptr)) d in
  extractAfter b d = Ok (e, d')
  ∧ chain d' s0 (xs ++ (b, cb) :: ys) nullptr
  ∧ load e d' = Some (mk_Node ce (head_ptr ys nullptr)).
Proof.
  intros Hc Hnd d'. subst d'. rewrite fmap_app in Hnd.
  cbn [fmap list_fmap fst] in Hnd.
  apply chain_app in Hc as [Hxs Hb]. cbn [head_ptr] in Hxs.
  destruct Hb as (_ & Hbn & nx & Hlb & (-> & Hen & nx' & Hle & Hys)).
  pose proof (chain_head _ _ _ _ Hys) as ->.
  assert (b ≠ e) by (split_NoDup; set_solver).
  split_and!.
  - unfold extractAfter, assert. rewrite (is_null_false b) by done. cbn [negb].
    erewrite bind_Ok; [|done].
    rewrite (bind_Ok _ _ _ _ _ (node_deref_run _ _ _ Hlb)). cbn [next].
    rewrite (is_null_false e) by done. cbn [negb].
    erewrite bind_Ok; [|done].
    rewrite (bind_Ok _ _ _ _ _ (node_deref_run _ _ _ Hle)). cbn [next].
    by rewrite (bind_Ok _ _ _ _ _ (node_update_run _ _ _ _ Hlb)).
  - apply chain_app. cbn [head_ptr]. split.
    + apply chain_store; [|done]. split_NoDup. set_solver.
    + split_and!; try done. eexists. split; [by apply load_store_eq|].
      apply chain_store; [|done]. split_NoDup. set_solver.
  - by rewrite load_store_ne.
Qed.

Lemma extractAfter_last d s0 xs b cb :
  chain d s0 (xs ++ [(b, cb)]) nullptr →
  extractAfter b d = Err AssertionViolated.
Proof.
  intros [_ Hb]%chain_app. destruct Hb as (_ & Hbn & nx & Hlb & ->).
  unfold extractAfter, assert. rewrite (is_null_false b) by done. cbn [negb].
  erewrite bind_Ok; [|done].
  by rewrite (bind_Ok _ _ _ _ _ (node_deref_run _ _ _ Hlb)).
Qed.

Lemma attachAfter_run d s0 xs b cb ys e ne :
  chain d s0 (xs ++ (b, cb) :: ys) nullptr →
  NoDup ((xs ++ (b, cb) :: ys).*1) →
  load e d = Some ne → e ∉ (xs ++ (b, cb) :: ys).*1 →
  let d' := store_node b (mk_Node cb e)
              (store_node e (mk_Node (card ne) (head_ptr ys nullptr)) d) in
  attachAfter b e d = Ok (tt, d')
  ∧ chain d' s0 (xs ++ (b, cb) :: (e, card ne) :: ys) nullptr.
Proof.
  intros Hc Hnd Hle He d'. subst d'. rewrite fmap_app in Hnd, He.
  cbn [fmap list_fmap fst] in Hnd, He.
  apply chain_app in Hc as [Hxs Hb]. cbn [head_ptr] in Hxs.
  destruct Hb as (_ & Hbn & nx & Hlb & Hys).
  pose proof (chain_head _ _ _ _ Hys) as ->.
  pose proof (load_not_null _ _ _ Hle) as Hen.
  assert (e ≠ b) by set_solver.
  split.
  - unfold attachAfter, assert. rewrite (is_null_false b) by done. cbn [negb].
    erewrite bind_Ok; [|done].
    rewrite (bind_Ok _ _ _ _ _ (node_deref_run _ _ _ Hlb)). cbn [next].
    rewrite (bind_Ok _ _ _ _ _ (node_update_run _ _ _ _ Hle)).
    erewrite node_update_run; [|by rewrite load_store_ne]. done.
  - apply chain_app. cbn [head_ptr]. split.
    + do 2 (apply chain_store; [split_NoDup; set_solver|]). done.
    + split_and!; try done. eexists. split; [by apply load_store_eq|].
      split_and!; try done. eexists. split.
      * rewrite load_store_ne by done. by apply load_store_eq.
      * do 2 (apply chain_store; [split_NoDup; set_solver|]). done.
Qed.

(** ** The last node of a chain *)

Lemma last_ptr_nil p : last_ptr p [] = p.
Proof. done. Qed.

Lemma last_ptr_snoc p ns a c : last_ptr p (ns ++ [(a, c)]) = a.
Proof. unfold last_ptr. rewrite fmap_app. simpl. by rewrite last_snoc. Qed.

Lemma last_ptr_cons p a c ns : last_ptr p ((a, c) :: ns) = last_ptr a ns.
Proof.
  unfold last_ptr. destruct ns as [|[b cb] ns]; [done|]. simpl.
  destruct (proj2 (last_is_Some (b :: ns.*1)) ltac:(done)) as [x Hx].
  change (list_fmap _ _ fst ns) with (ns.*1). by rewrite Hx.
Qed.

Lemma last_ptr_app p xs a c ys : last_ptr p (xs ++ (a, c) :: ys) = last_ptr a ys.
Proof.
  induction xs as [|[b cb] xs IH] in p |- *; cbn [app].
  - apply last_ptr_cons.
  - by rewrite last_ptr_cons.
Qed.

Lemma chain_last_next d p a c ns q :
  chain d p ((a, c) :: ns) q →
  ∃ cl, load (last_ptr a ns) d = Some (mk_Node cl q).
Proof.
  revert p a c. induction ns as [|[b cb] ns IH]; intros p a c.
  - intros (_ & _ & nx & Hl & <-). by eexists.
  - intros (_ & _ & nx & Hl & Hc). rewrite last_ptr_cons. by eapply IH.
Qed.

Lemma split_last a c ns :
  ∃ init cl, (a, c) :: ns = init ++ [(last_ptr a ns, cl)].
Proof.
  destruct ns as [|[b cb] ns _] using rev_ind.
  - by exists [], c.
  - exists ((a, c) :: ns), cb. by rewrite last_ptr_snoc.
Qed.

(** ** [findBeforeMin] *)

Lemma findBeforeMin_loop_run d fuel ins ci u1 m w rest bs nbs :
  chain d ins ((ins, ci) :: u1 ++ m :: w ++ rest) nullptr →
  load bs d = Some nbs → next nbs = last_ptr m.1 w →
  Forall (λ x, Card_lt m.2 x.2) u1 →
  Forall (λ y, Card_le m.2 y.2) w →
  (length rest < fuel)%nat →
  ∃ u1' m' u2',
    u1 ++ m :: w ++ rest = u1' ++ m' :: u2'
    ∧ Forall (λ x, Card_lt m'.2 x.2) u1'
    ∧ Forall (λ y, Card_le m'.2 y.2) u2'
    ∧ findBeforeMin_loop fuel bs (last_ptr ins u1) d = Ok (last_ptr ins u1', d).
Proof.
  revert fuel u1 m w bs nbs.
  induction rest as [|[a c] rest IH]; intros [|fuel] u1 [ma mc] w bs nbs Hc Hbs Hnx Hu1 Hw Hfuel;
    cbn [length] in Hfuel; try lia; cbn [fst snd] in *.
  all: cbn [findBeforeMin_loop].
  all: rewrite (bind_Ok _ _ _ _ _ (iter_next_run _ _ _ Hbs)), Hnx.
  all: change ((ins, ci) :: u1 ++ (ma, mc) :: w ++ ?r)
         with (((ins, ci) :: u1) ++ ((ma, mc) :: w) ++ r) in Hc.
  all: apply chain_app in Hc as [Hpre Hc]; apply chain_app in Hc as [Hmw Hrest].
  all: cbn [head_ptr app] in Hpre, Hmw, Hrest.
  all: destruct (chain_last_next _ _ _ _ _ _ Hmw) as (cl & Hlast).
  all: rewrite (is_null_false _ (load_not_null _ _ _ Hlast)).
  all: rewrite (bind_Ok _ _ _ _ _ (iter_next_run _ _ _ Hlast)); cbn [next is_null].
  - (* nothing left to look at *)
    exists u1, (ma, mc), w. by rewrite app_nil_r.
  - destruct Hrest as (_ & Han & nx & Hla & Hrest).
    rewrite (is_null_false _ Han).
    rewrite (bind_Ok _ _ _ _ _ (iter_get_run _ _ _ Hla)). cbn [card].
    destruct (chain_last_next _ _ _ _ _ _ Hpre) as (cb & Hbm).
    rewrite (bind_Ok _ _ _ _ _ (iter_next_run _ _ _ Hbm)). cbn [next].
    pose proof Hmw as (_ & _ & nxm & Hlm & Hw').
    rewrite (bind_Ok _ _ _ _ _ (iter_get_run _ _ _ Hlm)). cbn [card].
    assert (chain d ins ((ins, ci) :: u1 ++ (ma, mc) :: w ++ (a, c) :: rest) nullptr)
      as Hwhole.
    { change ((ins, ci) :: u1 ++ (ma, mc) :: w ++ (a, c) :: rest)
        with (((ins, ci) :: u1) ++ ((ma, mc) :: w) ++ (a, c) :: rest).
      apply chain_app. split; [done|]. apply chain_app. cbn [head_ptr app].
      split; [done|]. split_and!; eauto. }
    unfold Card_ltb. destruct (Z.ltb_spec (rank c) (rank mc)) as [Hlt|Hge].
    + (* a new, smaller minimum *)
      edestruct (IH fuel (u1 ++ (ma, mc) :: w) (a, c) [] (last_ptr ma w))
        as (u1' & m' & u2' & Heq & H1 & H2 & Hrun).
      * by rewrite <-app_assoc.
      * exact Hlast.
      * done.
      * apply Forall_app. split; [|apply Forall_cons; split].
        -- eapply Forall_impl; [done|]. unfold Card_lt. simpl. intros; lia.
        -- unfold Card_lt. simpl. lia.
        -- eapply Forall_impl; [done|]. unfold Card_lt, Card_le. simpl. intros; lia.
      * constructor.
      * lia.
      * exists u1', m', u2'. split_and!; try done.
        -- by rewrite <-Heq, <-app_assoc.
        -- by rewrite last_ptr_app in Hrun.
    + (* the minimum stays *)
      edestruct (IH fuel u1 (ma, mc) (w ++ [(a, c)]) (last_ptr ma w))
        as (u1' & m' & u2' & Heq & H1 & H2 & Hrun).
      * by rewrite <-app_assoc.
      * exact Hlast.
      * cbn [fst]. by rewrite last_ptr_snoc.
      * done.
      * apply Forall_app. split; [done|]. apply Forall_singleton.
        unfold Card_le. simpl. lia.
      * lia.
      * exists u1', m', u2'. split_and!; try done.
        by rewrite <-Heq, <-app_assoc.
Qed.

Lemma chain_heap_nodes d p ns q :
  chain d p ns q → before_head ∉ ns.*1 →
  ∃ locs : list positive, ns.*1 = heap_node <$> locs.
Proof.
  revert p. induction ns as [|[a c] ns IH]; intros p.
  - intros _ _. by exists [].
  - intros (_ & Hn & nx & _ & Hc) Hbh. cbn [fmap list_fmap fst] in Hbh.
    destruct (IH _ Hc) as [locs Hlocs]; [set_solver|].
    destruct a as [| |l]; [done|set_solver|].
    exists (l :: locs). cbn [fmap list_fmap fst]. by f_equal.
Qed.

Lemma heap_nodes_bound d p ns q :
  chain d p ns q → NoDup (ns.*1) → before_head ∉ ns.*1 →
  (length ns ≤ base.size (heap d))%nat.
Proof.
  intros Hc Hnd Hbh. destruct (chain_heap_nodes _ _ _ _ Hc Hbh) as [locs Hlocs].
  rewrite <-(length_fmap fst), Hlocs, length_fmap.
  rewrite Hlocs in Hnd. apply NoDup_fmap in Hnd; [|by intros ?? [=]].
  rewrite <-(size_list_to_set (C:=gset positive)) by done.
  rewrite <-size_dom. apply subseteq_size. intros l Hl%elem_of_list_to_set.
  apply elem_of_dom. apply (chain_allocated _ _ _ _ (heap_node l) Hc).
  rewrite Hlocs. by apply list_elem_of_fmap_2.
Qed.

Lemma deck_fuel_run {B} d (k : nat → prog Deck B) :
  bind enough_fuel k d = k (S (base.size (heap d))) d.
Proof. reflexivity. Qed.

(** [findBeforeMin] returns the node before the earliest least card of the
    nodes after [ins], and changes nothing. *)
Lemma findBeforeMin_run d ins ci u :
  chain d ins ((ins, ci) :: u) nullptr → u ≠ [] →
  NoDup (u.*1) → before_head ∉ u.*1 →
  ∃ u1 m u2,
    u = u1 ++ m :: u2
    ∧ Forall (λ x, Card_lt m.2 x.2) u1
    ∧ Forall (λ y, Card_le m.2 y.2) u2
    ∧ findBeforeMin ins d = Ok (last_ptr ins u1, d).
Proof.
  intros Hc Hu Hnd Hbh. destruct u as [|[ma mc] rest]; [done|].
  pose proof Hc as (_ & Hin & nx & Hli & Hu').
  pose proof (chain_head _ _ _ _ Hu') as Hnx. cbn [head_ptr] in Hnx. subst nx.
  destruct (findBeforeMin_loop_run d (S (base.size (heap d))) ins ci [] (ma, mc) []
              rest ins _ Hc Hli)
    as (u1 & m & u2 & Heq & H1 & H2 & Hrun); [done|constructor|constructor|..].
  { pose proof (heap_nodes_bound _ _ _ _ Hu' Hnd Hbh) as Hle.
    cbn [length] in Hle. lia. }
  exists u1, m, u2. split_and!; try done.
  unfold findBeforeMin. rewrite deck_fuel_run.
  rewrite last_ptr_nil in Hrun. rewrite (bind_Ok _ _ _ _ _ Hrun).
  (* the two assertions hold *)
  cbn [app] in Heq. rewrite Heq in Hc.
  change ((ins, ci) :: u1 ++ m :: u2) with (((ins, ci) :: u1) ++ m :: u2) in Hc.
  apply chain_app in Hc as [Hpre Hm]. destruct m as [ma' mc']. cbn [head_ptr] in *.
  destruct (chain_last_next _ _ _ _ _ _ Hpre) as (cb & Hbm).
  destruct Hm as (_ & Hmn & _).
  unfold assert. rewrite (is_null_false _ (load_not_null _ _ _ Hbm)). cbn [negb].
  erewrite bind_Ok; [|done].
  rewrite (bind_Ok _ _ _ _ _ (iter_next_run _ _ _ Hbm)). cbn [next].
  rewrite (is_null_false _ Hmn). cbn [negb]. by erewrite bind_Ok.
Qed.

(** ** Selection, abstractly *)

Lemma selects_Permutation u v : selects u v → v ≡ₚ u.
Proof.
  induction 1 as [|u1 m u2 v _ _ _ IH]; [done|].
  by rewrite IH, Permutation_middle.
Qed.

Lemma selects_sorted u v :
  selects u v → StronglySorted (λ x y, Card_le x.2 y.2) v.
Proof.
  induction 1 as [|u1 m u2 v H1 H2 Hsel IH]; constructor; [done|].
  rewrite (selects_Permutation _ _ Hsel). apply Forall_app. split; [|done].
  eapply Forall_impl; [done|]. unfold Card_lt, Card_le. simpl. intros; lia.
Qed.

Lemma selects_stable u v (r : Z) :
  selects u v →
  filter (λ x, rank x.2 = r) v = filter (λ x, rank x.2 = r) u.
Proof.
  induction 1 as [|u1 m u2 v H1 H2 _ IH]; [done|].
  rewrite filter_app, !filter_cons, IH, filter_app.
  destruct (decide (rank m.2 = r)) as [Hm|Hm]; [|done].
  assert (filter (λ x, rank x.2 = r) u1 = []) as ->; [|done].
  clear -H1 Hm. induction H1 as [|x u1 Hx _ IH]; [done|].
  rewrite filter_cons, IH. unfold Card_lt in Hx.
  rewrite decide_False; [done|lia].
Qed.

(** ** [stableSelectionSort] *)

Lemma dom_heap_store p n d :
  is_Some (load p d) → dom (heap (store_node p n d)) = dom (heap d).
Proof.
  destruct p; simpl; [done..|]. intros Hl.
  rewrite dom_insert_L. apply elem_of_dom in Hl. set_solver.
Qed.

Lemma stableSelectionSort_loop_run fuel d pre ins ci u :
  chain d before_head (pre ++ (ins, ci) :: u) nullptr →
  NoDup ((pre ++ (ins, ci) :: u).*1) →
  before_head ∉ u.*1 →
  (length u < fuel)%nat →
  ∃ d' u',
    stableSelectionSort_loop fuel ins d = Ok (tt, d')
    ∧ chain d' before_head (pre ++ (ins, ci) :: u') nullptr
    ∧ selects u u'
    ∧ deckSize d' = deckSize d
    ∧ dom (heap d') = dom (heap d).
Proof.
  revert d pre ins ci u.
  induction fuel as [|fuel IH]; intros d pre ins ci u Hc Hnd Hbh Hfuel; [lia|].
  cbn [stableSelectionSort_loop].
  pose proof Hc as [Hpre Hins]%chain_app. cbn [head_ptr] in Hpre, Hins.
  pose proof Hins as (_ & Hinn & nx & Hli & Hu).
  pose proof (chain_head _ _ _ _ Hu) as ->.
  rewrite (bind_Ok _ _ _ _ _ (iter_next_run _ _ _ Hli)). cbn [next].
  destruct u as [|u0 urest] eqn:Eu.
  { (* nothing left to sort *)
    exists d, []. split_and!; try done. constructor. }
  rewrite <-Eu in *. assert (u ≠ []) as Hne by (by subst u).
  assert (is_null (head_ptr u nullptr) = false) as ->.
  { subst u. destruct u0 as [a0 c0]. destruct Hu as (_ & ? & _).
    by apply is_null_false. }
  clear Eu u0 urest.
  assert (NoDup (u.*1)) as Hndu.
  { rewrite fmap_app in Hnd. cbn [fmap list_fmap] in Hnd. by split_NoDup. }
  destruct (findBeforeMin_run d ins ci u Hins Hne Hndu Hbh)
    as (u1 & [ma mc] & u2 & -> & H1 & H2 & Hfind).
  rewrite (bind_Ok _ _ _ _ _ Hfind). cbn [fst snd] in *.
  (* unlink the least node *)
  destruct (split_last ins ci u1) as (init & cb & Hsplit).
  assert (pre ++ (ins, ci) :: u1 ++ (ma, mc) :: u2
          = (pre ++ init) ++ (last_ptr ins u1, cb) :: (ma, mc) :: u2) as Hwhole.
  { rewrite <-app_assoc. f_equal.
    change ((ins, ci) :: u1 ++ (ma, mc) :: u2) with (((ins, ci) :: u1) ++ (ma, mc) :: u2).
    by rewrite Hsplit, <-app_assoc. }
  assert (pre ++ (ins, ci) :: u1 ++ u2
          = (pre ++ init) ++ (last_ptr ins u1, cb) :: u2) as Hwhole'.
  { rewrite <-app_assoc. f_equal.
    change ((ins, ci) :: u1 ++ u2) with (((ins, ci) :: u1) ++ u2).
    by rewrite Hsplit, <-app_assoc. }
  rewrite Hwhole in Hc, Hnd.
  destruct (extractAfter_run d _ _ _ _ _ _ _ Hc Hnd) as (Hext & Hc1 & Hm1).
  rewrite (bind_Ok _ _ _ _ _ Hext).
  set (d1 := store_node (last_ptr ins u1) _ d) in *.
  rewrite <-Hwhole' in Hc1. rewrite <-Hwhole in Hnd.
  (* and link it behind the sorted part *)
  assert (NoDup ((pre ++ (ins, ci) :: u1 ++ u2).*1)) as Hnd1.
  { revert Hnd. rewrite !fmap_app. cbn [fmap list_fmap]. rewrite !fmap_app.
    cbn [fmap list_fmap]. intros Hnd. split_NoDup.
    rewrite NoDup_app, NoDup_cons, NoDup_app. set_solver. }
  assert (ma ∉ (pre ++ (ins, ci) :: u1 ++ u2).*1) as Hma.
  { revert Hnd. rewrite !fmap_app. cbn [fmap list_fmap]. rewrite !fmap_app.
    cbn [fmap list_fmap fst]. intros Hnd. split_NoDup. set_solver. }
  destruct (attachAfter_run d1 _ _ _ _ _ _ _ Hc1 Hnd1 Hm1 Hma) as (Hatt & Hc2).
  rewrite (bind_Ok _ _ _ _ _ Hatt). cbn [card] in *.
  set (d2 := store_node ins _ _) in *.
  pose proof Hc2 as [_ (_ & _ & nx2 & Hli2 & (-> & _))]%chain_app.
  rewrite (bind_Ok _ _ _ _ _ (iter_next_run _ _ _ Hli2)). cbn [next].
  (* the rest is sorted in the same way *)
  destruct (IH d2 (pre ++ [(ins, ci)]) ma mc (u1 ++ u2)) as (d' & v & Hrun & Hc' & Hsel & Hsz & Hdom).
  { by rewrite <-app_assoc. }
  { rewrite <-app_assoc. cbn [app]. revert Hnd. rewrite !fmap_app.
    cbn [fmap list_fmap]. rewrite !fmap_app. cbn [fmap list_fmap fst].
    intros Hnd. split_NoDup.
    rewrite NoDup_app, !NoDup_cons, NoDup_app. set_solver. }
  { revert Hbh. rewrite !fmap_app. cbn [fmap list_fmap]. set_solver. }
  { rewrite length_app in *. cbn [length] in Hfuel. lia. }
  exists d', ((ma, mc) :: v). split_and!; try done.
  - by rewrite <-app_assoc in Hc'.
  - by constructor.
  - rewrite Hsz. unfold d2, d1. by rewrite !deckSize_store.
  - rewrite Hdom. unfold d2.
    assert (is_Some (load ins d1)) as Hi1.
    { eapply chain_allocated; [exact Hc1|]. rewrite fmap_app. set_solver. }
    assert (ins ≠ ma) as Hne'.
    { intros ->. apply Hma. rewrite fmap_app. set_solver. }
    rewrite dom_heap_store by (by rewrite load_store_ne).
    rewrite dom_heap_store by (by rewrite Hm1).
    unfold d1. apply dom_heap_store.
    eapply chain_allocated; [exact Hc|]. rewrite fmap_app. set_solver.
Qed.

Lemma deck_rep_sentinel d c ns :
  chain d before_head ((before_head, c) :: ns) nullptr →
  card (beforeHeadNode d) = c.
Proof. intros (_ & _ & nx & Hl & _). simpl in Hl. by injection Hl as ->. Qed.

Lemma deck_fuel d ns : deck_rep d ns → (length ns < S (base.size (heap d)))%nat.
Proof.
  intros [(_ & _ & nx & _ & Hc) Hnd]. apply NoDup_cons in Hnd as [Hbh Hnd].
  pose proof (heap_nodes_bound _ _ _ _ Hc Hnd Hbh). lia.
Qed.

Lemma stableSelectionSort_run d ns :
  deck_rep d ns →
  ∃ d' ns',
    stableSelectionSort d = Ok (tt, d')
    ∧ deck_rep d' ns'
    ∧ selects ns ns'
    ∧ deckSize d' = deckSize d
    ∧ dom (heap d') = dom (heap d).
Proof.
  intros Hrep. pose proof (deck_fuel _ _ Hrep) as Hfuel. destruct Hrep as [Hc Hnd].
  destruct (stableSelectionSort_loop_run (S (base.size (heap d))) d [] before_head
              (card (beforeHeadNode d)) ns Hc Hnd)
    as (d' & ns' & Hrun & Hc' & Hsel & Hsz & Hdom); [|done|].
  { by apply NoDup_cons in Hnd as [? _]. }
  exists d', ns'. split_and!; try done.
  split.
  - cbn [app] in Hc'. by rewrite (deck_rep_sentinel _ _ _ Hc').
  - cbn [fmap list_fmap fst] in *.
    by rewrite (selects_Permutation _ _ Hsel).
Qed.

Lemma collect_run d p ns fuel :
  chain d p ns nullptr → (length ns < fuel)%nat →
  collect fuel p d = Ok (ns.*2, d).
Proof.
  revert p fuel. induction ns as [|[a c] ns IH]; intros p [|fuel] Hc Hfuel;
    cbn [length] in Hfuel; try lia; cbn [collect].
  - by rewrite Hc.
  - destruct Hc as (-> & Han & nx & Hl & Hc). rewrite (is_null_false _ Han).
    rewrite (bind_Ok _ _ _ _ _ (iter_get_run _ _ _ Hl)).
    rewrite (bind_Ok _ _ _ _ _ (iter_next_run _ _ _ Hl)). cbn [card next].
    erewrite bind_Ok; [done|]. apply IH; [done|lia].
Qed.

Lemma cards_run d ns : deck_rep d ns → cards d = Ok (ns.*2, d).
Proof.
  intros Hrep. pose proof (deck_fuel _ _ Hrep) as Hfuel.
  destruct Hrep as [(_ & _ & nx & Hl & Hc) _].
  unfold cards. rewrite deck_fuel_run. unfold begin.
  rewrite (bind_Ok _ _ _ _ _ (iter_next_run _ _ _ Hl)). by apply collect_run.
Qed.

(** ** [pushFront] and [popFront] *)

Lemma deck_rep_allocated d ns a : deck_rep d ns → a ∈ ns.*1 → is_Some (load a d).
Proof.
  intros [Hc _] Ha. eapply chain_allocated; [done|]. simpl. by right.
Qed.

Lemma pushFront_run d ns c :
  deck_rep d ns →
  ∃ d', pushFront c d = Ok (tt, d')
        ∧ deck_rep d' ((heap_node (fresh (dom (heap d))), c) :: ns)
        ∧ deckSize d' = size_t_wrap (deckSize d + 1).
Proof.
  intros Hrep. set (l := fresh (dom (heap d))).
  assert (heap d !! l = None) as Hl by apply not_elem_of_dom, is_fresh.
  assert (heap_node l ∉ ns.*1) as Hnotin.
  { intros [n Hn]%(deck_rep_allocated _ _ _ Hrep). simpl in Hn. congruence. }
  destruct Hrep as [Hc Hnd].
  unfold pushFront, insertAfter. erewrite bind_Ok; [|reflexivity]. fold l.
  set (d0 := mk_Deck _ _ _).
  assert (chain d0 before_head ([] ++ (before_head, card (beforeHeadNode d)) :: ns) nullptr)
    as Hc0.
  { eapply chain_agree; [|done]. intros a Ha. destruct a as [| |l']; try done.
    simpl. apply lookup_insert_ne. intros <-. set_solver. }
  destruct (attachAfter_run d0 before_head [] before_head _ ns (heap_node l)
              (mk_Node c nullptr) Hc0) as (Hatt & Hc1).
  { done. }
  { simpl. apply lookup_insert_eq. }
  { cbn [app fmap list_fmap fst]. set_solver. }
  rewrite (bind_Ok _ _ _ _ _ Hatt). eexists. split; [reflexivity|].
  cbn [app card] in Hc1. split_and!.
  - split.
    + eapply chain_agree; [|done]. by intros [| |?] _.
    + cbn [fmap list_fmap fst] in *. split_NoDup.
      rewrite !NoDup_cons. set_solver.
  - done.
Qed.

(** [eraseAfter] at a node that has a successor: the successor leaves the
    chain and is freed. *)
Lemma eraseAfter_run d ns xs b cb e ce ys :
  deck_rep d ns →
  (before_head, card (beforeHeadNode d)) :: ns = xs ++ (b, cb) :: (e, ce) :: ys →
  ∃ d' ns',
    eraseAfter b d = Ok (tt, d')
    ∧ (before_head, card (beforeHeadNode d')) :: ns' = xs ++ (b, cb) :: ys
    ∧ deck_rep d' ns'
    ∧ length ns = S (length ns')
    ∧ deckSize d' = size_t_wrap (deckSize d - 1)
    ∧ load e d' = None.
Proof.
  intros [Hc Hnd] Hsplit. unfold eraseAfter.
  change (before_head :: ns.*1)
    with (((before_head, card (beforeHeadNode d)) :: ns).*1) in Hnd.
  rewrite Hsplit in Hc, Hnd.
  destruct (extractAfter_run d before_head xs b cb e ce ys Hc Hnd)
    as (Hext & Hc1 & He1).
  rewrite (bind_Ok _ _ _ _ _ Hext). cbv beta.
  (* the extracted node is not the sentinel *)
  assert (e ≠ before_head) as Heb.
  { intros ->. destruct xs as [|[x cx] xs]; simplify_eq/=.
    - apply NoDup_cons in Hnd as [Hnd _]. set_solver.
    - rewrite fmap_app in Hnd. cbn [fmap list_fmap fst] in Hnd.
      apply NoDup_cons in Hnd as [Hnd _]. set_solver. }
  pose proof (load_not_null _ _ _ He1) as Hen.
  destruct e as [| |l]; [done..|].
  unfold delete_Node. erewrite bind_Ok; cycle 1.
  { by erewrite (bind_Ok _ _ _ _ _ (node_deref_run _ _ _ He1)). }
  set (d1 := store_node b _ d) in *.
  set (d' := with_deckSize (size_t_wrap (deckSize d1 - 1))
               (mk_Deck (beforeHeadNode d1) (delete l (heap d1)) (deckSize d1))).
  assert (heap_node l ∉ (xs ++ (b, cb) :: ys).*1) as Hl.
  { revert Hnd. rewrite !fmap_app. cbn [fmap list_fmap fst].
    intros Hnd. split_NoDup. set_solver. }
  assert (chain d' before_head (xs ++ (b, cb) :: ys) nullptr) as Hc'.
  { eapply chain_agree; [|done]. intros [| |l'] Hin; try done.
    simpl. apply lookup_delete_ne. by intros <-. }
  assert (NoDup ((xs ++ (b, cb) :: ys).*1)) as Hnd'.
  { revert Hnd. rewrite !fmap_app. cbn [fmap list_fmap fst].
    intros Hnd. split_NoDup. rewrite NoDup_app, NoDup_cons. set_solver. }
  (* what is left still starts with the sentinel *)
  assert (∃ ns', (before_head, card (beforeHeadNode d')) :: ns' = xs ++ (b, cb) :: ys)
    as [ns' Hns'].
  { destruct xs as [|[x cx] xs]; simplify_eq/=.
    - by exists ys.
    - exists (xs ++ (b, cb) :: ys). do 2 f_equal.
      destruct Hc' as (_ & _ & nx & Hl' & _). simpl in Hl'. by injection Hl' as ->. }
  exists d', ns'. split_and!.
  - reflexivity.
  - done.
  - split; [by rewrite Hns'|].
    change (before_head :: ns'.*1)
      with (((before_head, card (beforeHeadNode d')) :: ns').*1).
    by rewrite Hns'.
  - apply (f_equal length) in Hsplit, Hns'. revert Hsplit Hns'.
    rewrite !length_app. cbn [length]. lia.
  - unfold d', d1. cbn [deckSize]. by rewrite deckSize_store.
  - simpl. apply lookup_delete_eq.
Qed.

Lemma popFront_run d a c ns :
  deck_rep d ((a, c) :: ns) →
  ∃ d', popFront d = Ok (tt, d')
        ∧ deck_rep d' ns
        ∧ deckSize d' = size_t_wrap (deckSize d - 1)
        ∧ load a d' = None.
Proof.
  intros Hrep.
  destruct (eraseAfter_run d _ [] before_head (card (beforeHeadNode d)) a c ns Hrep)
    as (d' & ns' & Hrun & Hns' & Hrep' & _ & Hsz & Ha); [done|].
  cbn [app] in Hns'. injection Hns' as _ ->. by exists d'.
Qed.

(** ** [shuffle] *)

Lemma deck_rep_alt d ns :
  deck_rep d ns ↔
    chain d (next (beforeHeadNode d)) ns nullptr
    ∧ NoDup (ns.*1) ∧ before_head ∉ ns.*1.
Proof.
  unfold deck_rep. cbn [chain load fmap list_fmap fst]. rewrite NoDup_cons. split.
  - intros [(_ & _ & nx & [= Hl] & Hc) [??]]. split_and!; try done.
    by rewrite Hl.
  - intros (Hc & ? & ?). split_and!; try done.
    exists (next (beforeHeadNode d)). by destruct (beforeHeadNode d).
Qed.

Lemma chain_lookup d p ns q k a c :
  chain d p ns q → ns !! k = Some (a, c) →
  ∃ nx, load a d = Some (mk_Node c nx) ∧ nx = head_ptr (drop (S k) ns) q.
Proof.
  revert p k. induction ns as [|[b cb] ns IH]; intros p [|k]; simpl; try done.
  - intros (-> & _ & nx & Hl & Hc) [= -> ->]. exists nx. split; [done|].
    rewrite drop_0. by eapply chain_head.
  - intros (-> & _ & nx & Hl & Hc) Hk. by eapply IH.
Qed.

Lemma advance_run d p ns k a c :
  chain d p ns nullptr → ns !! k = Some (a, c) → advance k p d = Ok (a, d).
Proof.
  revert p k. induction ns as [|[b cb] ns IH]; intros p [|k]; simpl; try done.
  - by intros (-> & _) [= -> ->].
  - intros (-> & _ & nx & Hl & Hc) Hk.
    rewrite (bind_Ok _ _ _ _ _ (iter_next_run _ _ _ Hl)). by eapply IH.
Qed.

Lemma chain_set_card d p ns q k a c c' n :
  chain d p ns q → NoDup (ns.*1) → ns !! k = Some (a, c) → load a d = Some n →
  chain (store_node a (with_card c' n) d) p (<[k:=(a, c')]> ns) q.
Proof.
  revert p k. induction ns as [|[b cb] ns IH]; intros p [|k]; simpl; try done.
  - intros (-> & Hn & nx & Hl & Hc) Hnd [= -> ->] Hn'. split_and!; try done.
    rewrite Hl in Hn'. injection Hn' as <-. exists nx. split.
    + by apply load_store_eq.
    + apply chain_store; [|done]. by apply NoDup_cons in Hnd as [? _].
  - intros (-> & Hn & nx & Hl & Hc) Hnd Hk Hn'. split_and!; try done.
    apply NoDup_cons in Hnd as [Hb Hnd]. exists nx. split.
    + rewrite load_store_ne; [done|]. intros ->. apply Hb.
      apply list_elem_of_lookup_2 in Hk.
      by apply (list_elem_of_fmap_2 fst) in Hk.
    + by eapply IH.
Qed.

Lemma insert_zip ns k a c c' :
  ns !! k = Some (a, c) → <[k:=(a, c')]> ns = zip (ns.*1) (<[k:=c']> (ns.*2)).
Proof.
  revert k. induction ns as [|[b cb] ns IH]; intros [|k]; simpl; try done.
  - intros [= -> ->]. by rewrite zip_fst_snd.
  - intros Hk. f_equal. by apply IH.
Qed.

Lemma sentinel_store a n d :
  a ≠ before_head → beforeHeadNode (store_node a n d) = beforeHeadNode d.
Proof. by destruct a. Qed.

Lemma iter_swap_run d p ns i j ai ci aj cj :
  chain d p ns nullptr → NoDup (ns.*1) →
  ns !! i = Some (ai, ci) → ns !! j = Some (aj, cj) →
  ∃ d', iter_swap ai aj d = Ok (tt, d')
        ∧ chain d' p (zip (ns.*1) (swap i j (ns.*2))) nullptr
        ∧ deckSize d' = deckSize d
        ∧ dom (heap d') = dom (heap d)
        ∧ (before_head ∉ ns.*1 → beforeHeadNode d' = beforeHeadNode d).
Proof.
  intros Hc Hnd Hi Hj.
  destruct (chain_lookup _ _ _ _ _ _ _ Hc Hi) as (nxi & Hli & _).
  destruct (chain_lookup _ _ _ _ _ _ _ Hc Hj) as (nxj & Hlj & _).
  unfold iter_swap.
  rewrite (bind_Ok _ _ _ _ _ (iter_get_run _ _ _ Hli)).
  rewrite (bind_Ok _ _ _ _ _ (iter_get_run _ _ _ Hlj)). cbn [card].
  rewrite (bind_Ok _ _ _ _ _ (node_update_run _ _ _ _ Hli)).
  pose proof (chain_set_card _ _ _ _ _ _ _ cj _ Hc Hnd Hi Hli) as Hc1.
  set (d1 := store_node ai _ d) in *.
  set (ns1 := <[i:=(ai, cj)]> ns) in *.
  assert (ns1.*1 = ns.*1) as Hfst.
  { unfold ns1. rewrite list_fmap_insert. simpl. apply list_insert_id.
    by rewrite list_lookup_fmap, Hi. }
  assert (ns1 !! j = Some (aj, cj)) as Hj1.
  { unfold ns1. destruct (decide (i = j)) as [->|Hij].
    - rewrite list_lookup_insert_eq by (by eapply lookup_lt_Some). congruence.
    - by rewrite list_lookup_insert_ne. }
  destruct (chain_lookup _ _ _ _ _ _ _ Hc1 Hj1) as (nxj1 & Hlj1 & _).
  rewrite (node_update_run _ _ _ _ Hlj1).
  pose proof (chain_set_card _ _ _ _ _ _ _ ci _ Hc1 ltac:(by rewrite Hfst) Hj1 Hlj1)
    as Hc2.
  eexists. split; [done|]. split_and!.
  - assert (<[j:=(aj, ci)]> ns1 = zip (ns.*1) (swap i j (ns.*2))) as <-; [|done].
    rewrite (insert_zip _ _ _ _ _ Hj1), Hfst. f_equal. unfold ns1, swap.
    rewrite !list_lookup_fmap, Hi, Hj. simpl. by rewrite list_fmap_insert.
  - rewrite deckSize_store. unfold d1. by rewrite deckSize_store.
  - rewrite dom_heap_store by (by rewrite Hlj1). unfold d1.
    by rewrite dom_heap_store by (by rewrite Hli).
  - intros Hbh. rewrite sentinel_store; [unfold d1; rewrite sentinel_store|]; [done|..].
    + intros ->. apply Hbh. apply list_elem_of_lookup_2 in Hi.
      by apply (list_elem_of_fmap_2 fst) in Hi.
    + intros ->. apply Hbh. apply list_elem_of_lookup_2 in Hj.
      by apply (list_elem_of_fmap_2 fst) in Hj.
Qed.

Lemma shuffle_loop_end generator minOffset :
  shuffle_loop generator nullptr minOffset = ret generator.
Proof. by destruct generator. Qed.

Lemma head_ptr_drop ns k a c q :
  ns !! k = Some (a, c) → head_ptr (drop k ns) q = a.
Proof.
  revert k. induction ns as [|[b cb] ns IH]; intros [|k]; simpl; try done.
  - by intros [= -> ->].
  - apply IH.
Qed.

Lemma zip_fst ns (l : list Card) :
  length l = length ns → (zip (ns.*1) l).*1 = ns.*1.
Proof. intros Hlen. apply fst_zip. rewrite length_fmap. lia. Qed.

Lemma zip_snd ns (l : list Card) :
  length l = length ns → (zip (ns.*1) l).*2 = l.
Proof. intros Hlen. apply snd_zip. rewrite length_fmap. lia. Qed.

Lemma zip_length ns (l : list Card) :
  length l = length ns → length (zip (ns.*1) l) = length ns.
Proof. intros Hlen. rewrite length_zip_with_l_eq; rewrite length_fmap; lia. Qed.

Lemma shuffle_loop_run cs d ns i rest :
  deck_rep d ns → size_ok d ns → valid_choices i (length ns) cs →
  ∃ d',
    shuffle_loop ((Z.of_nat <$> cs) ++ rest) (head_ptr (drop i ns) nullptr)
      (Z.of_nat i) d = Ok (rest, d')
    ∧ deck_rep d' (zip (ns.*1) (fisher_yates i cs (ns.*2)))
    ∧ deckSize d' = deckSize d
    ∧ dom (heap d') = dom (heap d).
Proof.
  revert d ns i. induction cs as [|c cs IH]; intros d ns i Hrep [Hsz Hfit] Hvalid.
  - cbn [valid_choices] in Hvalid. subst i. rewrite drop_all. cbn [head_ptr].
    rewrite shuffle_loop_end. exists d. split_and!; try done.
    cbn [fisher_yates]. by rewrite zip_fst_snd.
  - destruct Hvalid as [Hc Hvalid].
    destruct (lookup_lt_is_Some_2 ns i) as [[ai ci] Hi]; [lia|].
    destruct (lookup_lt_is_Some_2 ns c) as [[ac cc] Hcc]; [lia|].
    pose proof Hrep as (Hch & Hnd & Hbh)%deck_rep_alt.
    rewrite (head_ptr_drop _ _ _ _ _ Hi).
    destruct (chain_lookup _ _ _ _ _ _ _ Hch Hi) as (nxi & Hli & _).
    cbn [fmap list_fmap app shuffle_loop].
    rewrite (is_null_false _ (load_not_null _ _ _ Hli)).
    erewrite bind_Ok; [|reflexivity].
    (* the number drawn is accepted *)
    assert (to_ptrdiff_t (size_t_wrap (deckSize d - 1)) = deckSize d - 1) as ->.
    { unfold size_t_wrap, size_t_modulus, to_ptrdiff_t.
      rewrite Z.mod_small by lia.
      destruct (Z.ltb_spec (deckSize d - 1) (2 ^ 63)); lia. }
    unfold distr.
    assert ((Z.of_nat i <=? Z.of_nat c) && (Z.of_nat c <=? deckSize d - 1) = true) as ->.
    { apply andb_true_iff. split; apply Z.leb_le; lia. }
    erewrite bind_Ok; [|reflexivity].
    (* the two positions are found and their cards exchanged *)
    unfold begin. erewrite bind_Ok; [|by apply iter_next_run].
    rewrite Nat2Z.id. rewrite (bind_Ok _ _ _ _ _ (advance_run _ _ _ _ _ _ Hch Hcc)).
    destruct (iter_swap_run d _ ns i c ai ci ac cc Hch Hnd Hi Hcc)
      as (d1 & Hswap & Hch1 & Hsz1 & Hdom1 & Hbh1).
    rewrite (bind_Ok _ _ _ _ _ Hswap). specialize (Hbh1 Hbh).
    set (ns1 := zip (ns.*1) (swap i c (ns.*2))) in *.
    assert (length (swap i c (ns.*2)) = length ns) as Hlen
      by (by rewrite swap_length, length_fmap).
    assert (ns1.*1 = ns.*1) as Hfst by (by apply zip_fst).
    assert (ns1.*2 = swap i c (ns.*2)) as Hsnd by (by apply zip_snd).
    assert (length ns1 = length ns) as Hlen1 by (by apply zip_length).
    assert (deck_rep d1 ns1) as Hrep1.
    { apply deck_rep_alt. rewrite Hbh1, Hfst. done. }
    (* on to the next position *)
    destruct (lookup_lt_is_Some_2 ns1 i) as [[ai' ci'] Hi1]; [lia|].
    assert (ai' = ai) as ->.
    { assert (ns1.*1 !! i = Some ai') as H1 by (by rewrite list_lookup_fmap, Hi1).
      rewrite Hfst, list_lookup_fmap, Hi in H1. by injection H1. }
    destruct (chain_lookup _ _ _ _ _ _ _ Hch1 Hi1) as (nxi1 & Hli1 & ->).
    rewrite (bind_Ok _ _ _ _ _ (iter_next_run _ _ _ Hli1)). cbn [next].
    destruct (IH d1 ns1 (S i)) as (d' & Hrun & Hrep' & Hsz' & Hdom').
    { done. }
    { split; lia. }
    { by rewrite Hlen1. }
    exists d'. split_and!.
    + by replace (Z.of_nat i + 1) with (Z.of_nat (S i)) by lia.
    + cbn [fisher_yates]. by rewrite Hfst, Hsnd in Hrep'.
    + lia.
    + by rewrite Hdom'.
Qed.

Lemma shuffle_run cs d ns rest :
  deck_rep d ns → size_ok d ns → valid_choices 0 (length ns) cs →
  ∃ d',
    shuffle ((Z.of_nat <$> cs) ++ rest) d = Ok (rest, d')
    ∧ deck_rep d' (zip (ns.*1) (fisher_yates 0 cs (ns.*2)))
    ∧ deckSize d' = deckSize d
    ∧ dom (heap d') = dom (heap d).
Proof.
  intros Hrep Hsz Hvalid.
  destruct (shuffle_loop_run cs d ns 0%nat rest Hrep Hsz Hvalid) as (d' & Hrun & ?).
  exists d'. split; [|done]. unfold shuffle, begin.
  erewrite bind_Ok; [|by apply iter_next_run].
  apply deck_rep_alt in Hrep as (Hch & _). rewrite drop_0 in Hrun.
  by rewrite <-(chain_head _ _ _ _ Hch) in Hrun.
Qed.

(** ** The standard deck *)





Lemma deck_rep_empty : deck_rep empty_Deck [].
Proof.
  split.
  - cbn. split_and!; try done. by eexists.
  - cbn. apply NoDup_singleton.
Qed.

Lemma pushFront_all_run cs d ns :
  deck_rep d ns → size_ok d ns →
  Z.of_nat (length ns + length cs) < 2 ^ 63 →
  ∃ d' ns',
    pushFront_all cs d = Ok (tt, d')
    ∧ deck_rep d' ns' ∧ size_ok d' ns'
    ∧ ns'.*2 = rev cs ++ ns.*2.
Proof.
  revert d ns. induction cs as [|c cs IH]; intros d ns Hrep [Hsz Hfit] Hlen.
  - by exists d, ns.
  - cbn [pushFront_all length] in *.
    destruct (pushFront_run d ns c Hrep) as (d1 & Hrun1 & Hrep1 & Hsz1).
    rewrite (bind_Ok _ _ _ _ _ Hrun1).
    destruct (IH d1 (((heap_node (fresh (dom (heap d)))), c) :: ns))
      as (d' & ns' & Hrun & Hrep' & Hsz' & Hcards); [done| |cbn [length]; lia|].
    { split; cbn [length]; [|lia]. rewrite Hsz1, Hsz.
      unfold size_t_wrap, size_t_modulus. rewrite Z.mod_small; lia. }
    exists d', ns'. split_and!; try done.
    rewrite Hcards. cbn [fmap list_fmap snd rev]. by rewrite <-app_assoc.
Qed.

(** C8: the factory returns, and what it returns is the deck obtained by
    pushing the cards to the front in generation order: for each rank from
    the ace down to the two, a spade, a heart, a club and a diamond.  The
    deck counts 52 cards, all different, and they are the cards of the four
    suits and thirteen ranks. *)
Theorem generateStandardDeck_spec :
  ∃ d ns,
    generateStandardDeck = Ok (tt, d)
    ∧ generateStandardDeck = pushFront_all generation_order empty_Deck
    ∧ deck_rep d ns ∧ size_ok d ns
    ∧ cards d = Ok (rev generation_order, d)
    ∧ length ns = 52%nat
    ∧ NoDup (ns.*2)
    ∧ ∀ c, c ∈ ns.*2 ↔ suite c ∈ suites_in_order ∧ rank c ∈ ranks_descending.
Proof.
  destruct (pushFront_all_run generation_order empty_Deck [] deck_rep_empty)
    as (d & ns & Hrun & Hrep & Hsz & Hcards).
  { split; [done|]. cbn. lia. }
  { vm_compute. done. }
  assert (generateStandardDeck = pushFront_all generation_order empty_Deck) as Hgen.
  { vm_compute. reflexivity. }
  rewrite app_nil_r in Hcards.
  exists d, ns. split_and!.
  - rewrite Hgen. exact Hrun.
  - exact Hgen.
  - exact Hrep.
  - exact Hsz.
  - rewrite (cards_run _ _ Hrep). by rewrite Hcards.
  - rewrite <-(length_fmap snd), Hcards. reflexivity.
  - rewrite Hcards. compute_done.
  - intros c. rewrite Hcards. split.
    + revert c. apply Forall_forall. compute_done.
    + destruct c as [s r]. cbn [suite rank]. unfold suites_in_order, ranks_descending.
      rewrite !elem_of_cons, !elem_of_nil. intros [Hs Hr].
      destruct_or!; subst; try (exfalso; assumption); compute_done.
Qed.

(** ** The claims about the deck *)

(** C5: [stableSelectionSort] returns, and the cards then met from front
    to back never go down in rank. *)
Theorem stableSelectionSort_sorted d ns :
  deck_rep d ns →
  ∃ d' sorted,
    stableSelectionSort d = Ok (tt, d')
    ∧ cards d' = Ok (sorted, d')
    ∧ StronglySorted Card_le sorted
    ∧ Sorted Card_le sorted.
Proof.
  intros Hrep.
  destruct (stableSelectionSort_run d ns Hrep) as (d' & ns' & Hrun & Hrep' & Hsel & _).
  assert (StronglySorted Card_le (ns'.*2)) as Hsorted.
  { eapply StronglySorted_fmap; [|by eapply selects_sorted]. done. }
  exists d', (ns'.*2). split_and!; try done.
  - by apply cards_run.
  - by apply StronglySorted_Sorted.
Qed.

(** C6: [stableSelectionSort] is stable.  For every rank, the nodes of that
    rank come in the same order after the sort as before it; the sorted
    sequence is the one that selection produces when each step takes the
    earliest node with the least card of what is left. *)
Theorem stableSelectionSort_stable d ns :
  deck_rep d ns →
  ∃ d' ns',
    stableSelectionSort d = Ok (tt, d')
    ∧ deck_rep d' ns'
    ∧ selects ns ns'
    ∧ (∀ r : Z, filter (λ x, rank x.2 = r) ns' = filter (λ x, rank x.2 = r) ns)
    ∧ (∀ c : Card, filter (λ x, Card_eqb x.2 c = true) ns'
                   = filter (λ x, Card_eqb x.2 c = true) ns).
Proof.
  intros Hrep.
  destruct (stableSelectionSort_run d ns Hrep) as (d' & ns' & Hrun & Hrep' & Hsel & _).
  exists d', ns'. split_and!; try done.
  - intros r. by apply selects_stable.
  - intros c.
    assert (Heq : ∀ l : list (node_ptr * Card),
      filter (λ x, Card_eqb x.2 c = true) l = filter (λ x, rank x.2 = rank c) l).
    { intros l. apply list_filter_iff. intros x. unfold Card_eqb. apply Z.eqb_eq. }
    rewrite !Heq. by apply selects_stable.
Qed.

(** C9: [stableSelectionSort] permutes the nodes of the deck: the same
    nodes with the same cards, the same counter, and the same set of
    allocated nodes. *)
Theorem stableSelectionSort_permutes d ns :
  deck_rep d ns →
  ∃ d' ns',
    stableSelectionSort d = Ok (tt, d')
    ∧ deck_rep d' ns'
    ∧ ns' ≡ₚ ns
    ∧ cards d = Ok (ns.*2, d) ∧ cards d' = Ok (ns'.*2, d') ∧ ns'.*2 ≡ₚ ns.*2
    ∧ size d' = Ok (deckSize d, d')
    ∧ dom (heap d') = dom (heap d).
Proof.
  intros Hrep.
  destruct (stableSelectionSort_run d ns Hrep)
    as (d' & ns' & Hrun & Hrep' & Hsel & Hsz & Hdom).
  pose proof (selects_Permutation _ _ Hsel) as Hperm.
  exists d', ns'. split_and!; try done.
  - by apply cards_run.
  - by apply cards_run.
  - by rewrite Hperm.
  - unfold size, gets. by rewrite Hsz.
Qed.

(** C10: [popFront] on a deck that is not empty takes the first node away,
    frees it and counts one less; so does [eraseAfter] for the successor
    of any node that has one.  On an empty deck, and more generally for
    [eraseAfter] at the last node of the chain, the assertion
    [node->next != nullptr] of [extractAfter] is violated. *)
Theorem popFront_spec d ns :
  deck_rep d ns → size_ok d ns →
  match ns with
  | [] => popFront d = Err AssertionViolated
  | (a, c) :: ns' =>
      ∃ d', popFront d = Ok (tt, d')
            ∧ deck_rep d' ns' ∧ size_ok d' ns'
            ∧ cards d' = Ok (ns'.*2, d')
            ∧ size d' = Ok (deckSize d - 1, d')
            ∧ load a d' = None
  end
  ∧ (∀ xs b cb e ce ys,
       (before_head, card (beforeHeadNode d)) :: ns = xs ++ (b, cb) :: (e, ce) :: ys →
       ∃ d' ns',
         eraseAfter b d = Ok (tt, d')
         ∧ (before_head, card (beforeHeadNode d')) :: ns' = xs ++ (b, cb) :: ys
         ∧ deck_rep d' ns' ∧ size_ok d' ns'
         ∧ size d' = Ok (deckSize d - 1, d')
         ∧ load e d' = None)
  ∧ extractAfter (last_ptr before_head ns) d = Err AssertionViolated
  ∧ eraseAfter (last_ptr before_head ns) d = Err AssertionViolated.
Proof.
  intros Hrep [Hsz Hfit].
  assert (extractAfter (last_ptr before_head ns) d = Err AssertionViolated) as Hlast.
  { destruct Hrep as [Hc _].
    destruct (split_last before_head (card (beforeHeadNode d)) ns) as (init & cl & Hsplit).
    rewrite Hsplit in Hc. by eapply extractAfter_last. }
  assert (∀ z, 0 < z < 2 ^ 63 → size_t_wrap (z - 1) = z - 1) as Hwrap.
  { intros z Hz. unfold size_t_wrap, size_t_modulus. rewrite Z.mod_small; lia. }
  split_and!; [| |done|].
  - destruct ns as [|[a c] ns'].
    + unfold popFront, eraseAfter. by rewrite (bind_Err _ _ _ _ Hlast).
    + destruct (popFront_run d a c ns' Hrep) as (d' & Hrun & Hrep' & Hsz' & Ha).
      cbn [length] in *. rewrite Hwrap in Hsz' by lia.
      exists d'. split_and!; try done.
      * split; lia.
      * by apply cards_run.
      * unfold size, gets. by rewrite Hsz'.
  - intros xs b cb e ce ys Hsplit.
    destruct (eraseAfter_run d ns xs b cb e ce ys Hrep Hsplit)
      as (d' & ns' & Hrun & Hns' & Hrep' & Hlen & Hsz' & He).
    rewrite Hwrap in Hsz' by lia.
    exists d', ns'. split_and!; try done.
    + split; lia.
    + unfold size, gets. by rewrite Hsz'.
  - unfold eraseAfter. by rewrite (bind_Err _ _ _ _ Hlast).
Qed.


(** ** More about the list operations *)

Lemma store_node_id p n d : load p d = Some n → store_node p n d = d.
Proof.
  destruct p, d as [bh hp sz]; simpl; intros H; [done| |].
  - by injection H as ->.
  - by rewrite insert_id.
Qed.

Lemma store_node_twice p n n' d :
  store_node p n (store_node p n' d) = store_node p n d.
Proof. destruct p; simpl; [done..|]. by rewrite insert_insert_eq. Qed.

Lemma store_node_comm p q n m d :
  p ≠ q → store_node p n (store_node q m d) = store_node q m (store_node p n d).
Proof.
  intros Hpq. destruct p, q; simpl; try done.
  rewrite insert_insert_ne; [done|]. by intros ->.
Qed.

Lemma new_Node_store c d :
  new_Node c d
  = Ok (heap_node (fresh (dom (heap d))),
        store_node (heap_node (fresh (dom (heap d)))) (mk_Node c nullptr) d).
Proof. reflexivity. Qed.

Lemma fresh_node_unused d p n :
  load p d = Some n → p ≠ heap_node (fresh (dom (heap d))).
Proof.
  intros Hl ->. simpl in Hl.
  assert (heap d !! fresh (dom (heap d)) = None) as E
    by apply not_elem_of_dom, is_fresh.
  congruence.
Qed.

(** [attachAfter], on any two allocated nodes. *)
Lemma attachAfter_any d b nb e ne :
  load b d = Some nb → load e d = Some ne → e ≠ b →
  attachAfter b e d
  = Ok (tt, store_node b (with_next e nb) (store_node e (with_next (next nb) ne) d)).
Proof.
  intros Hb He Heb. pose proof (load_not_null _ _ _ Hb) as Hbn.
  unfold attachAfter, assert. rewrite (is_null_false b) by done. cbn [negb].
  erewrite bind_Ok; [|done].
  rewrite (bind_Ok _ _ _ _ _ (node_deref_run _ _ _ Hb)).
  rewrite (bind_Ok _ _ _ _ _ (node_update_run _ _ _ _ He)).
  erewrite node_update_run; [done|]. by rewrite load_store_ne.
Qed.

(** [extractAfter], on any node with a successor. *)
Lemma extractAfter_any d b nb ne :
  load b d = Some nb → load (next nb) d = Some ne →
  extractAfter b d = Ok (next nb, store_node b (with_next (next ne) nb) d).
Proof.
  intros Hb He. pose proof (load_not_null _ _ _ Hb) as Hbn.
  pose proof (load_not_null _ _ _ He) as Hen.
  unfold extractAfter, assert. rewrite (is_null_false b) by done. cbn [negb].
  erewrite bind_Ok; [|done].
  rewrite (bind_Ok _ _ _ _ _ (node_deref_run _ _ _ Hb)).
  rewrite (is_null_false _ Hen). cbn [negb].
  erewrite bind_Ok; [|done].
  rewrite (bind_Ok _ _ _ _ _ (node_deref_run _ _ _ He)).
  by rewrite (bind_Ok _ _ _ _ _ (node_update_run _ _ _ _ Hb)).
Qed.

Lemma deck_size_t_round_trip z :
  0 ≤ z < size_t_modulus → size_t_wrap (size_t_wrap (z + 1) - 1) = z.
Proof.
  intros Hz. unfold size_t_wrap. rewrite Zminus_mod_idemp_l.
  replace (z + 1 - 1) with z by lia. by apply Z.mod_small.
Qed.

(** X9: [insertAfter(it, card)] followed by [eraseAfter(it)] gives back
    the very deck object, for any position [it] that points to a node: the
    links, the cards and the counter are as before, and the node made for
    the card is freed again.  In particular [pushFront] followed by
    [popFront]. *)
Theorem insertAfter_eraseAfter_round_trip it n c d :
  load it d = Some n → 0 ≤ deckSize d < size_t_modulus →
  ∃ d1,
    insertAfter it c d = Ok (tt, d1)
    ∧ eraseAfter it d1 = Ok (tt, d)
    ∧ (it = beforeBegin → pushFront c d = Ok (tt, d1) ∧ popFront d1 = Ok (tt, d)).
Proof.
  intros Hit Hsz. set (k := fresh (dom (heap d))).
  pose proof (fresh_node_unused _ _ _ Hit) as Hk. fold k in Hk.
  assert (heap d !! k = None) as Hfresh by apply not_elem_of_dom, is_fresh.
  set (d0 := store_node (heap_node k) (mk_Node c nullptr) d).
  assert (load it d0 = Some n) as Hit0 by (by unfold d0; rewrite load_store_ne).
  assert (load (heap_node k) d0 = Some (mk_Node c nullptr)) as Hk0
    by (by apply load_store_eq).
  set (d1 := store_node it (with_next (heap_node k) n)
               (store_node (heap_node k) (mk_Node c (next n)) d0)).
  set (d2 := with_deckSize (size_t_wrap (deckSize d + 1)) d1).
  assert (insertAfter it c d = Ok (tt, d2)) as Hins.
  { unfold insertAfter. rewrite (bind_Ok _ _ _ _ _ (new_Node_store c d)).
    fold k d0. cbv beta.
    rewrite (bind_Ok _ _ _ _ _ (attachAfter_any _ _ _ _ _ Hit0 Hk0 (not_eq_sym Hk))).
    unfold modify, d2, d1. rewrite !deckSize_store. reflexivity. }
  assert (load it d2 = Some (with_next (heap_node k) n)) as Hit2.
  { unfold d2, d1. destruct it; [done|done|]. simpl. apply lookup_insert_eq. }
  assert (load (heap_node k) d2 = Some (mk_Node c (next n))) as Hk2.
  { unfold d2, d1. destruct it; [done| |].
    - simpl. apply lookup_insert_eq.
    - simpl. rewrite lookup_insert_ne by congruence. apply lookup_insert_eq. }
  assert (eraseAfter it d2 = Ok (tt, d)) as Hers.
  { unfold eraseAfter.
    rewrite (bind_Ok _ _ _ _ _ (extractAfter_any _ _ _ _ Hit2 Hk2)).
    cbn [with_next next card]. unfold delete_Node.
    erewrite bind_Ok; cycle 1.
    { erewrite bind_Ok; [reflexivity|]. apply node_deref_run.
      rewrite load_store_ne by done. exact Hk2. }
    unfold modify. do 2 f_equal.
    destruct d as [bh hp sz], n as [cn nx]. unfold d2, d1, d0 in *.
    destruct it as [| |a]; [done| |]; simpl in *;
      rewrite deck_size_t_round_trip by done;
      unfold with_deckSize, with_next; simpl.
    - injection Hit as ->. f_equal.
      rewrite ?delete_insert_eq. by apply delete_id.
    - f_equal. apply map_eq. intros j.
      destruct (decide (j = k)) as [->|Hjk].
      + by rewrite lookup_delete_eq.
      + rewrite lookup_delete_ne by done.
        destruct (decide (j = a)) as [->|Hja].
        * by rewrite lookup_insert_eq.
        * by rewrite !lookup_insert_ne by congruence. }
  exists d2. split_and!; [done..|]. by intros ->.
Qed.

Lemma insertAfter_run d ns xs b cb ys c :
  deck_rep d ns →
  (before_head, card (beforeHeadNode d)) :: ns = xs ++ (b, cb) :: ys →
  ∃ d' ns',
    insertAfter b c d = Ok (tt, d')
    ∧ (before_head, card (beforeHeadNode d')) :: ns'
      = xs ++ (b, cb) :: (heap_node (fresh (dom (heap d))), c) :: ys
    ∧ deck_rep d' ns'
    ∧ length ns' = S (length ns)
    ∧ deckSize d' = size_t_wrap (deckSize d + 1).
Proof.
  intros Hrep Hsplit. set (l := fresh (dom (heap d))).
  assert (heap d !! l = None) as Hl by apply not_elem_of_dom, is_fresh.
  assert (heap_node l ∉ ns.*1) as Hnotin.
  { intros [n Hn]%(deck_rep_allocated _ _ _ Hrep). simpl in Hn. congruence. }
  destruct Hrep as [Hc Hnd].
  change (before_head :: ns.*1)
    with (((before_head, card (beforeHeadNode d)) :: ns).*1) in Hnd.
  assert (heap_node l ∉ ((before_head, card (beforeHeadNode d)) :: ns).*1) as Hnotin'.
  { cbn [fmap list_fmap fst]. set_solver. }
  rewrite Hsplit in Hc, Hnd, Hnotin'.
  unfold insertAfter. rewrite (bind_Ok _ _ _ _ _ (new_Node_store c d)). fold l.
  set (d0 := store_node _ _ d).
  assert (chain d0 before_head (xs ++ (b, cb) :: ys) nullptr) as Hc0
    by (by apply chain_store).
  destruct (attachAfter_run d0 before_head xs b cb ys (heap_node l)
              (mk_Node c nullptr) Hc0 Hnd) as (Hatt & Hc1); [|done|].
  { by apply load_store_eq. }
  rewrite (bind_Ok _ _ _ _ _ Hatt). cbn [card] in Hc1.
  set (d1 := store_node b _ _) in *.
  set (d' := with_deckSize (size_t_wrap (deckSize d1 + 1)) d1).
  assert (chain d' before_head (xs ++ (b, cb) :: (heap_node l, c) :: ys) nullptr)
    as Hc'.
  { eapply chain_agree; [|done]. by intros [| |?] _. }
  assert (NoDup ((xs ++ (b, cb) :: (heap_node l, c) :: ys).*1)) as Hnd'.
  { revert Hnd Hnotin'. rewrite !fmap_app. cbn [fmap list_fmap fst].
    intros Hnd Hnotin'. split_NoDup.
    rewrite NoDup_app, !NoDup_cons. set_solver. }
  assert (∃ ns', (before_head, card (beforeHeadNode d')) :: ns'
                 = xs ++ (b, cb) :: (heap_node l, c) :: ys) as [ns' Hns'].
  { destruct xs as [|[x cx] xs]; simplify_eq/=; eexists; do 2 f_equal;
      destruct Hc' as (_ & _ & nx & Hl' & _); simpl in Hl'; by injection Hl' as ->. }
  exists d', ns'. split_and!.
  - reflexivity.
  - done.
  - split; [by rewrite Hns'|].
    change (before_head :: ns'.*1)
      with (((before_head, card (beforeHeadNode d')) :: ns').*1).
    by rewrite Hns'.
  - apply (f_equal length) in Hsplit, Hns'. revert Hsplit Hns'.
    rewrite !length_app. cbn [length]. lia.
  - unfold d', d1, d0. cbn [deckSize with_deckSize]. by rewrite !deckSize_store.
Qed.

(** X10: [insertAfter(it, card)] puts a new node with the card right
    after the node [it] points to, whichever node of the deck (or the
    sentinel) that is, and leaves the other nodes in place; [size()] is one
    more.  At [end()] it fails the assertion [node != nullptr]. *)
Theorem insertAfter_spec d ns c :
  deck_rep d ns → size_ok d ns → Z.of_nat (length ns) + 1 < 2 ^ 63 →
  (∀ xs b cb ys,
     (before_head, card (beforeHeadNode d)) :: ns = xs ++ (b, cb) :: ys →
     ∃ d' ns',
       insertAfter b c d = Ok (tt, d')
       ∧ (before_head, card (beforeHeadNode d')) :: ns'
         = xs ++ (b, cb) :: (heap_node (fresh (dom (heap d))), c) :: ys
       ∧ deck_rep d' ns' ∧ size_ok d' ns'
       ∧ size d' = Ok (deckSize d + 1, d'))
  ∧ insertAfter end_ c d = Err AssertionViolated.
Proof.
  intros Hrep [Hsz Hfit] Hroom. split; [|reflexivity].
  intros xs b cb ys Hsplit.
  destruct (insertAfter_run d ns xs b cb ys c Hrep Hsplit)
    as (d' & ns' & Hrun & Hns' & Hrep' & Hlen & Hsz').
  assert (deckSize d' = deckSize d + 1) as Hsz''.
  { rewrite Hsz'. unfold size_t_wrap, size_t_modulus.
    rewrite Z.mod_small; lia. }
  exists d', ns'. split_and!; try done.
  - split; lia.
  - unfold size, gets. by rewrite Hsz''.
Qed.

(** ** The destructor *)

Lemma popFront_heap d l c ns d' :
  deck_rep d ((heap_node l, c) :: ns) → popFront d = Ok (tt, d') →
  heap d' = delete l (heap d).
Proof.
  intros [(_ & _ & nx & Hbh & (-> & _ & nx' & Hl & _)) _].
  unfold popFront, eraseAfter.
  rewrite (bind_Ok _ _ _ _ _ (extractAfter_any _ _ _ _ Hbh Hl)).
  cbn [next]. unfold delete_Node. erewrite bind_Ok; cycle 1.
  { erewrite bind_Ok; [reflexivity|]. apply node_deref_run.
    rewrite load_store_ne by done. exact Hl. }
  unfold modify. by intros [= <-].
Qed.

Lemma destroy_loop_run fuel d ns :
  deck_rep d ns → size_ok d ns → (length ns < fuel)%nat →
  ∃ d', destroy_loop fuel d = Ok (tt, d')
        ∧ deck_rep d' [] ∧ deckSize d' = 0
        ∧ ∀ l, heap d' !! l
               = if decide (heap_node l ∈ ns.*1) then None else heap d !! l.
Proof.
  revert fuel d. induction ns as [|[a c] ns IH]; intros [|fuel] d Hrep [Hsz Hfit] Hfuel;
    cbn [length] in *; try lia; cbn [destroy_loop]; unfold empty, size.
  - erewrite bind_Ok; [|by erewrite bind_Ok]. cbv beta.
    rewrite bool_decide_eq_true_2 by done. by exists d.
  - erewrite bind_Ok; [|by erewrite bind_Ok]. cbv beta.
    rewrite bool_decide_eq_false_2 by lia. cbn [negb].
    destruct (popFront_run d a c ns Hrep) as (d1 & Hrun & Hrep1 & Hsz1 & Ha).
    assert (∃ l, a = heap_node l) as [l ->].
    { destruct Hrep as [(_ & _ & nx & _ & (_ & Hn & _)) Hnd].
      apply NoDup_cons in Hnd as [Hnd _]. destruct a; [done| |by eexists].
      exfalso. apply Hnd. by left. }
    pose proof (popFront_heap _ _ _ _ _ Hrep Hrun) as Hheap.
    rewrite (bind_Ok _ _ _ _ _ Hrun).
    destruct (IH fuel d1) as (d' & Hrun' & Hrep' & Hsz' & Hfr); [done| |lia|].
    { split; [|lia]. rewrite Hsz1, Hsz. unfold size_t_wrap, size_t_modulus.
      rewrite Z.mod_small; lia. }
    exists d'. split_and!; try done. intros j. rewrite Hfr, Hheap.
    cbn [fmap list_fmap fst].
    destruct (decide (j = l)) as [->|Hjl].
    + rewrite lookup_delete_eq, (decide_True (P:=_ ∈ _ :: _)) by (by left).
      by case_decide.
    + rewrite lookup_delete_ne by done.
      repeat case_decide; try done; set_solver.
Qed.

(** X11: the destructor of a deck frees every node of the deck, each one
    once, and nothing else; no assertion fails on the way. *)
Theorem Deck_destroy_frees_all d ns :
  deck_rep d ns → size_ok d ns →
  ∃ d',
    destroy d = Ok (tt, d')
    ∧ deck_rep d' [] ∧ deckSize d' = 0
    ∧ ∀ l, heap d' !! l
           = if decide (heap_node l ∈ ns.*1) then None else heap d !! l.
Proof.
  intros Hrep Hsz. unfold destroy. rewrite deck_fuel_run.
  apply destroy_loop_run; [done..|]. by apply deck_fuel.
Qed.

(** ** Comparing cards *)

(** X12: [Card::operator<] is a strict weak ordering and
    [Card::operator==] is its equivalence: two cards are equal when neither
    is less than the other.  Equal cards need not be the same card: the
    suit plays no part. *)
Theorem Card_order_consistent :
  (∀ c, Card_ltb c c = false)
  ∧ (∀ c1 c2 c3, Card_ltb c1 c2 = true → Card_ltb c2 c3 = true →
                 Card_ltb c1 c3 = true)
  ∧ (∀ c1 c2, Card_eqb c1 c2 = negb (Card_ltb c1 c2) && negb (Card_ltb c2 c1))
  ∧ (∀ c1 c2 c3, Card_eqb c1 c2 = true → Card_eqb c2 c3 = true →
                 Card_eqb c1 c3 = true)
  ∧ (∀ s1 s2 r, Card_eqb (mk_Card s1 r) (mk_Card s2 r) = true).
Proof.
  unfold Card_ltb, Card_eqb. split_and!.
  - intros c. apply Z.ltb_irrefl.
  - intros c1 c2 c3. rewrite !Z.ltb_lt. lia.
  - intros c1 c2.
    destruct (Z.eqb_spec (rank c1) (rank c2)), (Z.ltb_spec (rank c1) (rank c2)),
      (Z.ltb_spec (rank c2) (rank c1)); simpl; try done; lia.
  - intros c1 c2 c3. rewrite !Z.eqb_eq. congruence.
  - intros s1 s2 r. apply Z.eqb_refl.
Qed.

(** ** [std::is_sorted] *)

Lemma Card_le_trans : Transitive Card_le.
Proof. intros c1 c2 c3. unfold Card_le. lia. Qed.

Lemma is_sorted_until_run fuel d a ca rest :
  chain d a ((a, ca) :: rest) nullptr → (length rest < fuel)%nat →
  ∃ stop, is_sorted_until fuel a (head_ptr rest nullptr) d = Ok (stop, d)
          ∧ is_null stop = bool_decide (Sorted Card_le (ca :: rest.*2)).
Proof.
  revert fuel a ca. induction rest as [|[b cb] rest IH]; intros [|fuel] a ca Hc Hfuel;
    cbn [length] in *; try lia; cbn [is_sorted_until head_ptr].
  - exists nullptr. split; [done|]. symmetry. apply bool_decide_eq_true_2.
    repeat constructor.
  - destruct Hc as (_ & Ha & nx & Hla & Hc).
    pose proof Hc as (-> & Hb & nx' & Hlb & Hc').
    rewrite (is_null_false _ Hb).
    rewrite (bind_Ok _ _ _ _ _ (iter_get_run _ _ _ Hlb)).
    rewrite (bind_Ok _ _ _ _ _ (iter_get_run _ _ _ Hla)). cbn [card].
    unfold Card_ltb. destruct (Z.ltb_spec (rank cb) (rank ca)) as [Hlt|Hge].
    + exists b. split; [done|]. rewrite (is_null_false _ Hb). symmetry.
      apply bool_decide_eq_false_2. cbn [fmap list_fmap snd].
      intros Hs. apply Sorted_inv in Hs as [_ Hhd]. apply HdRel_inv in Hhd.
      unfold Card_le in Hhd. lia.
    + rewrite (bind_Ok _ _ _ _ _ (iter_next_run _ _ _ Hlb)). cbn [next].
      rewrite (chain_head _ _ _ _ Hc').
      destruct (IH fuel b cb Hc) as (stop & Hrun & Hstop); [lia|].
      exists stop. split; [done|]. rewrite Hstop. apply bool_decide_ext.
      cbn [fmap list_fmap snd]. split.
      * intros Hs. by constructor; [|constructor].
      * intros Hs. by apply Sorted_inv in Hs as [? _].
Qed.

Lemma is_sorted_run d ns :
  deck_rep d ns → is_sorted d = Ok (bool_decide (Sorted Card_le (ns.*2)), d).
Proof.
  intros Hrep. pose proof (deck_fuel _ _ Hrep) as Hfuel.
  destruct Hrep as [(_ & _ & nx & Hl & Hc) _].
  unfold is_sorted, begin.
  rewrite (bind_Ok _ _ _ _ _ (iter_next_run _ _ _ Hl)). cbn [next].
  destruct ns as [|[a ca] rest].
  - cbn in Hc. by subst nx.
  - pose proof Hc as (-> & Ha & nx' & Hla & Hc').
    rewrite (is_null_false _ Ha). rewrite deck_fuel_run.
    rewrite (bind_Ok _ _ _ _ _ (iter_next_run _ _ _ Hla)). cbn [next].
    rewrite (chain_head _ _ _ _ Hc').
    destruct (is_sorted_until_run (S (base.size (heap d))) d a ca rest Hc)
      as (stop & Hrun & Hstop); [cbn [length] in Hfuel; lia|].
    rewrite (bind_Ok _ _ _ _ _ Hrun). unfold ret. by rewrite Hstop.
Qed.

(** X13: [std::is_sorted] over a deck tells whether the cards, read from
    front to back, are in non-decreasing order of rank, and does not touch
    the deck; after [stableSelectionSort] it is true. *)
Theorem is_sorted_spec d ns :
  deck_rep d ns →
  is_sorted d = Ok (bool_decide (Sorted Card_le (ns.*2)), d)
  ∧ ∃ d', stableSelectionSort d = Ok (tt, d') ∧ is_sorted d' = Ok (true, d').
Proof.
  intros Hrep. split; [by apply is_sorted_run|].
  destruct (stableSelectionSort_run d ns Hrep) as (d' & ns' & Hrun & Hrep' & Hsel & _).
  exists d'. split; [done|]. rewrite (is_sorted_run _ _ Hrep').
  rewrite bool_decide_eq_true_2; [done|].
  apply StronglySorted_Sorted.
  apply (StronglySorted_fmap _ (λ x y, Card_le x.2 y.2)); [done|].
  by eapply selects_sorted.
Qed.

(** ** Sorting a sorted deck *)

Lemma sorted_by_card ns :
  Sorted Card_le (ns.*2) → StronglySorted (λ x y, Card_le x.2 y.2) ns.
Proof.
  intros Hs. apply (Sorted_StronglySorted _ (Transitive0:=Card_le_trans)) in Hs.
  induction ns as [|x ns IH]; [constructor|].
  cbn [fmap list_fmap] in Hs. apply StronglySorted_cons in Hs as [Hall Hs].
  apply StronglySorted_cons. split; [|by apply IH].
  by rewrite Forall_fmap in Hall.
Qed.

(** In a sorted list the first element is the earliest least one. *)
Lemma sorted_selects_first (u1 u2 u : list (node_ptr * Card)) m x :
  StronglySorted (λ x y : node_ptr * Card, Card_le x.2 y.2) (x :: u) →
  x :: u = u1 ++ m :: u2 → Forall (λ y, Card_lt m.2 y.2) u1 → u1 = [].
Proof.
  intros Hs Hsplit Hlt. destruct u1 as [|y u1]; [done|]. exfalso.
  cbn [app] in Hsplit. injection Hsplit as <- ->.
  apply StronglySorted_cons in Hs as [Hall _].
  apply Forall_cons in Hlt as [Hlt _].
  rewrite Forall_app, Forall_cons in Hall. destruct Hall as (_ & Hle & _).
  unfold Card_lt, Card_le in *. lia.
Qed.

Lemma stableSelectionSort_loop_sorted fuel d ins ci (u : list (node_ptr * Card)) :
  chain d ins ((ins, ci) :: u) nullptr →
  NoDup (((ins, ci) :: u).*1) → before_head ∉ u.*1 →
  StronglySorted (λ x y, Card_le x.2 y.2) u →
  (length u < fuel)%nat →
  stableSelectionSort_loop fuel ins d = Ok (tt, d).
Proof.
  revert fuel ins ci. induction u as [|[e ce] u IH];
    intros [|fuel] ins ci Hc Hnd Hbh Hs Hfuel;
    cbn [length] in *; try lia; cbn [stableSelectionSort_loop].
  - destruct Hc as (_ & _ & nx & Hl & ->).
    by rewrite (bind_Ok _ _ _ _ _ (iter_next_run _ _ _ Hl)).
  - pose proof Hc as (_ & _ & nx & Hl & Hc1).
    pose proof Hc1 as (-> & He & nx' & Hle & Hc2).
    rewrite (bind_Ok _ _ _ _ _ (iter_next_run _ _ _ Hl)). cbn [next].
    rewrite (is_null_false _ He).
    cbn [fmap list_fmap fst] in Hnd, Hbh.
    apply NoDup_cons in Hnd as [Hins Hnd].
    destruct (findBeforeMin_run d ins ci ((e, ce) :: u) Hc)
      as (u1 & m & u2 & Hsplit & Hlt & _ & Hfind); [done..|].
    rewrite (sorted_selects_first _ _ _ _ _ Hs Hsplit Hlt) in Hfind.
    change (last_ptr ins []) with ins in Hfind.
    rewrite (bind_Ok _ _ _ _ _ Hfind).
    rewrite (bind_Ok _ _ _ _ _ (extractAfter_any _ _ _ _ Hl Hle)).
    cbn [next with_next card].
    assert (e ≠ ins) as Hne by (intros ->; apply Hins; by left).
    set (d1 := store_node ins (mk_Node ci nx') d).
    assert (load ins d1 = Some (mk_Node ci nx')) as Hl1.
    { apply load_store_eq. by eapply load_not_null. }
    assert (load e d1 = Some (mk_Node ce nx')) as Hle1.
    { unfold d1. by rewrite load_store_ne. }
    rewrite (bind_Ok _ _ _ _ _ (attachAfter_any _ _ _ _ _ Hl1 Hle1 Hne)).
    cbn [next with_next card]. unfold d1.
    rewrite (store_node_comm e ins) by done.
    rewrite (store_node_id e _ d) by done.
    rewrite store_node_twice, (store_node_id ins _ d) by done.
    rewrite (bind_Ok _ _ _ _ _ (iter_next_run _ _ _ Hl)). cbn [next].
    apply (IH fuel e ce); [done..| | |lia].
    + set_solver.
    + by apply StronglySorted_cons in Hs as [_ ?].
Qed.

Lemma stableSelectionSort_sorted_run d ns :
  deck_rep d ns → Sorted Card_le (ns.*2) → stableSelectionSort d = Ok (tt, d).
Proof.
  intros Hrep Hs. pose proof (deck_fuel _ _ Hrep) as Hfuel.
  destruct Hrep as [Hc Hnd].
  unfold stableSelectionSort. rewrite deck_fuel_run.
  eapply stableSelectionSort_loop_sorted; [done..| |by apply sorted_by_card|lia].
  by apply NoDup_cons in Hnd as [? _].
Qed.

(** X14: [stableSelectionSort] on a deck that is sorted changes nothing
    at all: every node keeps its place and its card, and the deck object is
    the same afterwards. *)
Theorem stableSelectionSort_fixes_sorted d ns :
  deck_rep d ns → Sorted Card_le (ns.*2) →
  stableSelectionSort d = Ok (tt, d).
Proof. apply stableSelectionSort_sorted_run. Qed.

(** X15: sorting twice is sorting once: the second [stableSelectionSort]
    leaves the deck as the first one made it. *)
Theorem stableSelectionSort_idempotent d ns :
  deck_rep d ns →
  ∃ d', stableSelectionSort d = Ok (tt, d')
        ∧ stableSelectionSort d' = Ok (tt, d').
Proof.
  intros Hrep.
  destruct (stableSelectionSort_run d ns Hrep) as (d' & ns' & Hrun & Hrep' & Hsel & _).
  exists d'. split; [done|].
  apply (stableSelectionSort_sorted_run d' ns' Hrep').
  apply StronglySorted_Sorted.
  apply (StronglySorted_fmap _ (λ x y, Card_le x.2 y.2)); [done|].
  by eapply selects_sorted.
Qed.

(** ** The test for stability *)

Lemma find_spec v c :
  match find v c with
  | [] => existsb (λ x, rank x =? rank c) v = false
  | x :: _ => rank x = rank c ∧ existsb (λ x, rank x =? rank c) v = true
  end.
Proof.
  induction v as [|y v IH]; [done|]. cbn [find existsb]. unfold Card_eqb.
  destruct (Z.eqb_spec (rank y) (rank c)) as [E|E]; [done|].
  cbn [orb]. exact IH.
Qed.

(** A group of cards of one rank: the search finds them all at the first
    card of that rank in the collection, or finds none. *)
Lemma find_group_same_rank d it (g rest : list (node_ptr * Card)) r jt :
  chain d it (g ++ rest) nullptr →
  Forall (λ x, rank x.2 = r) g → g ≠ [] →
  find_group (length g) jt it d
  = Ok (if existsb (λ x, rank x =? r) jt then Some (head_ptr rest nullptr)
        else None, d).
Proof.
  revert it jt. induction g as [|[a c] g IH]; intros it jt Hc Hr Hg; [done|].
  apply Forall_cons in Hr as [Hrc Hr]. cbn [snd] in Hrc. subst r.
  cbn [app] in Hc. destruct Hc as (-> & Ha & nx & Hl & Hc).
  cbn [length find_group].
  rewrite (bind_Ok _ _ _ _ _ (iter_get_run _ _ _ Hl)). cbn [card].
  pose proof (find_spec jt c) as Hfind.
  destruct (find jt c) as [|x tl] eqn:E.
  { by rewrite Hfind. }
  destruct Hfind as [Hx ->].
  rewrite (bind_Ok _ _ _ _ _ (iter_next_run _ _ _ Hl)). cbn [next].
  destruct g as [|y g].
  - cbn [length find_group app] in *. by rewrite (chain_head _ _ _ _ Hc).
  - rewrite (IH nx (x :: tl)); [|done..].
    cbn [existsb]. by rewrite Hx, Z.eqb_refl.
Qed.

(** Fewer cards than the loop has turns: the end iterator is dereferenced. *)
Lemma find_group_short d it (g : list (node_ptr * Card)) r jt i :
  chain d it g nullptr →
  Forall (λ x, rank x.2 = r) g →
  existsb (λ x, rank x =? r) jt = true →
  (length g < i)%nat →
  find_group i jt it d = Err NullDereference.
Proof.
  revert it jt i. induction g as [|[a c] g IH]; intros it jt [|i] Hc Hr Hjt Hi;
    cbn [length] in *; try lia; cbn [find_group].
  - cbn in Hc. by subst it.
  - apply Forall_cons in Hr as [Hrc Hr]. cbn [snd] in Hrc. subst r.
    destruct Hc as (-> & Ha & nx & Hl & Hc).
    rewrite (bind_Ok _ _ _ _ _ (iter_get_run _ _ _ Hl)). cbn [card].
    pose proof (find_spec jt c) as Hfind.
    destruct (find jt c) as [|x tl] eqn:E; [congruence|].
    destruct Hfind as [Hx _].
    rewrite (bind_Ok _ _ _ _ _ (iter_next_run _ _ _ Hl)). cbn [next].
    apply IH; [done..| |lia]. cbn [existsb]. by rewrite Hx, Z.eqb_refl.
Qed.

Lemma four_of_a_rank ns r (l : list Z) :
  rank <$> ns.*2 = replicate 4 r ++ l →
  ∃ g ns', ns = g ++ ns' ∧ length g = 4%nat ∧ g ≠ []
           ∧ Forall (λ x, rank x.2 = r) g ∧ rank <$> ns'.*2 = l.
Proof.
  intros H. destruct ns as [|n1 [|n2 [|n3 [|n4 ns']]]]; try done.
  cbn in H. injection H as H1 H2 H3 H4 H.
  exists [n1; n2; n3; n4], ns'. split_and!; try done.
  by repeat constructor.
Qed.

Lemma isStandardDeckStablySorted_loop_run fuel d it ns rs v :
  chain d it ns nullptr →
  rank <$> ns.*2 = rs ≫= replicate 4 →
  (length rs < fuel)%nat →
  isStandardDeckStablySorted_loop fuel it v d
  = Ok (forallb (λ r, existsb (λ x, rank x =? r) v) rs, d).
Proof.
  revert fuel it ns. induction rs as [|r rs IH]; intros [|fuel] it ns Hc Hranks Hfuel;
    cbn [length] in *; try lia; cbn [isStandardDeckStablySorted_loop forallb].
  - destruct ns; [|done]. cbn in Hc. by subst it.
  - change ((r :: rs) ≫= replicate 4) with (replicate 4 r ++ (rs ≫= replicate 4))
      in Hranks.
    destruct (four_of_a_rank _ _ _ Hranks) as (g & ns' & -> & Hlen & Hg & Hr & Hranks').
    pose proof Hc as Hc0. apply chain_app in Hc0 as [_ Hc'].
    assert (is_null it = false) as ->.
    { destruct g as [|[a c] g]; [done|]. destruct Hc as (-> & Ha & _).
      by apply is_null_false. }
    rewrite <-Hlen. rewrite (bind_Ok _ _ _ _ _ (find_group_same_rank _ _ _ _ _ v Hc Hr Hg)).
    destruct (existsb _ v); [|done]. cbn [andb].
    apply (IH fuel _ ns'); [done..|lia].
Qed.

Lemma isStandardDeckStablySorted_loop_short fuel d it ns rs r k v :
  chain d it ns nullptr →
  rank <$> ns.*2 = (rs ≫= replicate 4) ++ replicate k r →
  (0 < k < 4)%nat →
  forallb (λ r, existsb (λ x, rank x =? r) v) (rs ++ [r]) = true →
  (length rs < fuel)%nat →
  isStandardDeckStablySorted_loop fuel it v d = Err NullDereference.
Proof.
  revert fuel it ns. induction rs as [|r0 rs IH];
    intros [|fuel] it ns Hc Hranks Hk Hall Hfuel;
    cbn [length] in *; try lia; cbn [isStandardDeckStablySorted_loop].
  - cbn [app forallb] in Hall. apply andb_prop in Hall as [Hr _].
    change ([] ≫= replicate 4) with (@nil Z) in Hranks. cbn [app] in Hranks.
    assert (is_null it = false) as ->.
    { destruct ns as [|[a c] ns]; [by destruct k; [lia|]|].
      destruct Hc as (-> & Ha & _). by apply is_null_false. }
    rewrite (bind_Err _ _ _ NullDereference); [done|].
    apply (find_group_short d it ns r); [done| |done|].
    + apply Forall_forall. intros x Hx.
      assert (rank x.2 ∈ rank <$> ns.*2) as Hin.
      { apply list_elem_of_fmap_2. by apply list_elem_of_fmap_2. }
      rewrite Hranks in Hin. by apply elem_of_replicate in Hin as [? _].
    + apply (f_equal length) in Hranks.
      rewrite !length_fmap, length_replicate in Hranks. lia.
  - change ((r0 :: rs) ≫= replicate 4) with (replicate 4 r0 ++ (rs ≫= replicate 4))
      in Hranks.
    rewrite <-app_assoc in Hranks.
    destruct (four_of_a_rank _ _ _ Hranks) as (g & ns' & -> & Hlen & Hg & Hr & Hranks').
    pose proof Hc as Hc0. apply chain_app in Hc0 as [_ Hc'].
    assert (is_null it = false) as ->.
    { destruct g as [|[a c] g]; [done|]. destruct Hc as (-> & Ha & _).
      by apply is_null_false. }
    cbn [app forallb] in Hall. apply andb_prop in Hall as [Hr0 Hall].
    rewrite <-Hlen. rewrite (bind_Ok _ _ _ _ _ (find_group_same_rank _ _ _ _ _ v Hc Hr Hg)).
    rewrite Hr0. apply (IH fuel _ ns'); [done..|lia].
Qed.

Lemma length_four_each (rs : list Z) :
  length (rs ≫= replicate 4) = (4 * length rs)%nat.
Proof.
  induction rs as [|r rs IH]; [done|].
  change ((r :: rs) ≫= replicate 4) with (replicate 4 r ++ (rs ≫= replicate 4)).
  rewrite length_app, IH. cbn [replicate length]. lia.
Qed.

Lemma isStandardDeckStablySorted_run d ns rs v :
  deck_rep d ns →
  rank <$> ns.*2 = rs ≫= replicate 4 →
  isStandardDeckStablySorted v d
  = Ok (forallb (λ r, existsb (λ x, rank x =? r) v) rs, d).
Proof.
  intros Hrep Hranks. pose proof (deck_fuel _ _ Hrep) as Hfuel.
  destruct Hrep as [(_ & _ & nx & Hl & Hc) _].
  unfold isStandardDeckStablySorted, begin. rewrite deck_fuel_run.
  rewrite (bind_Ok _ _ _ _ _ (iter_next_run _ _ _ Hl)). cbn [next].
  eapply isStandardDeckStablySorted_loop_run; [done..|].
  apply (f_equal length) in Hranks.
  rewrite !length_fmap, length_four_each in Hranks. lia.
Qed.

(** X16: on a deck made of groups of four cards of equal rank (a sorted
    standard deck is one), [isStandardDeckStablySorted] returns true
    exactly when every rank of the deck occurs in the collection.  It looks
    neither at suits nor at the order of the collection, so an unstable
    order of the deck passes as well. *)
Theorem isStandardDeckStablySorted_spec d ns rs v :
  deck_rep d ns →
  rank <$> ns.*2 = rs ≫= replicate 4 →
  isStandardDeckStablySorted v d
  = Ok (forallb (λ r, existsb (λ x, rank x =? r) v) rs, d).
Proof. apply isStandardDeckStablySorted_run. Qed.

(** X17: on a deck whose last group has fewer than four cards,
    [isStandardDeckStablySorted] dereferences the end iterator, unless it
    has returned false before. *)
Theorem isStandardDeckStablySorted_short_group d ns rs r k v :
  deck_rep d ns →
  rank <$> ns.*2 = (rs ≫= replicate 4) ++ replicate k r →
  (0 < k < 4)%nat →
  forallb (λ r, existsb (λ x, rank x =? r) v) (rs ++ [r]) = true →
  isStandardDeckStablySorted v d = Err NullDereference.
Proof.
  intros Hrep Hranks Hk Hall. pose proof (deck_fuel _ _ Hrep) as Hfuel.
  destruct Hrep as [(_ & _ & nx & Hl & Hc) _].
  unfold isStandardDeckStablySorted, begin. rewrite deck_fuel_run.
  rewrite (bind_Ok _ _ _ _ _ (iter_next_run _ _ _ Hl)). cbn [next].
  eapply isStandardDeckStablySorted_loop_short; [done..|].
  apply (f_equal length) in Hranks.
  rewrite !length_fmap, length_app, length_four_each, length_replicate in Hranks.
  lia.
Qed.

(** ** [genericTest] *)

Lemma generateStandardDeck_run :
  ∃ d ns, generateStandardDeck = Ok (tt, d)
          ∧ deck_rep d ns ∧ size_ok d ns ∧ ns.*2 = rev generation_order.
Proof.
  destruct (pushFront_all_run generation_order empty_Deck [] deck_rep_empty)
    as (d & ns & Hrun & Hrep & Hsz & Hcards).
  { split; [done|]. cbn. lia. }
  { vm_compute. done. }
  assert (generateStandardDeck = pushFront_all generation_order empty_Deck) as Hgen.
  { vm_compute. reflexivity. }
  rewrite app_nil_r in Hcards. exists d, ns. split_and!.
  - rewrite Hgen. exact Hrun.
  - exact Hrep.
  - exact Hsz.
  - exact Hcards.
Qed.

Lemma sorted_standard_ranks (l : list Card) :
  l ≡ₚ generation_order → StronglySorted Card_le l →
  rank <$> l = rev ranks_descending ≫= replicate 4.
Proof.
  intros Hp Hs. apply (StronglySorted_unique Z.le).
  - by apply (StronglySorted_fmap _ Card_le Z.le).
  - compute_done.
  - rewrite Hp. compute_done.
Qed.

Lemma standard_ranks_occur (v : list Card) :
  v ≡ₚ generation_order →
  forallb (λ r, existsb (λ x, rank x =? r) v) (rev ranks_descending) = true.
Proof.
  intros Hp. apply forallb_forall. intros r Hr. apply existsb_exists.
  assert (Forall (λ r, Exists (λ x, rank x = r) generation_order)
            (rev ranks_descending)) as Hall by compute_done.
  rewrite Forall_forall in Hall. apply list_elem_of_In in Hr.
  destruct (proj1 (Exists_exists _ _) (Hall r Hr)) as (x & Hx & Hrx).
  exists x. split; [|by apply Z.eqb_eq].
  apply list_elem_of_In. by rewrite Hp.
Qed.

Lemma genericTest_loop_run css d ns testId rest :
  deck_rep d ns → size_ok d ns → ns.*2 ≡ₚ generation_order →
  Forall (valid_choices 0 52) css →
  ∃ d' ns',
    genericTest_loop (length css) testId
      (mjoin (fmap Z.of_nat <$> css) ++ rest) d = Ok ([], d')
    ∧ deck_rep d' ns' ∧ size_ok d' ns' ∧ ns'.*2 ≡ₚ generation_order.
Proof.
  revert d ns testId. induction css as [|cs css IH];
    intros d ns testId Hrep Hsz Hperm Hvalid.
  { by exists d, ns. }
  apply Forall_cons in Hvalid as [Hcs Hvalid].
  assert (length ns = 52%nat) as Hlen.
  { by rewrite <-(length_fmap snd), Hperm. }
  cbn [length genericTest_loop fmap list_fmap mjoin list_join].
  rewrite <-app_assoc.
  destruct (shuffle_run cs d ns (mjoin (fmap Z.of_nat <$> css) ++ rest) Hrep Hsz)
    as (d1 & Hrun1 & Hrep1 & Hsz1 & _); [by rewrite Hlen|].
  set (ns1 := zip (ns.*1) (fisher_yates 0 cs (ns.*2))) in *.
  assert (ns1.*2 = fisher_yates 0 cs (ns.*2)) as Hcards1.
  { apply zip_snd. by rewrite fisher_yates_length, length_fmap. }
  assert (ns1.*2 ≡ₚ generation_order) as Hperm1.
  { by rewrite Hcards1, fisher_yates_Permutation. }
  rewrite (bind_Ok _ _ _ _ _ Hrun1).
  rewrite (bind_Ok _ _ _ _ _ (cards_run _ _ Hrep1)).
  destruct (stableSelectionSort_run d1 ns1 Hrep1)
    as (d2 & ns2 & Hrun2 & Hrep2 & Hsel & Hsz2 & _).
  rewrite (bind_Ok _ _ _ _ _ Hrun2).
  pose proof (selects_Permutation _ _ Hsel) as Hperm2.
  assert (ns2.*2 ≡ₚ generation_order) as Hperm2' by (by rewrite Hperm2).
  assert (StronglySorted Card_le (ns2.*2)) as Hsorted.
  { apply (StronglySorted_fmap _ (λ x y, Card_le x.2 y.2)); [done|].
    by eapply selects_sorted. }
  rewrite (bind_Ok _ _ _ _ _ (is_sorted_run _ _ Hrep2)).
  rewrite bool_decide_eq_true_2 by (by apply StronglySorted_Sorted).
  rewrite (bind_Ok _ _ _ _ _
    (isStandardDeckStablySorted_run d2 ns2 (rev ranks_descending) (ns1.*2)
       Hrep2 (sorted_standard_ranks _ Hperm2' Hsorted))).
  rewrite (standard_ranks_occur _ Hperm1).
  assert (size_ok d2 ns2) as Hok2.
  { assert (length ns2 = 52%nat) as Hlen2
      by (by rewrite <-(length_fmap snd), Hperm2').
    destruct Hsz as [Hsz Hfit]. split.
    - by rewrite Hsz2, Hsz1, Hsz, Hlen, Hlen2.
    - rewrite Hlen2. lia. }
  destruct (IH d2 ns2 (testId + 1) Hrep2 Hok2 Hperm2' Hvalid)
    as (d' & ns' & Hrun' & ?).
  exists d', ns'. split; [|done]. by rewrite (bind_Ok _ _ _ _ _ Hrun').
Qed.

(** X18: [genericTest] prints no complaint, whatever numbers the
    generator yields: the standard deck has 52 cards, and after every
    shuffle and sort both checks succeed. *)
Theorem genericTest_silent css :
  Z.of_nat (length css) < size_t_modulus - 1 →
  Forall (valid_choices 0 52) css →
  ∃ d', genericTest (length css) (mjoin (fmap Z.of_nat <$> css)) = Ok ([], d').
Proof.
  intros _ Hvalid.
  destruct generateStandardDeck_run as (d & ns & Hgen & Hrep & Hsz & Hcards).
  assert (ns.*2 ≡ₚ generation_order) as Hperm.
  { rewrite Hcards. symmetry. apply Permutation_rev. }
  assert (length ns = 52%nat) as Hlen.
  { by rewrite <-(length_fmap snd), Hperm. }
  destruct (genericTest_loop_run css d ns 1 [] Hrep Hsz Hperm Hvalid)
    as (d' & ns' & Hrun & _).
  rewrite app_nil_r in Hrun.
  exists d'. unfold genericTest. rewrite Hgen. unfold size.
  erewrite bind_Ok; [|reflexivity]. cbv beta.
  destruct Hsz as [-> _]. rewrite Hlen.
  rewrite bool_decide_eq_true_2 by done.
  erewrite bind_Ok; [|reflexivity]. exact Hrun.
Qed.

(** ** Printing *)





Lemma NoDup_fmap_eq {A B} (f : A → B) (l : list A) x y :
  NoDup (f <$> l) → x ∈ l → y ∈ l → f x = f y → x = y.
Proof.
  intros Hnd [i Hi]%list_elem_of_lookup [j Hj]%list_elem_of_lookup Hxy.
  assert (i = j) as ->; [|congruence].
  eapply (NoDup_lookup _ _ _ (f x) Hnd); rewrite list_lookup_fmap.
  - by rewrite Hi.
  - by rewrite Hj, Hxy.
Qed.

(** X20: the cards of a standard deck are told apart by what is printed
    for them: two of them that print the same are the same card. *)
Theorem print_Card_distinct c1 c2 :
  c1 ∈ generation_order → c2 ∈ generation_order →
  print_Card c1 = print_Card c2 → c1 = c2.
Proof.
  apply NoDup_fmap_eq. compute_done.
Qed.

(** ** The theorems at the deck of five cards *)

Lemma stableSelectionSort_sorted_witness :
  deck_rep example_deck example_nodes
  ∧ ∃ d' sorted,
      stableSelectionSort example_deck = Ok (tt, d')
      ∧ cards d' = Ok (sorted, d')
      ∧ StronglySorted Card_le sorted
      ∧ Sorted Card_le sorted.
Proof.
  split; [evaluate |].
  apply (stableSelectionSort_sorted example_deck example_nodes); evaluate.
Defined.

Lemma stableSelectionSort_stable_witness :
  deck_rep example_deck example_nodes
  ∧ ∃ d' ns',
      stableSelectionSort example_deck = Ok (tt, d')
      ∧ deck_rep d' ns'
      ∧ selects example_nodes ns'
      ∧ (∀ r : Z, filter (λ x, rank x.2 = r) ns'
                  = filter (λ x, rank x.2 = r) example_nodes)
      ∧ (∀ c : Card, filter (λ x, Card_eqb x.2 c = true) ns'
                     = filter (λ x, Card_eqb x.2 c = true) example_nodes).
Proof.
  split; [evaluate |].
  apply (stableSelectionSort_stable example_deck example_nodes); evaluate.
Defined.

Lemma stableSelectionSort_permutes_witness :
  deck_rep example_deck example_nodes
  ∧ ∃ d' ns',
      stableSelectionSort example_deck = Ok (tt, d')
      ∧ deck_rep d' ns'
      ∧ ns' ≡ₚ example_nodes
      ∧ cards example_deck = Ok (example_nodes.*2, example_deck)
      ∧ cards d' = Ok (ns'.*2, d')
      ∧ ns'.*2 ≡ₚ example_nodes.*2
      ∧ size d' = Ok (deckSize example_deck, d')
      ∧ dom (heap d') = dom (heap example_deck).
Proof.
  split; [evaluate |].
  apply (stableSelectionSort_permutes example_deck example_nodes); evaluate.
Defined.

Lemma popFront_spec_witness :
  deck_rep example_deck example_nodes
  ∧ size_ok example_deck example_nodes
  ∧ (∃ d', popFront example_deck = Ok (tt, d')
           ∧ deck_rep d' (tail example_nodes) ∧ size_ok d' (tail example_nodes)
           ∧ cards d' = Ok ((tail example_nodes).*2, d')
           ∧ size d' = Ok (deckSize example_deck - 1, d')
           ∧ load (heap_node 5) d' = None)
  ∧ (∀ xs b cb e ce ys,
       (before_head, card (beforeHeadNode example_deck)) :: example_nodes
         = xs ++ (b, cb) :: (e, ce) :: ys →
       ∃ d' ns',
         eraseAfter b example_deck = Ok (tt, d')
         ∧ (before_head, card (beforeHeadNode d')) :: ns' = xs ++ (b, cb) :: ys
         ∧ deck_rep d' ns' ∧ size_ok d' ns'
         ∧ size d' = Ok (deckSize example_deck - 1, d')
         ∧ load e d' = None)
  ∧ extractAfter (last_ptr before_head example_nodes) example_deck
      = Err AssertionViolated
  ∧ eraseAfter (last_ptr before_head example_nodes) example_deck
      = Err AssertionViolated.
Proof.
  split; [evaluate |]. split; [evaluate |].
  apply (popFront_spec example_deck example_nodes); evaluate.
Defined.

Lemma popFront_empty_example :
  popFront empty_Deck = Err AssertionViolated.
Proof. reflexivity. Qed.



(** ** More theorems at the example decks *)

Lemma insertAfter_eraseAfter_round_trip_witness :
  load (heap_node 3) example_deck
    = Some (mk_Node (mk_Card CLUB SEVEN) (heap_node 2))
  ∧ 0 ≤ deckSize example_deck < size_t_modulus
  ∧ ∃ d1,
      insertAfter (heap_node 3) (mk_Card SPADE KING) example_deck = Ok (tt, d1)
      ∧ eraseAfter (heap_node 3) d1 = Ok (tt, example_deck)
      ∧ (heap_node 3 = beforeBegin →
         pushFront (mk_Card SPADE KING) example_deck = Ok (tt, d1)
         ∧ popFront d1 = Ok (tt, example_deck)).
Proof.
  split_and!; [evaluate | evaluate | evaluate |].
  apply (insertAfter_eraseAfter_round_trip (heap_node 3)
           (mk_Node (mk_Card CLUB SEVEN) (heap_node 2)) (mk_Card SPADE KING)
           example_deck); evaluate.
Defined.

Lemma insertAfter_spec_witness :
  deck_rep example_deck example_nodes
  ∧ size_ok example_deck example_nodes
  ∧ Z.of_nat (length example_nodes) + 1 < 2 ^ 63
  ∧ (∀ xs b cb ys,
       (before_head, card (beforeHeadNode example_deck)) :: example_nodes
         = xs ++ (b, cb) :: ys →
       ∃ d' ns',
         insertAfter b (mk_Card SPADE KING) example_deck = Ok (tt, d')
         ∧ (before_head, card (beforeHeadNode d')) :: ns'
           = xs ++ (b, cb)
                :: (heap_node (fresh (dom (heap example_deck))), mk_Card SPADE KING)
                :: ys
         ∧ deck_rep d' ns' ∧ size_ok d' ns'
         ∧ size d' = Ok (deckSize example_deck + 1, d'))
  ∧ insertAfter end_ (mk_Card SPADE KING) example_deck = Err AssertionViolated.
Proof.
  split; [evaluate |]. split; [evaluate |]. split; [evaluate |].
  apply (insertAfter_spec example_deck example_nodes (mk_Card SPADE KING));
    evaluate.
Defined.

Lemma Deck_destroy_frees_all_witness :
  deck_rep example_deck example_nodes
  ∧ size_ok example_deck example_nodes
  ∧ ∃ d',
      destroy example_deck = Ok (tt, d')
      ∧ deck_rep d' [] ∧ deckSize d' = 0
      ∧ ∀ l, heap d' !! l
             = if decide (heap_node l ∈ example_nodes.*1) then None
               else heap example_deck !! l.
Proof.
  split; [evaluate |]. split; [evaluate |].
  apply (Deck_destroy_frees_all example_deck example_nodes); evaluate.
Defined.

Lemma is_sorted_spec_witness :
  deck_rep example_deck example_nodes
  ∧ is_sorted example_deck
    = Ok (bool_decide (Sorted Card_le (example_nodes.*2)), example_deck)
  ∧ ∃ d', stableSelectionSort example_deck = Ok (tt, d')
          ∧ is_sorted d' = Ok (true, d').
Proof.
  split; [evaluate |].
  apply (is_sorted_spec example_deck example_nodes); evaluate.
Defined.

Lemma stableSelectionSort_fixes_sorted_witness :
  deck_rep example_sorted_deck example_sorted_nodes
  ∧ Sorted Card_le (example_sorted_nodes.*2)
  ∧ stableSelectionSort example_sorted_deck = Ok (tt, example_sorted_deck).
Proof.
  split; [evaluate |]. split; [compute_done |].
  apply (stableSelectionSort_fixes_sorted example_sorted_deck example_sorted_nodes);
    first [compute_done | evaluate].
Defined.

Lemma stableSelectionSort_idempotent_witness :
  deck_rep example_deck example_nodes
  ∧ ∃ d', stableSelectionSort example_deck = Ok (tt, d')
          ∧ stableSelectionSort d' = Ok (tt, d').
Proof.
  split; [evaluate |].
  apply (stableSelectionSort_idempotent example_deck example_nodes); evaluate.
Defined.

Lemma isStandardDeckStablySorted_spec_witness :
  deck_rep example_sevens example_sevens_nodes
  ∧ rank <$> example_sevens_nodes.*2 = [SEVEN] ≫= replicate 4
  ∧ isStandardDeckStablySorted example_cards example_sevens
    = Ok (forallb (λ r, existsb (λ x, rank x =? r) example_cards) [SEVEN],
          example_sevens).
Proof.
  split; [evaluate |]. split; [reflexivity |].
  apply (isStandardDeckStablySorted_spec example_sevens example_sevens_nodes
           [SEVEN] example_cards); first [reflexivity | evaluate].
Defined.

Lemma isStandardDeckStablySorted_short_group_witness :
  deck_rep example_pair example_pair_nodes
  ∧ rank <$> example_pair_nodes.*2 = ([] ≫= replicate 4) ++ replicate 2 SEVEN
  ∧ (0 < 2 < 4)%nat
  ∧ forallb (λ r, existsb (λ x, rank x =? r) example_cards) ([] ++ [SEVEN]) = true
  ∧ isStandardDeckStablySorted example_cards example_pair = Err NullDereference.
Proof.
  split; [evaluate |]. split; [reflexivity |]. split; [lia |].
  split; [reflexivity |].
  apply (isStandardDeckStablySorted_short_group example_pair example_pair_nodes
           [] SEVEN 2 example_cards); first [reflexivity | lia | evaluate].
Defined.

Lemma genericTest_silent_witness :
  Z.of_nat (length example_draws) < size_t_modulus - 1
  ∧ Forall (valid_choices 0 52) example_draws
  ∧ ∃ d', genericTest (length example_draws)
            (mjoin (fmap Z.of_nat <$> example_draws)) = Ok ([], d').
Proof.
  split; [evaluate |]. split; [repeat constructor; cbn; lia |].
  apply (genericTest_silent example_draws);
    [evaluate | repeat constructor; cbn; lia].
Defined.


Lemma print_Card_distinct_witness :
  mk_Card SPADE TEN ∈ generation_order
  ∧ mk_Card SPADE TEN ∈ generation_order
  ∧ print_Card (mk_Card SPADE TEN) = print_Card (mk_Card SPADE TEN)
  ∧ mk_Card SPADE TEN = mk_Card SPADE TEN.
Proof.
  split; [compute_done |]. split; [compute_done |]. split; [reflexivity |].
  apply (print_Card_distinct (mk_Card SPADE TEN) (mk_Card SPADE TEN));
    first [reflexivity | compute_done].
Defined.

End StableSelectionSortCorrect.
